(** * wrtcconn: the WebRTC peer adapter of pkg/wrtcconn/wrtcconn.go

    A shallow embedding of the adapter: the ICE-server list parsed at the
    start of [Open], the byte-stream wrapper around a data channel, the peer
    registry with its teardown paths, and the dispatch of the signaling
    session loop.  Go strings are byte strings and are modelled by [string]
    (a list of 8-bit characters); [[]byte] is [list byte]; Go's [int] results
    are in [Z]; maps are [gmap]. *)

From Stdlib Require Import ZArith Ascii String List.
From Stdlib.Strings Require Import Byte.
From stdpp Require Import gmap strings list fin_maps.

Local Open Scope string_scope.

(** ** Errors and outcomes *)

(** The two package-level errors of the source, [io.EOF], and the errors
    that the libraries underneath hand back. *)
Inductive error : Type :=
| ErrInvalidTURNServerAddr
| ErrMissingTURNCredentials
| EOF
| ErrLib (what : string).

(** A Go run-time panic: either [panic(err)] written in the source or a
    panic raised by the run time itself. *)
Inductive panic_value : Type :=
| PanicErr (e : error)
| PanicIndexOutOfRange (index len : nat)
| PanicCloseOfClosedChannel
| PanicSendOnClosedChannel
| PanicNilDereference.

(** What a piece of code does: it returns, it unwinds with a panic, or it
    blocks for ever (on a mutex that is never released). *)
Inductive outcome (A : Type) : Type :=
| Returns (a : A)
| Panics (p : panic_value)
| Blocks.
Arguments Returns {A} a.
Arguments Panics {A} p.
Arguments Blocks {A}.

(** ** The parts of Go's [strings] package that the adapter calls *)

Module GoStrings.

Definition code (c : ascii) : N := N_of_ascii c.

(** [asciiSpace] of strings.go: tab, newline, vertical tab, form feed,
    carriage return and space. *)
Definition asciiSpace (c : ascii) : bool :=
  let x := code c in
  ((9 <=? x) && (x <=? 13) || (x =? 32))%N.

(** The two-byte UTF-8 encodings of the white-space runes U+0085 and
    U+00A0. *)
Definition space2 (a b : ascii) : bool :=
  ((code a =? 194) && ((code b =? 133) || (code b =? 160)))%N.

(** The three-byte UTF-8 encodings of the white-space runes U+1680,
    U+2000..U+200A, U+2028, U+2029, U+202F, U+205F and U+3000. *)
Definition space3 (a b c : ascii) : bool :=
  let x := code a in let y := code b in let z := code c in
  ((x =? 225) && (y =? 154) && (z =? 128)
   || (x =? 226) && (y =? 128)
      && ((128 <=? z) && (z <=? 138) || (z =? 168) || (z =? 169) || (z =? 175))
   || (x =? 226) && (y =? 129) && (z =? 159)
   || (x =? 227) && (y =? 128) && (z =? 128))%N.

(** The rest of [s] after a leading rune for which [unicode.IsSpace]
    holds; [None] when [s] does not start with one (an invalid byte decodes
    to U+FFFD, which is not a space). *)
Definition space_prefix (s : string) : option string :=
  match s with
  | EmptyString => None
  | String a r1 =>
      if asciiSpace a then Some r1
      else match r1 with
           | EmptyString => None
           | String b r2 =>
               if space2 a b then Some r2
               else match r2 with
                    | EmptyString => None
                    | String c r3 => if space3 a b c then Some r3 else None
                    end
           end
  end.

(** The same test on the reversed string: the rest of [r] after a
    trailing white-space rune of the string that [r] reverses, as
    [utf8.DecodeLastRuneInString] finds it. *)
Definition space_suffix_rev (r : string) : option string :=
  match r with
  | EmptyString => None
  | String a r1 =>
      if asciiSpace a then Some r1
      else match r1 with
           | EmptyString => None
           | String b r2 =>
               if space2 b a then Some r2
               else match r2 with
                    | EmptyString => None
                    | String c r3 => if space3 c b a then Some r3 else None
                    end
           end
  end.

Fixpoint drop_while (next : string -> option string) (fuel : nat)
  (s : string) : string :=
  match fuel with
  | O => s
  | S fuel' =>
      match next s with
      | Some rest => drop_while next fuel' rest
      | None => s
      end
  end.

Definition TrimLeftSpace (s : string) : string :=
  drop_while space_prefix (String.length s) s.

Definition TrimRightSpace (s : string) : string :=
  String.rev (drop_while space_suffix_rev (String.length s) (String.rev s)).

(** [strings.TrimSpace]: leading and trailing white space removed. *)
Definition TrimSpace (s : string) : string :=
  TrimRightSpace (TrimLeftSpace s).

Fixpoint HasPrefix (s prefix : string) : bool :=
  match prefix, s with
  | EmptyString, _ => true
  | String p prefix', String c s' =>
      if Ascii.eqb p c then HasPrefix s' prefix' else false
  | String _ _, EmptyString => false
  end.

(** [strings.Contains]: [substr] occurs somewhere in [s]. *)
Fixpoint Contains (s substr : string) : bool :=
  HasPrefix s substr
  || match s with
     | EmptyString => false
     | String _ s' => Contains s' substr
     end.

(** The loop of [genSplit] for a separator that is not empty: [skip]
    counts the bytes of a separator just found that are still to be
    stepped over, [cur] holds the piece being read, reversed. *)
Fixpoint split_from (sep : string) (skip : nat) (cur : string)
  (s : string) : list string :=
  match s with
  | EmptyString => [String.rev cur]
  | String c s' =>
      match skip with
      | S k => split_from sep k cur s'
      | O =>
          if HasPrefix s sep
          then String.rev cur :: split_from sep (Nat.pred (String.length sep)) EmptyString s'
          else split_from sep O (String c cur) s'
      end
  end.

(** [strings.Split] for a separator that is not empty, which is how the
    adapter calls it. *)
Definition Split (s sep : string) : list string :=
  split_from sep O EmptyString s.

End GoStrings.

(** ** The ICE-server list built at the start of [Open] (lines 108-138) *)

Inductive ICECredentialType : Type :=
| ICECredentialTypePassword
| ICECredentialTypeOauth.

(** [webrtc.ICEServer]; the zero value of [Credential] is nil and the zero
    value of [CredentialType] is [ICECredentialTypePassword]. *)
Record ICEServer : Type := mkICEServer {
  URLs : list string;
  Username : string;
  Credential : option string;
  CredentialType : ICECredentialType
}.

(** What the loop over [a.ice] leaves: the list of servers, an error
    returned from [Open], or a panic. *)
Inductive ice_result : Type :=
| IceServers (l : list ICEServer)
| IceError (e : error)
| IcePanic (p : panic_value).

(** One round of the loop at lines 110-138: [None] is [continue], and
    [IceServers new] is what the round appends.  Indexing a slice out of its
    range is a run-time panic. *)
Definition Open_ice_entry (ice : string) : option ice_result :=
  if decide (GoStrings.TrimSpace ice = "") then None
  else if GoStrings.Contains ice "stun:" then
    Some (IceServers [mkICEServer [ice] "" None ICECredentialTypePassword])
  else
    let addrParts := GoStrings.Split ice "@" in
    if (length addrParts <? 2)%nat then Some (IceError ErrInvalidTURNServerAddr)
    else
      let authParts := GoStrings.Split (nth 0 addrParts "") ":" in
      (* line 127 tests addrParts again, as the source does *)
      if (length addrParts <? 2)%nat then Some (IceError ErrMissingTURNCredentials)
      else
        match addrParts !! 1, authParts !! 0, authParts !! 1 with
        | Some url, Some user, Some cred =>
            Some (IceServers [mkICEServer [url] user (Some cred) ICECredentialTypePassword])
        | None, _, _ => Some (IcePanic (PanicIndexOutOfRange 1 (length addrParts)))
        | _, None, _ => Some (IcePanic (PanicIndexOutOfRange 0 (length authParts)))
        | _, _, None => Some (IcePanic (PanicIndexOutOfRange 1 (length authParts)))
        end.

Fixpoint Open_iceServers (ice : list string) (iceServers : list ICEServer)
  : ice_result :=
  match ice with
  | [] => IceServers iceServers
  | entry :: rest =>
      match Open_ice_entry entry with
      | None => Open_iceServers rest iceServers
      | Some (IceServers new) => Open_iceServers rest (iceServers ++ new)%list
      | Some stop => stop
      end
  end.

(** ** The byte stream over a data channel (lines 865-908) *)

Record message : Type := mkMessage {
  data : list byte;
  err : option error
}.

(** [copy(p, data)]: the bytes of [p] after the copy and the count. *)
Definition copy (p src : list byte) : list byte * Z :=
  let n := Nat.min (length p) (length src) in
  ((take n src ++ drop n p)%list, Z.of_nat n).

(** [Read]: [msgs] lists the messages whose senders (the [OnMessage] and
    [OnClose] callbacks) wait on the unbuffered channel [d.msgs], oldest
    first.  [None] means that the receive blocks.  Otherwise the result is
    the buffer after the call, [n], [err], and the senders still waiting. *)
Definition Read (p : list byte) (msgs : list message)
  : option (list byte * Z * option error * list message) :=
  match msgs with
  | [] => None
  | msg :: waiting =>
      match err msg with
      | Some e => Some (p, (-1)%Z, Some e, waiting)
      | None => let '(p', n) := copy p (data msg) in Some (p', n, None, waiting)
      end
  end.

(** [Write]: [send] is what [d.dc.Send(p)] returns. *)
Definition Write (send : option error) (p : list byte) : Z * option error :=
  match send with
  | Some e => ((-1)%Z, Some e)
  | None => (Z.of_nat (length p), None)
  end.

(** The two callbacks that [newDataChannelReadWriteCloser] installs: what
    each of them sends on [d.msgs]. *)
Definition OnMessage_msg (d : list byte) : message := mkMessage d None.
Definition OnClose_msg : message := mkMessage [] (Some EOF).

(** ** Data model of the adapter (lines 26-60) *)

(** Objects of the libraries underneath (peer connections, data channels)
    and Go channels made by the adapter are named by handles. *)
Definition handle : Type := nat.

(** [*webrtc.DataChannel], with the label that [dc.Label()] returns. *)
Record DataChannel : Type := mkDataChannel {
  dc_handle : handle;
  dc_label : string
}.

Global Instance DataChannel_eq_dec : EqDecision DataChannel.
Proof. solve_decision. Defined.

(** [peer]: the registry's entry for one remote peer. *)
Record peer : Type := mkPeer {
  conn : handle;
  candidates : handle;
  channels : gmap string DataChannel;
  iid : string
}.

(** [Peer]: what [Accept] hands to the host; [Conn] wraps the data
    channel. *)
Record Peer : Type := mkPeerHandle {
  PeerID : string;
  ChannelID : string;
  Conn : DataChannel
}.

(** [AdapterConfig]; [Timeout] is a [time.Duration], in nanoseconds. *)
Record AdapterConfig : Type := mkAdapterConfig {
  Timeout : Z;
  Verbose : bool;
  ID : string;
  PrimaryChannelID : string
}.

Definition Second : Z := 1000000000%Z.

(** The fields of [Adapter] that are set once by [NewAdapter]; the fields
    that change afterwards are in [World] below. *)
Record Adapter : Type := mkAdapter {
  signaler : string;
  key : string;
  ice : list string;
  config : AdapterConfig
}.

(** [NewAdapter] (lines 62-96); [None] is a nil [config]. *)
Definition NewAdapter (signaler key : string) (ice : list string)
  (config : option AdapterConfig) : Adapter :=
  let config :=
    match config with
    | None => mkAdapterConfig (Second * 10)%Z false "" ""
    | Some c => c
    end in
  let config :=
    if decide (GoStrings.TrimSpace (PrimaryChannelID config) = "")
    then mkAdapterConfig (Timeout config) (Verbose config) (ID config) "primary"
    else config in
  mkAdapter signaler key ice config.

(** [Open] up to the start of its goroutine (lines 98-138): [parsed] is
    the error that [url.Parse(a.signaler)] returns, if any. *)
Definition Open_config (parsed : option error) (a : Adapter) : ice_result :=
  match parsed with
  | Some e => IceError e
  | None => Open_iceServers (ice a) []
  end.

(** Modelled from the spec: the envelopes of package
    internal/api/websocket, which is not among the sources; section 6 of the
    specification gives the four types and their fields. *)
Inductive envelope : Type :=
| Introduction (from : string)
| Offer (from to : string) (payload : string)
| Answer (from to : string) (payload : string)
| Candidate (from to : string) (payload : string).

(** What arrives on [inputs]: a frame that fails decryption or parsing, a
    frame of an unknown type, or an envelope. *)
Inductive inbound : Type :=
| Undecryptable
| Unparsable
| UnknownType
| Envelope (e : envelope).

(** A value carried by [a.lines]: a marshalled envelope, or the nil slice
    that a receive on the closed channel yields. *)
Inductive line : Type :=
| Marshalled (e : envelope)
| NilLine.

Global Instance envelope_eq_dec : EqDecision envelope.
Proof. solve_decision. Defined.

Global Instance line_eq_dec : EqDecision line.
Proof. solve_decision. Defined.

Global Instance Peer_eq_dec : EqDecision Peer.
Proof. solve_decision. Defined.

Inductive PeerConnectionState : Type :=
| PeerConnectionStateNew
| PeerConnectionStateConnecting
| PeerConnectionStateConnected
| PeerConnectionStateDisconnected
| PeerConnectionStateFailed
| PeerConnectionStateClosed.

(** Calls that leave the adapter: into the ICE engine, the signaling
    socket, the cipher and the JSON codec, and the hand-over of values to the
    host on [a.peerChan] and [ids]. *)
Inductive call : Type :=
| NewPeerConnection (c : handle)
| CreateDataChannel (c dc : handle) (label : string)
| CreateOffer (c : handle)
| CreateAnswer (c : handle)
| SetLocalDescription (c : handle)
| SetRemoteDescription (c : handle)
| AddICECandidate (c : handle) (candidate : string)
| ChannelClose (dc : handle)
| ConnClose (c : handle)
| UnmarshalSDP (payload : string)
| MarshalJSON
| Encrypt (l : line)
| Dial
| SocketClose
| SetReadDeadline
| SetWriteDeadline
| WriteText (l : line)
| WritePing
| SendPeer (p : Peer)
| SendID (id : string).

Global Instance call_eq_dec : EqDecision call.
Proof. solve_decision. Defined.

(** A call together with whether it returned without an error. *)
Record event : Type := Ev {
  ev_call : call;
  ev_ok : bool
}.

Global Instance event_eq_dec : EqDecision event.
Proof. solve_decision. Defined.

(** Where the goroutine started by [Open] stands. *)
Inductive phase : Type :=
| AtLoopTop
| InSession (id : string) (errs : handle)
| LoopReturned
| LoopBlocked.

(** The state that changes: the mutable fields of [Adapter], the Go
    channels and goroutines of the adapter, and the calls made so far
    (latest first). *)
Record World : Type := mkWorld {
  a_peers : gmap string peer;
  peerLock : bool;
  a_done : bool;
  ctx_cancelled : bool;
  lines_closed : bool;
  lines_senders : list line;
  closed_chans : gset handle;
  queue_senders : gmap handle (list string);
  drains : list (handle * handle * handle);
  errs_senders : list error;
  next_handle : handle;
  next_uuid : nat;
  a_phase : phase;
  crashed : option panic_value;
  trace : list event
}.

(** The state that [NewAdapter] leaves. *)
Definition new_world : World :=
  mkWorld ∅ false false false false [] ∅ ∅ [] [] 0 0 AtLoopTop None [].

Definition set_peers (f : gmap string peer -> gmap string peer) (w : World) : World :=
  mkWorld (f (a_peers w)) (peerLock w) (a_done w) (ctx_cancelled w) (lines_closed w)
    (lines_senders w) (closed_chans w) (queue_senders w) (drains w) (errs_senders w)
    (next_handle w) (next_uuid w) (a_phase w) (crashed w) (trace w).

Definition set_peerLock (b : bool) (w : World) : World :=
  mkWorld (a_peers w) b (a_done w) (ctx_cancelled w) (lines_closed w)
    (lines_senders w) (closed_chans w) (queue_senders w) (drains w) (errs_senders w)
    (next_handle w) (next_uuid w) (a_phase w) (crashed w) (trace w).

Definition set_closing (w : World) : World :=
  mkWorld (a_peers w) (peerLock w) true true (lines_closed w)
    (lines_senders w) (closed_chans w) (queue_senders w) (drains w) (errs_senders w)
    (next_handle w) (next_uuid w) (a_phase w) (crashed w) (trace w).

Definition set_lines (closed : bool) (senders : list line) (w : World) : World :=
  mkWorld (a_peers w) (peerLock w) (a_done w) (ctx_cancelled w) closed
    senders (closed_chans w) (queue_senders w) (drains w) (errs_senders w)
    (next_handle w) (next_uuid w) (a_phase w) (crashed w) (trace w).

Definition set_chans (closed : gset handle) (senders : gmap handle (list string))
  (w : World) : World :=
  mkWorld (a_peers w) (peerLock w) (a_done w) (ctx_cancelled w) (lines_closed w)
    (lines_senders w) closed senders (drains w) (errs_senders w)
    (next_handle w) (next_uuid w) (a_phase w) (crashed w) (trace w).

Definition set_drains (d : list (handle * handle * handle)) (w : World) : World :=
  mkWorld (a_peers w) (peerLock w) (a_done w) (ctx_cancelled w) (lines_closed w)
    (lines_senders w) (closed_chans w) (queue_senders w) d (errs_senders w)
    (next_handle w) (next_uuid w) (a_phase w) (crashed w) (trace w).

Definition set_errs_senders (e : list error) (w : World) : World :=
  mkWorld (a_peers w) (peerLock w) (a_done w) (ctx_cancelled w) (lines_closed w)
    (lines_senders w) (closed_chans w) (queue_senders w) (drains w) e
    (next_handle w) (next_uuid w) (a_phase w) (crashed w) (trace w).

Definition set_next_handle (n : handle) (w : World) : World :=
  mkWorld (a_peers w) (peerLock w) (a_done w) (ctx_cancelled w) (lines_closed w)
    (lines_senders w) (closed_chans w) (queue_senders w) (drains w) (errs_senders w)
    n (next_uuid w) (a_phase w) (crashed w) (trace w).

Definition set_next_uuid (n : nat) (w : World) : World :=
  mkWorld (a_peers w) (peerLock w) (a_done w) (ctx_cancelled w) (lines_closed w)
    (lines_senders w) (closed_chans w) (queue_senders w) (drains w) (errs_senders w)
    (next_handle w) n (a_phase w) (crashed w) (trace w).

Definition set_phase (p : phase) (w : World) : World :=
  mkWorld (a_peers w) (peerLock w) (a_done w) (ctx_cancelled w) (lines_closed w)
    (lines_senders w) (closed_chans w) (queue_senders w) (drains w) (errs_senders w)
    (next_handle w) (next_uuid w) p (crashed w) (trace w).

Definition set_crashed (p : panic_value) (w : World) : World :=
  mkWorld (a_peers w) (peerLock w) (a_done w) (ctx_cancelled w) (lines_closed w)
    (lines_senders w) (closed_chans w) (queue_senders w) (drains w) (errs_senders w)
    (next_handle w) (next_uuid w) (a_phase w) (Some p) (trace w).

Definition log (e : event) (w : World) : World :=
  mkWorld (a_peers w) (peerLock w) (a_done w) (ctx_cancelled w) (lines_closed w)
    (lines_senders w) (closed_chans w) (queue_senders w) (drains w) (errs_senders w)
    (next_handle w) (next_uuid w) (a_phase w) (crashed w) (e :: trace w).

(** ** Code that changes the world *)

Definition M (A : Type) : Type := World -> outcome A * World.

Definition ret {A} (x : A) : M A := fun w => (Returns x, w).

Definition bind {A B} (m : M A) (k : A -> M B) : M B :=
  fun w =>
    match m w with
    | (Returns x, w') => k x w'
    | (Panics p, w') => (Panics p, w')
    | (Blocks, w') => (Blocks, w')
    end.

Notation "'let*' x ':=' m 'in' k" := (bind m (fun x => k))
  (at level 10, x name, m at level 100, k at level 200).
Notation "m '>>>' k" := (bind m (fun _ => k))
  (at level 90, right associativity).

Definition panic {A} (p : panic_value) : M A := fun w => (Panics p, w).

Definition get : M World := fun w => (Returns w, w).

Definition modify (f : World -> World) : M unit := fun w => (Returns tt, f w).

(** [defer d] in front of [m]: [d] runs when [m] returns and when [m]
    panics; a panic of [d] takes the place of the one of [m]. *)
Definition deferred {A} (m : M A) (d : M unit) : M A :=
  fun w =>
    match m w with
    | (Blocks, w') => (Blocks, w')
    | (r, w') =>
        match d w' with
        | (Returns _, w'') => (r, w'')
        | (Panics p, w'') => (Panics p, w'')
        | (Blocks, w'') => (Blocks, w'')
        end
    end.

(** [a.peerLock.Lock()] and [a.peerLock.Unlock()]. *)
Definition Lock : M unit :=
  fun w => if peerLock w then (Blocks, w) else (Returns tt, set_peerLock true w).

Definition Unlock : M unit := modify (set_peerLock false).

Definition fresh_handle : M handle :=
  fun w => (Returns (next_handle w), set_next_handle (S (next_handle w)) w).

(** A value handed to the host on an unbuffered channel of the adapter
    ([ids <- id], [a.peerChan <- ...]).  The send waits for the host to
    receive; the host is taken to be receiving, so that the send is an event
    of the trace and the code goes on.  What the code holds while it waits
    (the open callback holds the lock) it holds for as long as the host does
    not receive. *)
Definition hand_over (c : call) : M unit := modify (log (Ev c true)).

(** [close(ch)] for a candidates channel: closing a closed channel panics;
    the senders that wait on it panic in their goroutines, where lines
    730-736 recover. *)
Definition close_chan (q : handle) : M unit :=
  fun w =>
    if decide (q ∈ closed_chans w) then (Panics PanicCloseOfClosedChannel, w)
    else (Returns tt, set_chans ({[q]} ∪ closed_chans w) (delete q (queue_senders w)) w).

(** [go func() { a.lines <- p }()]: the goroutine waits as a sender; on a
    closed channel it panics, and nothing recovers. *)
Definition go_send_line (l : line) : M unit :=
  fun w =>
    if lines_closed w then (Returns tt, set_crashed PanicSendOnClosedChannel w)
    else (Returns tt, set_lines false (lines_senders w ++ [l]) w).

(** [go func() { defer recover...; c.candidates <- candidate }()]
    (lines 729-739). *)
Definition go_send_candidate (q : handle) (candidate : string) : M unit :=
  fun w =>
    if decide (q ∈ closed_chans w) then (Returns tt, w)
    else (Returns tt,
          set_chans (closed_chans w)
            (<[q := (default [] (queue_senders w !! q) ++ [candidate])%list]> (queue_senders w)) w).

(** [go func() { for candidate := range q { c.AddICECandidate ... } }()]
    (lines 673-685 and 789-801); [errs] is the channel of the session that
    starts the goroutine. *)
Definition go_drain (q c errs : handle) : M unit :=
  modify (fun w => set_drains ((q, c, errs) :: drains w) w).

(** What can happen next: a case of the session loop's [select], the top
    of the outer loop, a step of a drain goroutine, a callback of the ICE
    engine, or the host calling [Close].  A callback label says that the
    engine runs the callback that the adapter registered; whether and when
    it does is the engine's business ([ChannelClosed] is the callback of
    lines 383, 432 and 609, which the engine runs for a channel for as long
    as no other close callback has been registered on it). *)
Inductive label : Type :=
| LoopTop
| RecvInput (input : inbound)
| RecvReadError (e : error)
| RecvErrs
| RecvLine
| Tick
| DrainStep (q c errs : handle)
| ConnectionStateChange (offer_side : bool) (from iid0 : string) (pcs : PeerConnectionState)
| ICECandidateFound (id from candidate : string)
| ChannelOpened (from : string) (dc : DataChannel)
| ChannelClosed (from : string) (dc : DataChannel)
| HostClose.

Fixpoint remove_first {A} `{EqDecision A} (x : A) (l : list A) : list A :=
  match l with
  | [] => []
  | y :: l' => if decide (x = y) then l' else y :: remove_first x l'
  end.

Section Session.

(** What a call into a library returns, given the calls made so far. *)
Variable lib : list event -> call -> option error.

(** The identifiers that [uuid.New] draws, in order. *)
Variable uuid : nat -> string.

(** The marshalled session description that [CreateOffer] or
    [CreateAnswer] yields on a connection. *)
Variable description : handle -> string.

Variable a : Adapter.

Definition lib_call (c : call) : M (option error) :=
  fun w =>
    let r := lib (trace w) c in
    (Returns r, log (Ev c (match r with None => true | Some _ => false end)) w).

(** [if err := f(); err != nil { panic(err) }]. *)
Definition must (c : call) : M unit :=
  let* r := lib_call c in
  match r with
  | Some e => panic (PanicErr e)
  | None => ret tt
  end.

Definition NewString : M string :=
  fun w => (Returns (uuid (next_uuid w)), set_next_uuid (S (next_uuid w)) w).

(** *** Teardown of a registry entry *)

(** [for _, channel := range p.channels { channel.Close() -> panic }];
    Go leaves the order of a range over a map open. *)
Fixpoint close_channels (l : list (string * DataChannel)) : M unit :=
  match l with
  | [] => ret tt
  | (_, channel) :: rest =>
      must (ChannelClose (dc_handle channel)) >>> close_channels rest
  end.

(** The teardown written out at lines 186-196, 334-344 and 483-493. *)
Definition teardown (p : peer) : M unit :=
  close_channels (map_to_list (channels p)) >>>
  must (ConnClose (conn p)) >>>
  close_chan (candidates p).

(** The teardown at lines 562-570: the connection is closed twice and
    the channels are not ranged over. *)
Definition teardown_offer_side (p : peer) : M unit :=
  must (ConnClose (conn p)) >>>
  must (ConnClose (conn p)) >>>
  close_chan (candidates p).

(** *** Callbacks of the ICE engine *)

(** [OnConnectionStateChange], installed by the introduction handler
    (lines 307-348); [from] and [iid0] are captured by the closure. *)
Definition OnConnectionStateChange_introduction (from iid0 : string)
  (pcs : PeerConnectionState) : M unit :=
  match pcs with
  | PeerConnectionStateDisconnected =>
      Lock >>>
      deferred
        (let* w := get in
         match a_peers w !! from with
         | None => ret tt
         | Some c =>
             if decide (iid c = iid0) then
               teardown c >>> modify (set_peers (delete from))
             else ret tt
         end)
        Unlock
  | _ => ret tt
  end.

(** [OnConnectionStateChange], installed by the offer handler
    (lines 536-574). *)
Definition OnConnectionStateChange_offer (from iid0 : string)
  (pcs : PeerConnectionState) : M unit :=
  match pcs with
  | PeerConnectionStateDisconnected =>
      Lock >>>
      deferred
        (let* w := get in
         match a_peers w !! from with
         | None => ret tt
         | Some c =>
             if decide (iid c = iid0) then
               teardown_offer_side c >>> modify (set_peers (delete from))
             else ret tt
         end)
        Unlock
  | _ => ret tt
  end.

(** [OnICECandidate] with an argument that is not nil (lines 350-369 and
    576-595). *)
Definition OnICECandidate (id from candidate : string) : M unit :=
  must MarshalJSON >>>
  go_send_line (Marshalled (Candidate id from candidate)).

Definition set_channel (label : string) (dc : DataChannel) (p : peer) : peer :=
  mkPeer (conn p) (candidates p) (<[label := dc]> (channels p)) (iid p).

Definition delete_channel (label : string) (p : peer) : peer :=
  mkPeer (conn p) (candidates p) (delete label (channels p)) (iid p).

(** [dc.OnOpen] (lines 372-381, 421-430 and 598-607); [a.peers[from]] is
    nil when the entry is gone.  The [Conn] of the [Peer] is made by
    [newDataChannelReadWriteCloser(dc)], which registers the message and
    close callbacks of the byte stream on [dc] (lines 880-886); those run
    outside the adapter's state and are [OnMessage_msg] and [OnClose_msg]
    above. *)
Definition OnOpen (from : string) (dc : DataChannel) : M unit :=
  Lock >>>
  let* w := get in
  match a_peers w !! from with
  | None => panic PanicNilDereference
  | Some p =>
      modify (set_peers (<[from := set_channel (dc_label dc) dc p]>)) >>>
      hand_over (SendPeer (mkPeerHandle from (dc_label dc) dc)) >>>
      Unlock
  end.

(** [dc.OnClose] (lines 383-405, 432-454 and 609-631). *)
Definition OnClose (from : string) (dc : DataChannel) : M unit :=
  Lock >>>
  deferred
    (let* w := get in
     match a_peers w !! from with
     | None => panic PanicNilDereference
     | Some p =>
         match channels p !! dc_label dc with
         | None => ret tt
         | Some channel =>
             must (ChannelClose (dc_handle channel)) >>>
             modify (set_peers (<[from := delete_channel (dc_label dc) p]>))
         end
     end)
    Unlock.

(** *** The cases of the session loop's [select] (lines 256-843) *)

Definition primary_channel (dc : handle) : DataChannel :=
  mkDataChannel dc (PrimaryChannelID (config a)).

(** An introduction (lines 284-504); [id] is the identity of this
    session. *)
Definition handle_introduction (id from : string) : M unit :=
  let* iid0 := NewString in
  let* c := fresh_handle in
  must (NewPeerConnection c) >>>
  let* dch := fresh_handle in
  must (CreateDataChannel c dch (PrimaryChannelID (config a))) >>>
  let dc := primary_channel dch in
  let* q := fresh_handle in
  let pr := mkPeer c q {[dc_label dc := dc]} iid0 in
  must (CreateOffer c) >>>
  must (SetLocalDescription c) >>>
  must MarshalJSON >>>
  must MarshalJSON >>>
  Lock >>>
  (let* w := get in
   match a_peers w !! from with
   | Some old => teardown old
   | None => ret tt
   end) >>>
  modify (set_peers (<[from := pr]>)) >>>
  Unlock >>>
  go_send_line (Marshalled (Offer id from (description c))).

(** An offer (lines 505-693); [errs] is the session's error channel,
    which the drain goroutine keeps. *)
Definition handle_offer (id : string) (errs : handle)
  (from to payload : string) : M unit :=
  if decide (to = id) then
    let* iid0 := NewString in
    let* c := fresh_handle in
    must (NewPeerConnection c) >>>
    let* bad := lib_call (UnmarshalSDP payload) in
    match bad with
    | Some _ => ret tt
    | None =>
        must (SetRemoteDescription c) >>>
        must (CreateAnswer c) >>>
        must (SetLocalDescription c) >>>
        must MarshalJSON >>>
        must MarshalJSON >>>
        Lock >>>
        let* candidates := fresh_handle in
        modify (set_peers (<[from := mkPeer c candidates ∅ iid0]>)) >>>
        Unlock >>>
        go_drain candidates c errs >>>
        go_send_line (Marshalled (Answer id from (description c)))
    end
  else ret tt.

(** A candidate (lines 694-741). *)
Definition handle_candidate (id from to payload : string) : M unit :=
  if decide (to = id) then
    Lock >>>
    let* w := get in
    match a_peers w !! from with
    | None => Unlock
    | Some c => go_send_candidate (candidates c) payload >>> Unlock
    end
  else ret tt.

(** An answer (lines 742-805). *)
Definition handle_answer (id : string) (errs : handle)
  (from to payload : string) : M unit :=
  if decide (to = id) then
    Lock >>>
    let* w := get in
    Unlock >>>
    match a_peers w !! from with
    | None => ret tt
    | Some c =>
        let* bad := lib_call (UnmarshalSDP payload) in
        match bad with
        | Some _ => ret tt
        | None =>
            must (SetRemoteDescription (conn c)) >>>
            go_drain (candidates c) (conn c) errs
        end
    end
  else ret tt.

(** [case input := <-inputs] (lines 260-812). *)
Definition case_input (id : string) (errs : handle) (input : inbound) : M unit :=
  match input with
  | Undecryptable | Unparsable | UnknownType => ret tt
  | Envelope (Introduction from) => handle_introduction id from
  | Envelope (Offer from to payload) => handle_offer id errs from to payload
  | Envelope (Candidate from to payload) => handle_candidate id from to payload
  | Envelope (Answer from to payload) => handle_answer id errs from to payload
  end.

(** [case err := <-errs] (lines 258-259). *)
Definition case_errs (e : error) : M unit := panic (PanicErr e).

(** The receive of [case line := <-a.lines]: the value of the sender
    that waits longest; on the closed channel, at once, the zero value.
    [None]: the case is not ready. *)
Definition receive_line (w : World) : option (line * World) :=
  match lines_senders w with
  | l :: waiting => Some (l, set_lines (lines_closed w) waiting w)
  | [] => if lines_closed w then Some (NilLine, w) else None
  end.

(** The body of [case line := <-a.lines] (lines 813-829). *)
Definition case_line (l : line) : M unit :=
  must (Encrypt l) >>>
  must (WriteText l) >>>
  must SetWriteDeadline.

(** [case <-pings.C] (lines 830-841). *)
Definition case_ping : M unit :=
  must SetWriteDeadline >>>
  must WritePing.

(** *** Start and end of a session (lines 146-254) *)

(** [DialContext] fails on a context that is cancelled. *)
Definition dial : M unit :=
  let* w := get in
  if ctx_cancelled w then
    modify (log (Ev Dial false)) >>> panic (PanicErr (ErrLib "context canceled"))
  else must Dial.

(** Lines 200-251, after the dial: the identity of the session and its
    error channel. *)
Definition session_setup : M (string * handle) :=
  must SetReadDeadline >>>
  let* errs := fresh_handle in
  let* id :=
    (if decide (GoStrings.TrimSpace (ID (config a)) = "") then NewString
     else ret (ID (config a))) in
  hand_over (SendID id) >>>
  let* bad := lib_call MarshalJSON in
  match bad with
  | Some e => modify (fun w => set_errs_senders (errs_senders w ++ [e]) w)
  | None => go_send_line (Marshalled (Introduction id))
  end >>>
  ret (id, errs).

Fixpoint teardown_all (l : list (string * peer)) : M unit :=
  match l with
  | [] => ret tt
  | (_, p) :: rest => teardown p >>> teardown_all rest
  end.

(** The deferred function of lines 173-198. *)
Definition session_exit : M unit :=
  must SocketClose >>>
  Lock >>>
  deferred (let* w := get in teardown_all (map_to_list (a_peers w))) Unlock.

(** The deferred function of lines 147-163, which also recovers. *)
Definition loop_defer : M unit :=
  Lock >>>
  modify (set_peers (fun _ => ∅)) >>>
  Unlock.

(** *** [Close] (lines 851-859) *)

(** [a.done = true; a.cancel(); close(a.lines); return nil].  Senders
    that wait on [a.lines] panic in their goroutines when it is closed. *)
Definition Close : M (option error) :=
  modify set_closing >>>
  let* w := get in
  if lines_closed w then panic PanicCloseOfClosedChannel
  else
    modify (fun w =>
              match lines_senders w with
              | [] => set_lines true [] w
              | _ :: _ => set_crashed PanicSendOnClosedChannel (set_lines true [] w)
              end) >>>
    ret None.

(** *** The adapter as a transition system *)

(** The deferred functions run when the session function unwinds, the
    inner one only if the dial succeeded; the outer one recovers, sleeps,
    and the outer loop goes round.  The senders of the ended session wait
    on a channel that nobody reads any more.  The two functions are one
    step here: no callback runs between the [Unlock] of the inner one and
    the [Lock] of the outer one, where the source has the entries of the
    ended session, torn down, still in the registry. *)
Definition unwind (dialed : bool) (w : World) : World :=
  let '(r1, w1) := (if dialed then session_exit else ret tt) w in
  match r1 with
  | Blocks => set_phase LoopBlocked w1
  | _ =>
      match loop_defer w1 with
      | (Blocks, w2) => set_phase LoopBlocked w2
      | (_, w2) => set_phase AtLoopTop (set_errs_senders [] w2)
      end
  end.

(** A case of the [select], run by the goroutine of [Open]. *)
Definition in_loop (m : M unit) (w : World) : World :=
  match m w with
  | (Returns _, w') => w'
  | (Panics _, w') => unwind true w'
  | (Blocks, w') => set_phase LoopBlocked w'
  end.

(** A callback or a call by the host: nothing recovers a panic. *)
Definition in_callback {A} (m : M A) (w : World) : World :=
  match m w with
  | (Returns _, w') => w'
  | (Panics p, w') => set_crashed p w'
  | (Blocks, w') => w'
  end.

(** One round of the outer loop up to the [select] (lines 141-254). *)
Definition loop_top (w : World) : World :=
  if a_done w then set_phase LoopReturned w
  else
    match dial w with
    | (Returns _, w1) =>
        match session_setup w1 with
        | (Returns (id, errs), w2) => set_phase (InSession id errs) w2
        | (Panics _, w2) => unwind true w2
        | (Blocks, w2) => set_phase LoopBlocked w2
        end
    | (_, w1) => unwind false w1
    end.

(** The reader goroutine hands its error to the loop and closes [errs]
    (lines 213-229); senders that wait on [errs] panic. *)
Definition reader_fails (errs : handle) (e : error) (w : World) : World :=
  let w1 := set_chans ({[errs]} ∪ closed_chans w) (queue_senders w) w in
  match errs_senders w with
  | [] => in_loop (case_errs e) w1
  | _ :: _ => set_crashed PanicSendOnClosedChannel w1
  end.

(** One round of a drain goroutine: the range ends on a closed channel;
    a candidate that waits is received and added; on an error the
    goroutine sends it to [errs] and returns. *)
Definition drain_step (q c errs : handle) (w : World) : World :=
  if decide ((q, c, errs) ∈ drains w) then
    if decide (q ∈ closed_chans w) then
      set_drains (remove_first (q, c, errs) (drains w)) w
    else
      match queue_senders w !! q with
      | Some (candidate :: waiting) =>
          let w1 := set_chans (closed_chans w) (<[q := waiting]> (queue_senders w)) w in
          match lib_call (AddICECandidate c candidate) w1 with
          | (Returns (Some e), w2) =>
              let w3 := set_drains (remove_first (q, c, errs) (drains w2)) w2 in
              if decide (errs ∈ closed_chans w3) then
                set_crashed PanicSendOnClosedChannel w3
              else
                match a_phase w3 with
                | InSession _ errs' =>
                    if decide (errs' = errs)
                    then set_errs_senders (errs_senders w3 ++ [e]) w3
                    else w3
                | _ => w3
                end
          | (_, w2) => w2
          end
      | _ => w
      end
  else w.

Definition step (l : label) (w : World) : World :=
  match crashed w with
  | Some _ => w
  | None =>
      match l, a_phase w with
      | LoopTop, AtLoopTop => loop_top w
      | RecvInput input, InSession id errs => in_loop (case_input id errs input) w
      | RecvReadError e, InSession id errs => reader_fails errs e w
      | RecvErrs, InSession id errs =>
          match errs_senders w with
          | e :: waiting => in_loop (case_errs e) (set_errs_senders waiting w)
          | [] => w
          end
      | RecvLine, InSession id errs =>
          match receive_line w with
          | Some (l, w1) => in_loop (case_line l) w1
          | None => w
          end
      | Tick, InSession id errs => in_loop case_ping w
      | DrainStep q c errs, _ => drain_step q c errs w
      | ConnectionStateChange false from iid0 pcs, _ =>
          in_callback (OnConnectionStateChange_introduction from iid0 pcs) w
      | ConnectionStateChange true from iid0 pcs, _ =>
          in_callback (OnConnectionStateChange_offer from iid0 pcs) w
      | ICECandidateFound id from candidate, _ =>
          in_callback (OnICECandidate id from candidate) w
      | ChannelOpened from dc, _ => in_callback (OnOpen from dc) w
      | ChannelClosed from dc, _ => in_callback (OnClose from dc) w
      | HostClose, _ => in_callback Close w
      | _, _ => w
      end
  end.

Definition run (ls : list label) (w : World) : World :=
  foldl (fun w l => step l w) w ls.

End Session.

(** ** Vocabulary of the properties *)

(** Several calls logged at once, latest first. *)
Definition logs (evs : list event) (w : World) : World :=
  mkWorld (a_peers w) (peerLock w) (a_done w) (ctx_cancelled w) (lines_closed w)
    (lines_senders w) (closed_chans w) (queue_senders w) (drains w) (errs_senders w)
    (next_handle w) (next_uuid w) (a_phase w) (crashed w) (evs ++ trace w).

(** A registry entry is torn down in a world: every channel of its map
    and its connection have been closed by calls that returned no error, and
    its candidates channel is closed. *)
Definition torn_down (p : peer) (w : World) : Prop :=
  (forall label dc, channels p !! label = Some dc ->
                    Ev (ChannelClose (dc_handle dc)) true ∈ trace w)
  /\ Ev (ConnClose (conn p)) true ∈ trace w
  /\ candidates p ∈ closed_chans w.

Definition is_close (c : call) : bool :=
  match c with
  | ChannelClose _ | ConnClose _ | SocketClose => true
  | _ => false
  end.

(** The calls that the handlers and callbacks of adapter [a] make, the
    drain goroutines and the dial apart: any call but the dial and the adding
    of a remote candidate, a data channel being created under the label of
    the adapter's configuration. *)
Definition quiet (a : Adapter) (c : call) : bool :=
  match c with
  | Dial | AddICECandidate _ _ => false
  | CreateDataChannel _ _ label => bool_decide (label = PrimaryChannelID (config a))
  | _ => true
  end.

(** Every data channel created in a trace carries the label of the
    adapter's configuration. *)
Definition labelled (a : Adapter) (e : event) : Prop :=
  match ev_call e with
  | CreateDataChannel _ _ label => label = PrimaryChannelID (config a)
  | _ => True
  end.

(** In a trace (latest call first), every [AddICECandidate] on a
    connection comes after a [SetRemoteDescription] on that connection that
    returned no error. *)
Fixpoint remote_set_before_add (tr : list event) : Prop :=
  match tr with
  | [] => True
  | e :: earlier =>
      match ev_call e with
      | AddICECandidate c _ => Ev (SetRemoteDescription c) true ∈ earlier
      | _ => True
      end
      /\ remote_set_before_add earlier
  end.

(** The number of dials in a trace. *)
Definition dials (tr : list event) : nat :=
  length (filter (fun e => ev_call e = Dial) tr).

(** Pre- and postconditions: from a world in [P], code that returns [x]
    leaves a world in [Q x]; code that panics or blocks leaves one in [E]. *)
Definition hoare {A} (P : World -> Prop) (m : M A)
  (Q : A -> World -> Prop) (E : World -> Prop) : Prop :=
  forall w, P w ->
    match m w with
    | (Returns x, w') => Q x w'
    | (_, w') => E w'
    end.

(** What a world keeps across code that only makes calls: the earlier
    calls stay in the trace; the closed channels, the registry and the lock
    are as before. *)
Definition only_calls (w w' : World) : Prop :=
  (forall e, e ∈ trace w -> e ∈ trace w')
  /\ closed_chans w' = closed_chans w
  /\ a_peers w' = a_peers w
  /\ peerLock w' = peerLock w.

(** The invariant behind the order of remote descriptions and
    candidates: the trace is in order, and every drain goroutine works on a
    connection whose remote description is set. *)
Definition drains_after_remote (w : World) : Prop :=
  remote_set_before_add (trace w)
  /\ forall q c errs, (q, c, errs) ∈ drains w ->
                      Ev (SetRemoteDescription c) true ∈ trace w.

(** [done] is set and the trace holds [n] dials. *)
Definition closed_with_dials (n : nat) (w : World) : Prop :=
  a_done w = true /\ dials (trace w) = n.

(** ** Concrete surroundings for the examples *)

Definition never_fails : list event -> call -> option error := fun _ _ => None.

Definition nth_uuid (n : nat) : string := String (ascii_of_nat (48 + n)) "".

Definition sdp_of (c : handle) : string := "sdp".

Definition example_adapter : Adapter :=
  NewAdapter "wss://signaler.example/?community=c" "key" [] None.

(** The adapter has joined as ["0"] and peer ["B"] has introduced itself:
    connection 1, primary data channel 2, candidates channel 3, instance
    token ["1"]. *)
Definition joined_and_introduced : list label :=
  [LoopTop; RecvInput (Envelope (Introduction "B"))].

Definition primary_of_B : DataChannel := mkDataChannel 2 "primary".

Definition entry_of_B : peer :=
  mkPeer 1 3 {["primary" := primary_of_B]} "1".

Definition world_with_B : World :=
  run never_fails nth_uuid sdp_of example_adapter joined_and_introduced new_world.

(** A library in which closing a data channel fails and nothing else
    does. *)
Definition channel_close_fails : list event -> call -> option error :=
  fun _ c =>
    match c with
    | ChannelClose _ => Some (ErrLib "channel close failed")
    | _ => None
    end.

(** ** Vocabulary of the further properties *)

(** The descriptor that a STUN entry yields, and the one that a TURN
    entry yields. *)
Definition stun_server (entry : string) : ICEServer :=
  mkICEServer [entry] "" None ICECredentialTypePassword.

Definition turn_server (url user credential : string) : ICEServer :=
  mkICEServer [url] user (Some credential) ICECredentialTypePassword.

(** A TURN entry as the loop of [Open] expects it. *)
Definition turn_entry (user credential url : string) : string :=
  user ++ ":" ++ credential ++ "@" ++ url.

(** What the session loop drops without acting on it: frames that do not
    decrypt or parse, frames of an unknown type, and offers, answers and
    candidates addressed to another client. *)
Definition dropped (id : string) (input : inbound) : bool :=
  match input with
  | Undecryptable | Unparsable | UnknownType => true
  | Envelope (Introduction _) => false
  | Envelope (Offer _ to _) | Envelope (Answer _ to _) | Envelope (Candidate _ to _) =>
      negb (String.eqb to id)
  end.

(** The adapter of [world_with_B] after the connection to ["B"] was
    reported disconnected and the entry of ["B"] was taken out. *)
Definition world_without_B : World :=
  step never_fails nth_uuid sdp_of example_adapter
    (ConnectionStateChange false "B" "1" PeerConnectionStateDisconnected) world_with_B.

(** The adapter has joined as ["0"] and peer ["B"] has sent it an offer:
    connection 1, candidates channel 2, instance token ["1"], no data
    channel yet. *)
Definition offered_entry_of_B : peer := mkPeer 1 2 ∅ "1".

Definition world_offered_by_B : World :=
  run never_fails nth_uuid sdp_of example_adapter
    [LoopTop; RecvInput (Envelope (Offer "B" "0" "offer"))] new_world.

(** The adapter of [world_with_B] after its two waiting lines were sent
    and the host has called [Close]. *)
Definition world_closed : World :=
  run never_fails nth_uuid sdp_of example_adapter [RecvLine; RecvLine; HostClose]
    world_with_B.

(** Libraries in which one call fails and nothing else does: the close of
    a peer connection, the dial, the writing of the keepalive ping. *)
Definition conn_close_fails : list event -> call -> option error :=
  fun _ c =>
    match c with
    | ConnClose _ => Some (ErrLib "connection close failed")
    | _ => None
    end.

Definition dial_fails : list event -> call -> option error :=
  fun _ c =>
    match c with
    | Dial => Some (ErrLib "dial failed")
    | _ => None
    end.

Definition ping_fails : list event -> call -> option error :=
  fun _ c =>
    match c with
    | WritePing => Some (ErrLib "write failed")
    | _ => None
    end.

(** The registry is sound, in terms of the registry [peers], the set
    [closed] of closed Go channels, the next handle [next] and the phase of
    the loop: closed channels and the candidates channels of the entries are
    channels that were made; the candidates channel of an entry is open; two
    entries do not share a candidates channel; the error channel of the
    running session is a channel that was made and is no entry's candidates
    channel; and outside a session the registry is empty. *)
Definition registry_sound_of (peers : gmap string peer) (closed : gset handle)
  (next : handle) (ph : phase) : Prop :=
  (forall q, q ∈ closed -> q < next)
  /\ (forall from p, peers !! from = Some p ->
                     candidates p < next /\ candidates p ∉ closed)
  /\ (forall from1 from2 p1 p2,
         peers !! from1 = Some p1 -> peers !! from2 = Some p2 ->
         candidates p1 = candidates p2 -> from1 = from2)
  /\ (forall id errs, ph = InSession id errs ->
                      errs < next
                      /\ forall from p, peers !! from = Some p -> candidates p <> errs)
  /\ (ph = AtLoopTop \/ ph = LoopReturned -> peers = ∅).

Definition registry_sound (w : World) : Prop :=
  registry_sound_of (a_peers w) (closed_chans w) (next_handle w) (a_phase w).

(** Code that leaves the registry, the closed channels and the phase as
    they are and only makes new handles. *)
Definition grows (w w' : World) : Prop :=
  a_peers w' = a_peers w
  /\ closed_chans w' = closed_chans w
  /\ a_phase w' = a_phase w
  /\ next_handle w <= next_handle w'.

Definition keeps_registry {A} (m : M A) : Prop :=
  forall w, grows w (snd (m w)).

(** The discipline of [a.peerLock] in a piece of code: started with the
    lock [before], the code does not block, and when it returns the lock is
    [after]. *)
Definition locks {A} (before after : bool) (m : M A) : Prop :=
  forall w, peerLock w = before ->
    match m w with
    | (Returns _, w') => peerLock w' = after
    | (Panics _, _) => True
    | (Blocks, _) => False
    end.

(** * Properties *)

(** ** The string functions on small inputs *)

Example TrimSpace_inner_space_kept : GoStrings.TrimSpace "  a b	 " = "a b".
Proof. reflexivity. Qed.

Example Split_at_sign : GoStrings.Split "user:pw@turn:host:3478" "@" = ["user:pw"; "turn:host:3478"].
Proof. reflexivity. Qed.

Example Split_empty_pieces : GoStrings.Split "a@@b@" "@" = ["a"; ""; "b"; ""].
Proof. reflexivity. Qed.

Example Split_of_empty : GoStrings.Split "" "@" = [""].
Proof. reflexivity. Qed.

Example Contains_inside : GoStrings.Contains "xstun:y" "stun:" = true.
Proof. reflexivity. Qed.

(** ** The ICE-server list *)

Lemma split_from_nonempty sep s : forall skip cur,
  (1 <= length (GoStrings.split_from sep skip cur s))%nat.
Proof.
  induction s as [|c s IH]; intros skip cur; cbn [GoStrings.split_from].
  - cbn [length]. lia.
  - destruct skip as [|k]; [|apply IH].
    destruct (GoStrings.HasPrefix (String c s) sep); [cbn [length]; lia | apply IH].
Qed.

(** [Split] never returns an empty slice, so index 0 is always there. *)
Lemma Split_nonempty s sep : (1 <= length (GoStrings.Split s sep))%nat.
Proof. apply split_from_nonempty. Qed.

(** An entry that is neither blank nor STUN and has no [@]: the error of
    line 123. *)
Lemma Open_ice_entry_invalid_addr (entry : string) :
  GoStrings.TrimSpace entry <> "" ->
  GoStrings.Contains entry "stun:" = false ->
  (length (GoStrings.Split entry "@") < 2)%nat ->
  Open_ice_entry entry = Some (IceError ErrInvalidTURNServerAddr).
Proof.
  intros Hblank Hstun Hparts. unfold Open_ice_entry.
  destruct (decide (GoStrings.TrimSpace entry = "")) as [?|_]; [done|].
  rewrite Hstun.
  destruct (Nat.ltb_spec (length (GoStrings.Split entry "@")) 2); [done | lia].
Qed.

(** An entry with both parts: the TURN descriptor of lines 131-136. *)
Lemma Open_ice_entry_turn (entry url user cred : string) :
  GoStrings.TrimSpace entry <> "" ->
  GoStrings.Contains entry "stun:" = false ->
  GoStrings.Split entry "@" !! 1 = Some url ->
  GoStrings.Split (nth 0 (GoStrings.Split entry "@") "") ":" !! 0 = Some user ->
  GoStrings.Split (nth 0 (GoStrings.Split entry "@") "") ":" !! 1 = Some cred ->
  Open_ice_entry entry
  = Some (IceServers [mkICEServer [url] user (Some cred) ICECredentialTypePassword]).
Proof.
  intros Hblank Hstun Hurl Huser Hcred. unfold Open_ice_entry.
  destruct (decide (GoStrings.TrimSpace entry = "")) as [?|_]; [done|].
  rewrite Hstun.
  assert (2 <= length (GoStrings.Split entry "@"))%nat as Hlen.
  { apply lookup_lt_Some in Hurl. lia. }
  destruct (Nat.ltb_spec (length (GoStrings.Split entry "@")) 2); [lia|].
  by rewrite Hurl, Huser, Hcred.
Qed.

(** An entry with an [@] whose first part has no colon: line 127 looks at
    [addrParts] where [authParts] is meant, so the test never fires and
    [authParts[1]] at line 134 is out of range. *)
Lemma Open_ice_entry_no_colon_panics (entry : string) :
  GoStrings.TrimSpace entry <> "" ->
  GoStrings.Contains entry "stun:" = false ->
  (2 <= length (GoStrings.Split entry "@"))%nat ->
  length (GoStrings.Split (nth 0 (GoStrings.Split entry "@") "") ":") = 1%nat ->
  Open_ice_entry entry = Some (IcePanic (PanicIndexOutOfRange 1 1)).
Proof.
  intros Hblank Hstun Hparts Hauth. unfold Open_ice_entry.
  destruct (decide (GoStrings.TrimSpace entry = "")) as [?|_]; [done|].
  rewrite Hstun.
  destruct (Nat.ltb_spec (length (GoStrings.Split entry "@")) 2); [lia|].
  destruct (GoStrings.Split entry "@" !! 1) as [url|] eqn:Hurl.
  2:{ apply lookup_ge_None in Hurl. lia. }
  destruct (GoStrings.Split (nth 0 (GoStrings.Split entry "@") "") ":")
    as [|user [|? ?]] eqn:Hsplit; simpl in Hauth; try lia.
  reflexivity.
Qed.

(** C4, at the input ["user@turn.example.com:3478"]: the entry has an [@]
    but no colon before it; the specification promises the error
    [ErrMissingTURNCredentials] and no panic, [Open] panics with an index out
    of range in its loop over the ICE entries. *)
Theorem Open_missing_credentials_panics :
  let a := NewAdapter "wss://signaler.example/?community=c" "key"
             ["user@turn.example.com:3478"] None in
  GoStrings.TrimSpace "user@turn.example.com:3478" <> ""
  /\ GoStrings.Contains "user@turn.example.com:3478" "stun:" = false
  /\ GoStrings.Split "user@turn.example.com:3478" "@" = ["user"; "turn.example.com:3478"]
  /\ GoStrings.Split "user" ":" = ["user"]
  /\ Open_config None a = IcePanic (PanicIndexOutOfRange 1 1)
  /\ Open_config None a <> IceError ErrMissingTURNCredentials.
Proof. repeat split; try reflexivity; discriminate. Qed.

(** The second test of the loop never fires: whatever the entries are,
    [Open] does not return [ErrMissingTURNCredentials]. *)
Lemma Open_ice_entry_never_missing_credentials (entry : string) :
  Open_ice_entry entry <> Some (IceError ErrMissingTURNCredentials).
Proof.
  unfold Open_ice_entry.
  destruct (decide (GoStrings.TrimSpace entry = "")); [done|].
  destruct (GoStrings.Contains entry "stun:"); [done|].
  destruct (length (GoStrings.Split entry "@") <? 2)%nat; [done|].
  destruct (GoStrings.Split entry "@" !! 1); [|done].
  destruct (GoStrings.Split (nth 0 (GoStrings.Split entry "@") "") ":" !! 0); [|done].
  by destruct (GoStrings.Split (nth 0 (GoStrings.Split entry "@") "") ":" !! 1).
Qed.

Lemma Open_iceServers_never_missing_credentials (entries : list string) :
  forall servers, Open_iceServers entries servers <> IceError ErrMissingTURNCredentials.
Proof.
  induction entries as [|entry rest IH]; intros servers; cbn [Open_iceServers]; [done|].
  pose proof (Open_ice_entry_never_missing_credentials entry) as Hentry.
  destruct (Open_ice_entry entry) as [[new|e|pv]|]; try apply IH; [|done].
  intros [= ->]. by apply Hentry.
Qed.

(** ** The byte stream *)

(** C8: [Read] blocks while no message waits; a datagram fills the first
    [min (len p) (len datagram)] bytes of [p], that count is returned, and
    the rest of the datagram is dropped (the next [Read] sees only the
    messages that came after it); the message sent by the [OnClose] callback
    ends the stream with [io.EOF]. *)
Theorem Read_datagram_or_end_of_stream (p : list byte) :
  Read p [] = None
  /\ (forall (datagram : list byte) (waiting : list message),
        let n := Nat.min (length p) (length datagram) in
        Read p (OnMessage_msg datagram :: waiting)
        = Some ((take n datagram ++ drop n p)%list, Z.of_nat n, None, waiting)
        /\ length (take n datagram ++ drop n p)%list = length p
        /\ (Z.of_nat n <= Z.of_nat (length p))%Z)
  /\ (forall waiting : list message,
        Read p (OnClose_msg :: waiting) = Some (p, (-1)%Z, Some EOF, waiting)).
Proof.
  split; [reflexivity|]. split; [|reflexivity].
  intros datagram waiting n. split; [reflexivity|]. split.
  - rewrite length_app, length_take, length_drop. lia.
  - lia.
Qed.

(** C10: on every failing path the count is -1: [Read] on a message that
    carries an error, among them the [io.EOF] of a closed channel, and
    [Write] when [Send] fails. *)
Theorem Read_Write_failure_count (p d : list byte) (e : error) (waiting : list message) :
  Read p (mkMessage d (Some e) :: waiting) = Some (p, (-1)%Z, Some e, waiting)
  /\ Read p (OnClose_msg :: waiting) = Some (p, (-1)%Z, Some EOF, waiting)
  /\ Write (Some e) p = ((-1)%Z, Some e)
  /\ Write None p = (Z.of_nat (length p), None).
Proof. repeat split. Qed.

(** ** Construction *)

(** A configuration that is given keeps its [Timeout], also when it is
    zero: only a nil configuration gets the ten seconds. *)
Lemma NewAdapter_keeps_given_timeout (s k : string) (i : list string) (c : AdapterConfig) :
  Timeout (config (NewAdapter s k i (Some c))) = Timeout c.
Proof.
  unfold NewAdapter.
  destruct (decide (GoStrings.TrimSpace (PrimaryChannelID c) = "")); reflexivity.
Qed.

(** ** [Close] *)

(** C7, refuted at the state that [NewAdapter] leaves: the first [Close]
    returns nil, the second one does not return but panics, because
    [close(a.lines)] closes a channel that is closed. *)
Lemma Close_second_call_panics :
  fst (Close new_world) = Returns None
  /\ fst (Close (snd (Close new_world))) = Panics PanicCloseOfClosedChannel
  /\ fst (Close (snd (Close new_world))) <> fst (Close new_world).
Proof. repeat split; try reflexivity; discriminate. Qed.

(** C7, amended: on an adapter whose outbound channel is still open,
    [Close] returns nil, sets [done], cancels the context and closes the
    channel; every later [Close] panics with "close of closed channel",
    [done] staying set. *)
Theorem Close_returns_once (w : World) :
  lines_closed w = false ->
  fst (Close w) = Returns None
  /\ a_done (snd (Close w)) = true
  /\ ctx_cancelled (snd (Close w)) = true
  /\ lines_closed (snd (Close w)) = true
  /\ fst (Close (snd (Close w))) = Panics PanicCloseOfClosedChannel
  /\ a_done (snd (Close (snd (Close w)))) = true.
Proof.
  intros Hopen. unfold Close, bind, modify, get, ret, panic. simpl.
  rewrite Hopen. simpl.
  destruct (lines_senders w); simpl; repeat split.
Qed.

Lemma Close_returns_once_witness :
  lines_closed new_world = false
  /\ fst (Close new_world) = Returns None
  /\ fst (Close (snd (Close new_world))) = Panics PanicCloseOfClosedChannel.
Proof.
  split; [reflexivity|].
  destruct (Close_returns_once new_world eq_refl) as (H1 & _ & _ & _ & H5 & _).
  exact (conj H1 H5).
Defined.

(** ** Disconnect events *)

Section Registry.

Variable lib : list event -> call -> option error.

(** C2: a connection-state event for peer [from] that carries the
    instance token [iid0] leaves the registry as it is, and closes
    nothing, unless the entry stored for [from] has that token; this holds
    for the callback installed by the introduction handler and for the one
    installed by the offer handler, whatever the new state is. *)
Theorem disconnect_with_other_iid_keeps_entry
  (w : World) (from iid0 : string) (pcs : PeerConnectionState) :
  (forall c, a_peers w !! from = Some c -> iid c <> iid0) ->
  let w1 := snd (OnConnectionStateChange_introduction lib from iid0 pcs w) in
  let w2 := snd (OnConnectionStateChange_offer lib from iid0 pcs w) in
  (a_peers w1 = a_peers w /\ trace w1 = trace w /\ closed_chans w1 = closed_chans w)
  /\ (a_peers w2 = a_peers w /\ trace w2 = trace w /\ closed_chans w2 = closed_chans w).
Proof.
  intros Hstale.
  unfold OnConnectionStateChange_introduction, OnConnectionStateChange_offer.
  destruct pcs; cbn; try done.
  unfold bind, Lock, deferred, get, Unlock, modify, ret.
  destruct (peerLock w); cbn; [done|].
  destruct (a_peers w !! from) as [c|] eqn:Hc; cbn; [|done].
  destruct (decide (iid c = iid0)) as [Heq|Hne]; [by destruct (Hstale c)|].
  done.
Qed.

End Registry.

(** ** Rules for pre- and postconditions *)

Lemma hoare_bind {A B} (P : World -> Prop) (m : M A) (k : A -> M B)
  (Q : A -> World -> Prop) (Q' : B -> World -> Prop) (E : World -> Prop) :
  hoare P m Q E -> (forall x, hoare (Q x) (k x) Q' E) -> hoare P (bind m k) Q' E.
Proof.
  intros Hm Hk w HP. specialize (Hm w HP). unfold bind.
  destruct (m w) as [[x|pv|] w']; [|done..].
  by apply Hk.
Qed.

Lemma hoare_weaken {A} (P P' : World -> Prop) (m : M A)
  (Q Q' : A -> World -> Prop) (E E' : World -> Prop) :
  hoare P m Q E ->
  (forall w, P' w -> P w) -> (forall x w, Q x w -> Q' x w) -> (forall w, E w -> E' w) ->
  hoare P' m Q' E'.
Proof.
  intros Hm HP HQ HE w Hw. specialize (Hm w (HP w Hw)).
  destruct (m w) as [[x|pv|] w']; auto.
Qed.

Lemma hoare_ret {A} (P : World -> Prop) (E : World -> Prop) (x : A) :
  hoare P (ret x) (fun _ => P) E.
Proof. by intros w HP. Qed.

Lemma hoare_panic {A} (P E : World -> Prop) (Q : A -> World -> Prop) pv :
  (forall w, P w -> E w) -> hoare P (panic pv) Q E.
Proof. intros HPE w HP. by apply HPE. Qed.

Lemma hoare_get (P E : World -> Prop) : hoare P get (fun _ => P) E.
Proof. by intros w HP. Qed.

Lemma hoare_deferred {A} (P E : World -> Prop) (m : M A) (d : M unit) :
  hoare P m (fun _ => P) E ->
  hoare P d (fun _ => P) E ->
  hoare E d (fun _ => E) E ->
  (forall w, P w -> E w) ->
  hoare P (deferred m d) (fun _ => P) E.
Proof.
  intros Hm Hd Hd' HPE w HP. specialize (Hm w HP). unfold deferred.
  destruct (m w) as [[x|pv|] w']; [| |done].
  - specialize (Hd w' Hm). destruct (d w') as [[[]|pv|] w'']; done.
  - specialize (Hd' w' Hm). destruct (d w') as [[[]|pv'|] w'']; done.
Qed.

(** ** Code that keeps a property of the trace, the drain goroutines and
    the [done] flag *)

Section Stable.

Variable lib : list event -> call -> option error.
Variable uuid : nat -> string.
Variable description : handle -> string.
Variable a : Adapter.

(** [P] holds while the code runs on, [E] when it has panicked or
    blocked. *)
Variables P E : World -> Prop.

Hypothesis P_view : forall w w',
  trace w' = trace w -> drains w' = drains w -> a_done w' = a_done w -> P w -> P w'.
Hypothesis E_view : forall w w',
  trace w' = trace w -> drains w' = drains w -> a_done w' = a_done w -> E w -> E w'.
Hypothesis P_log : forall c ok w, quiet a c = true -> P w -> P (log (Ev c ok) w).
Hypothesis E_log : forall c ok w, quiet a c = true -> E w -> E (log (Ev c ok) w).
Hypothesis P_E : forall w, P w -> E w.

Local Notation "'stable' m" := (hoare P m (fun _ => P) E) (at level 10, m at level 9).

Lemma stable_bind {A B} (m : M A) (k : A -> M B) :
  stable m -> (forall x, stable (k x)) -> stable (bind m k).
Proof. intros Hm Hk. by eapply hoare_bind. Qed.

Lemma stable_view {A} (m : M A) :
  (forall w, trace (snd (m w)) = trace w
             /\ drains (snd (m w)) = drains w
             /\ a_done (snd (m w)) = a_done w) ->
  stable m.
Proof.
  intros Hv w HP. destruct (Hv w) as (Ht & Hd & Hdone).
  destruct (m w) as [[x|pv|] w']; cbn in *; eauto.
Qed.

Lemma stable_ret {A} (x : A) : stable (ret x).
Proof. apply hoare_ret. Qed.

Lemma stable_panic {A} pv : stable (@panic A pv).
Proof. by apply hoare_panic. Qed.

Lemma stable_get : stable get.
Proof. apply hoare_get. Qed.

Lemma stable_Lock : stable Lock.
Proof. apply stable_view. intros w. unfold Lock. by destruct (peerLock w). Qed.

Lemma stable_Unlock : stable Unlock.
Proof. by apply stable_view. Qed.

Lemma stable_set_peers f : stable (modify (set_peers f)).
Proof. by apply stable_view. Qed.

Lemma stable_fresh_handle : stable fresh_handle.
Proof. by apply stable_view. Qed.

Lemma stable_NewString : stable (NewString uuid).
Proof. by apply stable_view. Qed.

Lemma stable_close_chan q : stable (close_chan q).
Proof.
  apply stable_view. intros w. unfold close_chan.
  by destruct (decide (q ∈ closed_chans w)).
Qed.

Lemma stable_go_send_line l : stable (go_send_line l).
Proof.
  apply stable_view. intros w. unfold go_send_line. by destruct (lines_closed w).
Qed.

Lemma stable_go_send_candidate q c : stable (go_send_candidate q c).
Proof.
  apply stable_view. intros w. unfold go_send_candidate.
  by destruct (decide (q ∈ closed_chans w)).
Qed.

Lemma stable_hand_over c : quiet a c = true -> stable (hand_over c).
Proof. intros Hc w HP. cbn. by apply P_log. Qed.

Lemma stable_lib_call c : quiet a c = true -> stable (lib_call lib c).
Proof. intros Hc w HP. cbn. by apply P_log. Qed.

Lemma stable_must c : quiet a c = true -> stable (must lib c).
Proof.
  intros Hc. apply stable_bind; [by apply stable_lib_call|].
  intros [e|]; [apply stable_panic | apply stable_ret].
Qed.

Lemma stable_E_Unlock : hoare E Unlock (fun _ => E) E.
Proof. intros w HE. cbn. by apply (E_view w). Qed.

Lemma stable_locked {A} (m : M A) :
  stable m -> stable (deferred m Unlock).
Proof.
  intros Hm. apply hoare_deferred; auto using stable_Unlock, stable_E_Unlock.
Qed.

Ltac quiet_call :=
  first [reflexivity | apply bool_decide_eq_true_2; reflexivity].

Ltac stable_step :=
  first
    [ apply stable_ret | apply stable_panic | apply stable_get
    | apply stable_Lock | apply stable_Unlock | apply stable_set_peers
    | apply stable_fresh_handle | apply stable_NewString
    | apply stable_close_chan | apply stable_go_send_line
    | apply stable_go_send_candidate
    | apply stable_hand_over; quiet_call
    | apply stable_lib_call; quiet_call
    | apply stable_must; quiet_call
    | apply stable_locked
    | apply stable_bind; [|intros ?] ].

Ltac case_entry c :=
  match goal with
  | |- context [a_peers ?w !! ?from] => destruct (a_peers w !! from) as [c|]
  end.

Lemma stable_close_channels l : stable (close_channels lib l).
Proof.
  induction l as [|[label channel] rest IH]; cbn [close_channels].
  - stable_step.
  - repeat stable_step. exact IH.
Qed.

Lemma stable_teardown p : stable (teardown lib p).
Proof.
  unfold teardown. stable_step; [apply stable_close_channels|].
  repeat stable_step.
Qed.

Lemma stable_teardown_offer_side p : stable (teardown_offer_side lib p).
Proof. unfold teardown_offer_side. repeat stable_step. Qed.

Lemma stable_teardown_all l : stable (teardown_all lib l).
Proof.
  induction l as [|[from p] rest IH]; cbn [teardown_all].
  - stable_step.
  - stable_step; [apply stable_teardown | exact IH].
Qed.

Lemma stable_OnConnectionStateChange_introduction from iid0 pcs :
  stable (OnConnectionStateChange_introduction lib from iid0 pcs).
Proof.
  unfold OnConnectionStateChange_introduction.
  destruct pcs; repeat stable_step.
  case_entry c; [|stable_step].
  destruct (decide (iid c = iid0)); [|stable_step].
  stable_step; [apply stable_teardown | stable_step].
Qed.

Lemma stable_OnConnectionStateChange_offer from iid0 pcs :
  stable (OnConnectionStateChange_offer lib from iid0 pcs).
Proof.
  unfold OnConnectionStateChange_offer.
  destruct pcs; repeat stable_step.
  case_entry c; [|stable_step].
  destruct (decide (iid c = iid0)); [|stable_step].
  stable_step; [apply stable_teardown_offer_side | stable_step].
Qed.

Lemma stable_OnICECandidate id from candidate :
  stable (OnICECandidate lib id from candidate).
Proof. unfold OnICECandidate; repeat stable_step. Qed.

Lemma stable_OnOpen from dc : stable (OnOpen from dc).
Proof.
  unfold OnOpen; repeat stable_step.
  case_entry p; repeat stable_step.
Qed.

Lemma stable_OnClose from dc : stable (OnClose lib from dc).
Proof.
  unfold OnClose; repeat stable_step.
  case_entry p; [|stable_step].
  destruct (channels p !! dc_label dc); repeat stable_step.
Qed.

Lemma stable_handle_introduction id from :
  stable (handle_introduction lib uuid description a id from).
Proof.
  unfold handle_introduction; repeat stable_step.
  case_entry old; [apply stable_teardown | stable_step].
Qed.

Lemma stable_handle_candidate id from to payload :
  stable (handle_candidate id from to payload).
Proof.
  unfold handle_candidate. destruct (decide (to = id)); repeat stable_step.
  case_entry c; repeat stable_step.
Qed.

Lemma stable_case_line l : stable (case_line lib l).
Proof. unfold case_line; repeat stable_step. Qed.

Lemma stable_case_ping : stable (case_ping lib).
Proof. unfold case_ping; repeat stable_step. Qed.

Lemma stable_case_errs e : stable (case_errs e).
Proof. unfold case_errs; stable_step. Qed.

Lemma stable_session_setup : stable (session_setup lib uuid a).
Proof.
  unfold session_setup; repeat stable_step.
  - destruct (decide _); stable_step.
  - match goal with |- context [match ?bad with _ => _ end] => destruct bad end;
      [by apply stable_view | stable_step].
Qed.

Lemma stable_session_exit : stable (session_exit lib).
Proof.
  unfold session_exit; repeat stable_step. apply stable_teardown_all.
Qed.

Lemma stable_loop_defer : stable loop_defer.
Proof. unfold loop_defer; repeat stable_step. Qed.

End Stable.

(** ** Invariants of the transition system *)

Section Machine.

Variable lib : list event -> call -> option error.
Variable uuid : nat -> string.
Variable description : handle -> string.
Variable a : Adapter.

(** [I] is the invariant; [D c] is [I] together with what allows a drain
    goroutine to be started on connection [c]. *)
Variable I : World -> Prop.
Variable D : handle -> World -> Prop.

Hypothesis I_view : forall w w',
  trace w' = trace w -> drains w' = drains w -> a_done w' = a_done w -> I w -> I w'.
Hypothesis I_log : forall c ok w, quiet a c = true -> I w -> I (log (Ev c ok) w).
Hypothesis D_view : forall c w w',
  trace w' = trace w -> drains w' = drains w -> a_done w' = a_done w -> D c w -> D c w'.
Hypothesis D_log : forall c c' ok w, quiet a c' = true -> D c w -> D c (log (Ev c' ok) w).
Hypothesis D_I : forall c w, D c w -> I w.
Hypothesis I_set_remote : forall c w,
  I w -> D c (log (Ev (SetRemoteDescription c) true) w).
Hypothesis D_go_drain : forall q c errs w,
  D c w -> I (set_drains ((q, c, errs) :: drains w) w).
Hypothesis I_dial : forall ok w, I w -> a_done w = false -> I (log (Ev Dial ok) w).
Hypothesis I_drain_step : forall q c errs w, I w -> I (drain_step lib q c errs w).
Hypothesis I_closing : forall w, I w -> I (set_closing w).

Local Notation "'keeps' m" := (hoare I m (fun _ => I) I) (at level 10, m at level 9).

Ltac keep :=
  lazymatch goal with
  | |- hoare _ (bind _ _) _ _ => eapply stable_bind; [|intros ?]
  | |- hoare _ (ret _) _ _ => eapply stable_ret
  | |- hoare _ (panic _) _ _ => eapply stable_panic
  | |- hoare _ get _ _ => eapply stable_get
  | |- hoare _ Lock _ _ => eapply stable_Lock
  | |- hoare _ Unlock _ _ => eapply stable_Unlock
  | |- hoare _ (modify (set_peers _)) _ _ => eapply stable_set_peers
  | |- hoare _ fresh_handle _ _ => eapply stable_fresh_handle
  | |- hoare _ (NewString _) _ _ => eapply stable_NewString
  | |- hoare _ (go_send_line _) _ _ => eapply stable_go_send_line
  | |- hoare _ (lib_call _ _) _ _ =>
      eapply stable_lib_call;
      [..|first [reflexivity | apply bool_decide_eq_true_2; reflexivity]]
  | |- hoare _ (must _ _) _ _ =>
      eapply stable_must;
      [..|first [reflexivity | apply bool_decide_eq_true_2; reflexivity]]
  end;
  eauto.

Lemma must_set_remote c :
  hoare I (must lib (SetRemoteDescription c)) (fun _ => D c) I.
Proof.
  intros w HI. unfold must, bind, lib_call, panic, ret.
  destruct (lib (trace w) (SetRemoteDescription c)); cbn.
  - by apply I_log.
  - by apply I_set_remote.
Qed.

Lemma go_drain_allowed q c errs :
  hoare (D c) (go_drain q c errs) (fun _ => I) I.
Proof. intros w HD. cbn. by apply D_go_drain. Qed.

Lemma keeps_handle_offer id errs from to payload :
  keeps (handle_offer lib uuid description id errs from to payload).
Proof.
  unfold handle_offer. destruct (decide (to = id)); [|keep].
  eapply stable_bind; [keep|intros iid0].
  eapply stable_bind; [keep|intros c].
  eapply stable_bind; [keep|intros _].
  eapply stable_bind; [keep|intros bad].
  destruct bad as [bad|]; [keep|].
  eapply hoare_bind; [apply must_set_remote|]. intros ?; cbv beta.
  do 8 (eapply (hoare_bind _ _ _ (fun _ => D c)); [keep|intros ?; cbv beta]).
  eapply hoare_bind; [apply go_drain_allowed|]. intros ?; cbv beta.
  keep.
Qed.

Ltac by_view :=
  match goal with
  | H : I ?w |- I _ => by apply (I_view w)
  end.

Lemma keeps_handle_answer id errs from to payload :
  keeps (handle_answer lib id errs from to payload).
Proof.
  unfold handle_answer. destruct (decide (to = id)); [|keep].
  eapply stable_bind; [keep|intros _].
  eapply stable_bind; [keep|intros w0].
  eapply stable_bind; [keep|intros _].
  destruct (a_peers w0 !! from) as [c|]; [|keep].
  eapply stable_bind; [keep|intros bad].
  destruct bad as [bad|]; [keep|].
  eapply hoare_bind; [apply must_set_remote|]. intros ?; cbv beta.
  apply go_drain_allowed.
Qed.

Lemma keeps_case_input id errs input :
  keeps (case_input lib uuid description a id errs input).
Proof.
  destruct input as [| | |[from|from to payload|from to payload|from to payload]];
    cbn [case_input]; try keep.
  - eapply stable_handle_introduction; eauto.
  - apply keeps_handle_offer.
  - apply keeps_handle_answer.
  - eapply stable_handle_candidate; eauto.
Qed.

Lemma I_unwind dialed w : I w -> I (unwind lib dialed w).
Proof.
  intros HI. unfold unwind.
  assert (keeps (if dialed then session_exit lib else ret tt)) as Hexit.
  { destruct dialed; [eapply stable_session_exit; eauto | keep]. }
  specialize (Hexit w HI).
  destruct ((if dialed then session_exit lib else ret tt) w) as [r1 w1].
  assert (I w1) as HI1 by (by destruct r1).
  assert (keeps loop_defer) as Hdefer by (eapply stable_loop_defer; eauto).
  specialize (Hdefer w1 HI1).
  destruct (loop_defer w1) as [r2 w2].
  assert (I w2) as HI2 by (by destruct r2).
  destruct r1, r2; by_view.
Qed.

Lemma I_in_loop (m : M unit) w : keeps m -> I w -> I (in_loop lib m w).
Proof.
  intros Hm HI. specialize (Hm w HI). unfold in_loop.
  destruct (m w) as [[[]|pv|] w']; [done | by apply I_unwind | by_view].
Qed.

Lemma I_in_callback {A} (m : M A) w : keeps m -> I w -> I (in_callback m w).
Proof.
  intros Hm HI. specialize (Hm w HI). unfold in_callback.
  destruct (m w) as [[x|pv|] w']; [done | by_view | done].
Qed.

Lemma I_loop_top w : I w -> I (loop_top lib uuid a w).
Proof.
  intros HI. unfold loop_top.
  destruct (a_done w) eqn:Hdone; [by_view|].
  assert (I (snd (dial lib w))) as HI1.
  { unfold dial, bind, get, modify, must, lib_call, panic, ret.
    destruct (ctx_cancelled w); cbn; [by apply I_dial|].
    destruct (lib (trace w) Dial); cbn; by apply I_dial. }
  destruct (dial lib w) as [[[]|pv|] w1]; cbn in HI1;
    [|by apply I_unwind..].
  assert (keeps (session_setup lib uuid a)) as Hsetup
    by (eapply stable_session_setup; eauto).
  specialize (Hsetup w1 HI1).
  destruct (session_setup lib uuid a w1) as [[[id errs]|pv|] w2];
    [by_view | by apply I_unwind | by_view].
Qed.

Lemma I_reader_fails errs e w : I w -> I (reader_fails lib errs e w).
Proof.
  intros HI. unfold reader_fails.
  assert (I (set_chans ({[errs]} ∪ closed_chans w) (queue_senders w) w)) as HI1
    by by_view.
  destruct (errs_senders w); [|by_view].
  apply I_in_loop; [|done]. eapply stable_case_errs; eauto.
Qed.

Lemma keeps_Close : keeps Close.
Proof.
  intros w HI. unfold Close, bind, modify, get, panic, ret. cbn.
  destruct (lines_closed w); [by apply I_closing|].
  apply I_closing in HI.
  destruct (lines_senders (set_closing w)); by_view.
Qed.

(** Every transition keeps the invariant. *)
Lemma I_step l w : I w -> I (step lib uuid description a l w).
Proof.
  intros HI. unfold step. destruct (crashed w); [done|].
  destruct l as [|input|e| | | |q c errs|[] from iid0 pcs|id from candidate
                 |from dc|from dc|];
    destruct (a_phase w) as [|id0 errs0| |]; try done.
  all: first
    [ by apply I_loop_top
    | by apply I_reader_fails
    | by apply I_drain_step
    | apply I_in_callback; [|done];
      first [ eapply stable_OnConnectionStateChange_offer; by eauto
            | eapply stable_OnConnectionStateChange_introduction; by eauto
            | eapply stable_OnICECandidate; by eauto
            | eapply stable_OnOpen; by eauto
            | eapply stable_OnClose; by eauto
            | apply keeps_Close ]
    | apply I_in_loop; [|done];
      first [ apply keeps_case_input | eapply stable_case_ping; by eauto ]
    | idtac ].
  - destruct (errs_senders w) as [|e waiting]; [done|].
    apply I_in_loop; [eapply stable_case_errs; eauto | by_view].
  - destruct (receive_line w) as [[l w1]|] eqn:Hrecv; [|done].
    apply I_in_loop; [eapply stable_case_line; eauto|].
    unfold receive_line in Hrecv.
    destruct (lines_senders w); [destruct (lines_closed w)|]; simplify_eq; [done|].
    by_view.
Qed.

Lemma I_run ls : forall w, I w -> I (run lib uuid description a ls w).
Proof.
  induction ls as [|l ls IH]; intros w HI; [done|].
  cbn. apply IH. by apply I_step.
Qed.

End Machine.

(** ** Remote descriptions come before remote candidates *)

Lemma remove_first_subset {A} `{EqDecision A} (x y : A) (l : list A) :
  y ∈ remove_first x l -> y ∈ l.
Proof.
  induction l as [|z l IH]; cbn; [done|].
  destruct (decide (x = z)) as [->|Hne].
  - intros Hin. apply elem_of_cons. by right.
  - intros [->|Hin]%elem_of_cons; apply elem_of_cons; [by left | right; by apply IH].
Qed.

Lemma remote_set_before_add_quiet a c ok tr :
  quiet a c = true -> remote_set_before_add tr -> remote_set_before_add (Ev c ok :: tr).
Proof. intros Hq Htr. split; [|done]. by destruct c. Qed.

Section RemoteFirst.

Variable lib : list event -> call -> option error.
Variable uuid : nat -> string.
Variable description : handle -> string.
Variable a : Adapter.

Lemma drains_after_remote_log c ok w :
  quiet a c = true -> drains_after_remote w -> drains_after_remote (log (Ev c ok) w).
Proof.
  intros Hq [Htr Hdr]. split.
  - exact (remote_set_before_add_quiet a c ok (trace w) Hq Htr).
  - intros q c' errs Hin. cbn. apply elem_of_cons. right. by eapply Hdr.
Qed.

Lemma drains_after_remote_drain_step q c errs w :
  drains_after_remote w -> drains_after_remote (drain_step lib q c errs w).
Proof.
  intros [Htr Hdr]. unfold drain_step.
  destruct (decide ((q, c, errs) ∈ drains w)) as [Hin|]; [|done].
  destruct (decide (q ∈ closed_chans w)).
  { split; [done|]. cbn. intros q' c' errs' Hin'.
    apply remove_first_subset in Hin'. by eapply Hdr. }
  destruct (queue_senders w !! q) as [[|candidate waiting]|]; [done| |done].
  assert (Ev (SetRemoteDescription c) true ∈ trace w) as Hset by (by eapply Hdr).
  unfold lib_call. cbn.
  assert (forall ok, remote_set_before_add (Ev (AddICECandidate c candidate) ok :: trace w))
    as Htr' by (intros ok; by split).
  assert (forall ok q' c' errs', (q', c', errs') ∈ drains w ->
            Ev (SetRemoteDescription c') true ∈ Ev (AddICECandidate c candidate) ok :: trace w)
    as Hdr'.
  { intros ok q' c' errs' Hin'. apply elem_of_cons. right. by eapply Hdr. }
  destruct (lib (trace w) (AddICECandidate c candidate)) as [e|]; cbn.
  2:{ split; [apply Htr' | apply Hdr']. }
  assert (forall q' c' errs',
            (q', c', errs') ∈ remove_first (q, c, errs) (drains w) ->
            Ev (SetRemoteDescription c') true ∈ Ev (AddICECandidate c candidate) false :: trace w)
    as Hdr''.
  { intros q' c' errs' Hin'. apply remove_first_subset in Hin'. by eapply Hdr'. }
  destruct (decide (errs ∈ closed_chans w)); [by split|].
  destruct (a_phase w) as [|id errs'| |]; try by split.
  destruct (decide (errs' = errs)); by split.
Qed.

Lemma drains_after_remote_run ls w :
  drains_after_remote w -> drains_after_remote (run lib uuid description a ls w).
Proof.
  apply I_run with
    (D := fun c w => drains_after_remote w /\ Ev (SetRemoteDescription c) true ∈ trace w).
  - intros w1 w2 Ht Hd _ [Htr Hdr]. split; rewrite ?Ht; [done|].
    intros q c errs. rewrite Hd. apply Hdr.
  - intros c ok w1 Hq. by apply drains_after_remote_log.
  - intros c w1 w2 Ht Hd _ [[Htr Hdr] Hset]. rewrite <- Ht in Hset. split; [|done].
    split; rewrite ?Ht; [done|]. intros q c' errs. rewrite Hd. apply Hdr.
  - intros c c' ok w1 Hq [Hinv Hset]. split; [by apply drains_after_remote_log|].
    cbn. apply elem_of_cons. by right.
  - by intros c w1 [Hinv _].
  - intros c w1 Hinv. split; [by apply drains_after_remote_log|].
    cbn. apply elem_of_cons. by left.
  - intros q c errs w1 [[Htr Hdr] Hset]. split; [done|]. cbn.
    intros q' c' errs' Hin. apply elem_of_cons in Hin as [Heq|Hin].
    + by simplify_eq.
    + by eapply Hdr.
  - intros ok w1 [Htr Hdr] _. split; [by split|].
    intros q c errs Hin. cbn. apply elem_of_cons. right. by eapply Hdr.
  - apply drains_after_remote_drain_step.
  - by intros w1 [Htr Hdr].
Qed.

End RemoteFirst.

(** A candidate addressed to this client, for a peer that has an entry
    with an open candidates channel: the handler leaves it with the senders
    that wait on that channel and calls nothing. *)
Lemma handle_candidate_enqueues (id from payload : string) (c : peer) (w : World) :
  a_peers w !! from = Some c ->
  peerLock w = false ->
  candidates c ∉ closed_chans w ->
  handle_candidate id from id payload w
  = (Returns tt,
     set_peerLock false
       (set_chans (closed_chans w)
          (<[candidates c := (default [] (queue_senders w !! candidates c) ++ [payload])%list]>
             (queue_senders w))
          (set_peerLock true w))).
Proof.
  intros Hc Hlock Hopen. unfold handle_candidate.
  destruct (decide (id = id)) as [_|]; [|done].
  unfold bind, Lock, get, Unlock, modify, go_send_candidate. rewrite Hlock. cbn.
  rewrite Hc. cbn. by destruct (decide (candidates c ∈ closed_chans w)).
Qed.

Lemma drains_after_remote_new_world : drains_after_remote new_world.
Proof. split; [done|]. intros q c errs Hin. by apply elem_of_nil in Hin. Qed.

Lemma world_with_B_entry : a_peers world_with_B !! "B" = Some entry_of_B.
Proof. vm_compute. reflexivity. Qed.

(** Scenario 6 of the specification: the candidate of ["B"] arrives before
    the answer of ["B"]; it waits on the candidates channel, the drain step
    before the answer does nothing, and the candidate is added after the
    remote description is set. *)
Example candidate_before_answer :
  trace (run never_fails nth_uuid sdp_of example_adapter
           [RecvInput (Envelope (Candidate "B" "0" "candidate:1"));
            DrainStep 3 1 0;
            RecvInput (Envelope (Answer "B" "0" "answer"));
            DrainStep 3 1 0]
           world_with_B)
  = ([Ev (AddICECandidate 1 "candidate:1") true;
      Ev (SetRemoteDescription 1) true;
      Ev (UnmarshalSDP "answer") true] ++ trace world_with_B)%list.
Proof. vm_compute. reflexivity. Qed.

(** ** After [Close] *)

Lemma dials_cons_other e tr : ev_call e <> Dial -> dials (e :: tr) = dials tr.
Proof. intros Hne. unfold dials. by rewrite filter_cons_False. Qed.

Section AfterClose.

Variable lib : list event -> call -> option error.
Variable uuid : nat -> string.
Variable description : handle -> string.
Variable a : Adapter.

Lemma closed_with_dials_log n c ok w :
  quiet a c = true -> closed_with_dials n w -> closed_with_dials n (log (Ev c ok) w).
Proof.
  intros Hq [Hdone Hn]. split; [done|].
  change (dials (Ev c ok :: trace w) = n).
  rewrite dials_cons_other; [done|]. cbn. by destruct c.
Qed.

Lemma closed_with_dials_drain_step n q c errs w :
  closed_with_dials n w -> closed_with_dials n (drain_step lib q c errs w).
Proof.
  intros [Hdone Hn]. unfold drain_step.
  destruct (decide ((q, c, errs) ∈ drains w)); [|done].
  destruct (decide (q ∈ closed_chans w)); [done|].
  destruct (queue_senders w !! q) as [[|candidate waiting]|]; [done| |done].
  unfold lib_call. cbn.
  assert (forall ok, dials (Ev (AddICECandidate c candidate) ok :: trace w) = n) as Hn'
    by (intros ok; by rewrite dials_cons_other).
  destruct (lib (trace w) (AddICECandidate c candidate)) as [bad|]; cbn; [|by split].
  destruct (decide (errs ∈ closed_chans w)); [by split|].
  destruct (a_phase w) as [|id errs'| |]; try by split.
  destruct (decide (errs' = errs)); by split.
Qed.

(** Once [done] is set it stays set, and no transition dials again. *)
Lemma closed_with_dials_run n ls w :
  closed_with_dials n w -> closed_with_dials n (run lib uuid description a ls w).
Proof.
  apply I_run with (D := fun _ => closed_with_dials n).
  - intros w1 w2 Ht _ Hd [Hdone Hn]. split; by rewrite ?Ht, ?Hd.
  - intros c ok w1. apply closed_with_dials_log.
  - intros _ w1 w2 Ht _ Hd [Hdone Hn]. split; by rewrite ?Ht, ?Hd.
  - intros _ c ok w1. apply closed_with_dials_log.
  - done.
  - intros c w1. by apply closed_with_dials_log.
  - by intros q c errs w1 [Hdone Hn].
  - intros ok w1 [Hdone _] Hnot. congruence.
  - intros q c errs w1. apply closed_with_dials_drain_step.
  - by intros w1 [_ Hn].
Qed.

(** C5, amended: once [Close] has returned, [done] stays set in every
    state that follows, no further dial of the signaler is made, and the
    outer loop of [Open], when it comes to its top, returns. *)
Theorem no_session_starts_after_Close (w : World) (ls : list label) :
  fst (Close w) = Returns None ->
  let w1 := snd (Close w) in
  let w2 := run lib uuid description a ls w1 in
  a_done w2 = true
  /\ dials (trace w2) = dials (trace w)
  /\ (a_phase w2 = AtLoopTop -> crashed w2 = None ->
      step lib uuid description a LoopTop w2 = set_phase LoopReturned w2).
Proof.
  intros Hret w1 w2.
  assert (closed_with_dials (dials (trace w)) w1) as Hw1.
  { subst w1. unfold Close, bind, modify, get, panic, ret. cbn.
    destruct (lines_closed w); [by split|]. cbn.
    by destruct (lines_senders w). }
  apply (closed_with_dials_run _ ls) in Hw1. fold w2 in Hw1.
  destruct Hw1 as [Hdone Hn]. split; [done|]. split; [done|].
  intros Hphase Hcrashed. unfold step, loop_top.
  by rewrite Hcrashed, Hphase, Hdone.
Qed.

End AfterClose.

(** The adapter of [world_with_B] after both waiting lines (its
    introduction and the offer to ["B"]) have been sent. *)
Lemma Close_returns_in_session :
  fst (Close (run never_fails nth_uuid sdp_of example_adapter [RecvLine; RecvLine] world_with_B))
  = Returns None.
Proof. vm_compute. reflexivity. Qed.

Lemma no_session_starts_after_Close_witness :
  dials (trace (run never_fails nth_uuid sdp_of example_adapter [RecvLine; Tick]
                  (snd (Close (run never_fails nth_uuid sdp_of example_adapter
                                 [RecvLine; RecvLine] world_with_B)))))
  = dials (trace (run never_fails nth_uuid sdp_of example_adapter
                    [RecvLine; RecvLine] world_with_B)).
Proof.
  refine (proj1 (proj2
    (no_session_starts_after_Close never_fails nth_uuid sdp_of example_adapter
       (run never_fails nth_uuid sdp_of example_adapter [RecvLine; RecvLine] world_with_B)
       [RecvLine; Tick] _))).
  vm_compute. reflexivity.
Defined.

(** C5, refuted on a run: the adapter has joined, peer ["B"] has
    introduced itself, both waiting lines are sent, and the host calls
    [Close], which returns.  After that the session loop receives from the
    closed channel [a.lines] the nil line, encrypts it and writes it to the
    socket; and when the primary data channel of ["B"] opens, a [Peer] is
    handed to the host. *)
Lemma frame_sent_and_peer_emitted_after_Close :
  let w1 := run never_fails nth_uuid sdp_of example_adapter [RecvLine; RecvLine] world_with_B in
  let w2 := snd (Close w1) in
  let w3 := run never_fails nth_uuid sdp_of example_adapter
              [RecvLine; ChannelOpened "B" primary_of_B] w2 in
  fst (Close w1) = Returns None
  /\ w2 = step never_fails nth_uuid sdp_of example_adapter HostClose w1
  /\ crashed w3 = None
  /\ trace w3
     = ([Ev (SendPeer (mkPeerHandle "B" "primary" primary_of_B)) true;
         Ev SetWriteDeadline true;
         Ev (WriteText NilLine) true;
         Ev (Encrypt NilLine) true] ++ trace w2)%list.
Proof. vm_compute. repeat split. Qed.

(** ** The label of the data channels *)

Section Labels.

Variable lib : list event -> call -> option error.
Variable uuid : nat -> string.
Variable description : handle -> string.
Variable a : Adapter.

Lemma labelled_log c ok w :
  labelled a (Ev c ok) ->
  Forall (labelled a) (trace w) -> Forall (labelled a) (trace (log (Ev c ok) w)).
Proof. intros Hc Hw. by apply Forall_cons. Qed.

Lemma quiet_labelled c ok : quiet a c = true -> labelled a (Ev c ok).
Proof.
  destruct c; intros Hq; try exact I.
  unfold labelled. cbn in *. by apply bool_decide_eq_true in Hq.
Qed.

Lemma labelled_drain_step q c errs w :
  Forall (labelled a) (trace w) ->
  Forall (labelled a) (trace (drain_step lib q c errs w)).
Proof.
  intros Hw. unfold drain_step.
  destruct (decide ((q, c, errs) ∈ drains w)); [|done].
  destruct (decide (q ∈ closed_chans w)); [done|].
  destruct (queue_senders w !! q) as [[|candidate waiting]|]; [done| |done].
  unfold lib_call. cbn.
  assert (forall ok, Forall (labelled a) (Ev (AddICECandidate c candidate) ok :: trace w))
    as Hadd by (intros ok; by apply Forall_cons).
  destruct (lib (trace w) (AddICECandidate c candidate)) as [bad|]; cbn;
    [|exact (Hadd true)].
  destruct (decide (errs ∈ closed_chans w)); [exact (Hadd false)|].
  destruct (a_phase w) as [|id errs'| |]; try exact (Hadd false).
  destruct (decide (errs' = errs)); exact (Hadd false).
Qed.

(** In every run of the adapter, each data channel it creates carries
    the label stored in its configuration. *)
Lemma labelled_run ls w :
  Forall (labelled a) (trace w) ->
  Forall (labelled a) (trace (run lib uuid description a ls w)).
Proof.
  apply I_run with (I := fun w => Forall (labelled a) (trace w))
                   (D := fun _ w => Forall (labelled a) (trace w)).
  - intros w1 w2 Ht _ _. by rewrite Ht.
  - intros c ok w1 Hq. by apply labelled_log, quiet_labelled.
  - intros _ w1 w2 Ht _ _. by rewrite Ht.
  - intros _ c ok w1 Hq. by apply labelled_log, quiet_labelled.
  - done.
  - intros c w1. by apply labelled_log.
  - done.
  - intros ok w1 Hw1 _. by apply labelled_log.
  - intros q c errs w1. apply labelled_drain_step.
  - done.
Qed.

End Labels.

(** C9, refuted at a configuration that is given with its timeout left
    out: the field has Go's zero value and [NewAdapter] keeps it, where the
    specification promises ten seconds; the blank [PrimaryChannelID] of the
    same configuration does become ["primary"]. *)
Lemma NewAdapter_zero_timeout_kept :
  Timeout (config (NewAdapter "wss://signaler.example/?community=c" "key" []
                     (Some (mkAdapterConfig 0 false "" ""))))
  = 0%Z
  /\ Timeout (config (NewAdapter "wss://signaler.example/?community=c" "key" []
                        (Some (mkAdapterConfig 0 false "" ""))))
     <> (10 * Second)%Z
  /\ PrimaryChannelID (config (NewAdapter "wss://signaler.example/?community=c" "key" []
                                 (Some (mkAdapterConfig 0 false "" ""))))
     = "primary".
Proof. repeat split; try reflexivity. vm_compute. discriminate. Qed.

(** C9, amended: the timeout is ten seconds when no configuration is given
    and is the given configuration's own timeout otherwise, whatever that
    is; a blank [PrimaryChannelID] (that of the nil configuration too)
    becomes ["primary"] and any other one is kept; and in every run of the
    adapter that [NewAdapter] returns, each data channel that the adapter
    creates carries the label so fixed. *)
Theorem NewAdapter_defaults (s k : string) (i : list string) :
  Timeout (config (NewAdapter s k i None)) = (10 * Second)%Z
  /\ (forall c : AdapterConfig,
        Timeout (config (NewAdapter s k i (Some c))) = Timeout c)
  /\ PrimaryChannelID (config (NewAdapter s k i None)) = "primary"
  /\ (forall c : AdapterConfig,
        PrimaryChannelID (config (NewAdapter s k i (Some c)))
        = if decide (GoStrings.TrimSpace (PrimaryChannelID c) = "")
          then "primary" else PrimaryChannelID c)
  /\ (forall (c : option AdapterConfig) (lib : list event -> call -> option error)
             (uuid : nat -> string) (description : handle -> string) (ls : list label),
        Forall (labelled (NewAdapter s k i c))
          (trace (run lib uuid description (NewAdapter s k i c) ls new_world))).
Proof.
  split; [reflexivity|]. split.
  { intros c. unfold NewAdapter.
    destruct (decide (GoStrings.TrimSpace (PrimaryChannelID c) = "")); reflexivity. }
  split; [reflexivity|]. split.
  - intros c. unfold NewAdapter.
    destruct (decide (GoStrings.TrimSpace (PrimaryChannelID c) = "")); reflexivity.
  - intros c lib uuid description ls. by apply labelled_run.
Qed.

(** The introduction of ["B"] on the adapter built without a
    configuration: the data channel is created under the label
    ["primary"]. *)
Example primary_channel_created :
  Ev (CreateDataChannel 1 2 "primary") true ∈ trace world_with_B.
Proof. apply (bool_decide_unpack _). vm_compute. exact I. Qed.

(** ** Teardown *)

Lemma torn_down_mono (p : peer) (w w' : World) :
  (forall e, e ∈ trace w -> e ∈ trace w') ->
  closed_chans w ⊆ closed_chans w' ->
  torn_down p w -> torn_down p w'.
Proof.
  intros Htr Hcl (Hch & Hconn & Hq). split; [|split].
  - intros label dc Hdc. apply Htr. by eapply Hch.
  - by apply Htr.
  - by apply Hcl.
Qed.

Section Teardown.

Variable lib : list event -> call -> option error.

Lemma must_outcome c w :
  match must lib c w with
  | (Returns _, w') => Ev c true ∈ trace w' /\ only_calls w w'
  | (Panics _, w') => only_calls w w'
  | (Blocks, _) => False
  end.
Proof.
  unfold must, bind, lib_call, panic, ret.
  destruct (lib (trace w) c); cbn; repeat split;
    try (intros e' He'; apply elem_of_cons; by right).
  apply elem_of_cons. by left.
Qed.

Lemma close_channels_outcome l : forall w,
  match close_channels lib l w with
  | (Returns _, w') =>
      (forall x, x ∈ l -> Ev (ChannelClose (dc_handle (snd x))) true ∈ trace w')
      /\ only_calls w w'
  | (Panics _, w') => only_calls w w'
  | (Blocks, _) => False
  end.
Proof.
  induction l as [|[label channel] rest IH]; intros w.
  - cbn. split; [|done]. intros x Hx. by apply elem_of_nil in Hx.
  - cbn [close_channels]. unfold bind.
    pose proof (must_outcome (ChannelClose (dc_handle channel)) w) as Hmust.
    destruct (must lib (ChannelClose (dc_handle channel)) w) as [[[]|pv|] w1];
      [|done..].
    destruct Hmust as (Hev & Htr1 & Hcl1 & Hpe1 & Hlk1).
    specialize (IH w1).
    destruct (close_channels lib rest w1) as [[[]|pv|] w2]; [| |done].
    + destruct IH as (Hrest & Htr2 & Hcl2 & Hpe2 & Hlk2).
      split; [|repeat split; [auto | congruence..]].
      intros x [->|Hx]%elem_of_cons; [by apply Htr2 | by apply Hrest].
    + destruct IH as (Htr2 & Hcl2 & Hpe2 & Hlk2).
      repeat split; [auto | congruence..].
Qed.

(** The teardown either returns, and then the entry is torn down, or it
    panics at the first close that fails, and then the candidates channel
    is not closed by it. *)
Lemma teardown_outcome p w :
  match teardown lib p w with
  | (Returns _, w') =>
      torn_down p w'
      /\ (forall e, e ∈ trace w -> e ∈ trace w')
      /\ closed_chans w' = {[candidates p]} ∪ closed_chans w
      /\ a_peers w' = a_peers w
      /\ peerLock w' = peerLock w
  | (Panics _, w') => only_calls w w'
  | (Blocks, _) => False
  end.
Proof.
  unfold teardown, bind.
  pose proof (close_channels_outcome (map_to_list (channels p)) w) as Hch.
  destruct (close_channels lib (map_to_list (channels p)) w) as [[[]|pv|] w1];
    [|done..].
  destruct Hch as (Hch & Htr1 & Hcl1 & Hpe1 & Hlk1).
  pose proof (must_outcome (ConnClose (conn p)) w1) as Hconn.
  destruct (must lib (ConnClose (conn p)) w1) as [[[]|pv|] w2]; [| |done].
  2:{ destruct Hconn as (Htr2 & Hcl2 & Hpe2 & Hlk2).
      repeat split; [auto | congruence..]. }
  destruct Hconn as (Hconn & Htr2 & Hcl2 & Hpe2 & Hlk2).
  unfold close_chan.
  destruct (decide (candidates p ∈ closed_chans w2)).
  { repeat split; [auto | congruence..]. }
  cbn. split; [|repeat split; [auto | congruence..]].
  split; [|split].
  - intros label dc Hdc. apply Htr2. apply (Hch (label, dc)).
    by apply elem_of_map_to_list.
  - done.
  - apply elem_of_union. left. by apply elem_of_singleton.
Qed.

Hypothesis closes_ok : forall tr c, is_close c = true -> lib tr c = None.

Lemma close_channels_returns l : forall w,
  fst (close_channels lib l w) = Returns tt.
Proof.
  induction l as [|[label channel] rest IH]; intros w; [done|].
  cbn [close_channels]. unfold bind, must, lib_call, bind, ret.
  rewrite closes_ok by done. apply IH.
Qed.

(** Without close errors, and on an open candidates channel, the
    teardown returns. *)
Lemma teardown_returns p w :
  candidates p ∉ closed_chans w -> fst (teardown lib p w) = Returns tt.
Proof.
  intros Hopen. unfold teardown, bind.
  pose proof (close_channels_returns (map_to_list (channels p)) w) as Hret.
  pose proof (close_channels_outcome (map_to_list (channels p)) w) as Hch.
  destruct (close_channels lib (map_to_list (channels p)) w) as [r w1].
  cbn in Hret. subst r. destruct Hch as (_ & _ & Hcl1 & _).
  unfold must, lib_call, bind, ret. rewrite closes_ok by done.
  unfold close_chan. cbn. rewrite Hcl1.
  by destruct (decide (candidates p ∈ closed_chans w)).
Qed.

(** The introduction side's disconnect with the token of the stored
    entry. *)
Lemma disconnect_introduction_tears_down from iid0 c w :
  a_peers w !! from = Some c ->
  iid c = iid0 ->
  peerLock w = false ->
  candidates c ∉ closed_chans w ->
  let r := OnConnectionStateChange_introduction lib from iid0
             PeerConnectionStateDisconnected w in
  fst r = Returns tt
  /\ torn_down c (snd r)
  /\ a_peers (snd r) = delete from (a_peers w).
Proof.
  intros Hc Hiid Hlock Hopen r.
  pose proof (teardown_returns c (set_peerLock true w) Hopen) as Hret.
  pose proof (teardown_outcome c (set_peerLock true w)) as Hout.
  destruct (teardown lib c (set_peerLock true w)) as [o w1] eqn:Htd.
  cbn in Hret. subst o. destruct Hout as (Hdown & _ & _ & Hpe & _).
  assert (r = (Returns tt, set_peerLock false (set_peers (delete from) w1))) as ->.
  { subst r. unfold OnConnectionStateChange_introduction.
    unfold bind at 1. unfold Lock. rewrite Hlock.
    unfold deferred. unfold bind at 1. unfold get.
    change (a_peers (set_peerLock true w)) with (a_peers w). rewrite Hc.
    destruct (decide (iid c = iid0)) as [_|]; [|done].
    unfold bind. by rewrite Htd. }
  cbn. split; [done|]. split; [done|]. by rewrite Hpe.
Qed.

Lemma teardown_all_ok l : forall w,
  NoDup (map (fun x : string * peer => candidates (snd x)) l) ->
  (forall x, x ∈ l -> candidates (snd x) ∉ closed_chans w) ->
  exists w',
    teardown_all lib l w = (Returns tt, w')
    /\ (forall x, x ∈ l -> torn_down (snd x) w')
    /\ (forall e, e ∈ trace w -> e ∈ trace w')
    /\ closed_chans w ⊆ closed_chans w'
    /\ a_peers w' = a_peers w
    /\ peerLock w' = peerLock w.
Proof.
  induction l as [|[from p] rest IH]; intros w Hnd Hopen.
  - exists w. split; [done|]. split; [|done].
    intros x Hx. by apply elem_of_nil in Hx.
  - cbn in Hnd. apply NoDup_cons in Hnd as [Hfresh Hnd].
    pose proof (teardown_returns p w (Hopen (from, p) (list_elem_of_here _ _))) as Hret.
    pose proof (teardown_outcome p w) as Hout.
    destruct (teardown lib p w) as [o w1] eqn:Htd.
    cbn in Hret. subst o. destruct Hout as (Hdown & Htr1 & Hcl1 & Hpe1 & Hlk1).
    destruct (IH w1 Hnd) as (w' & Hrun & Hall & Htr2 & Hcl2 & Hpe2 & Hlk2).
    { intros x Hx. rewrite Hcl1. intros Hq. apply elem_of_union in Hq as [Hq|Hq].
      - apply elem_of_singleton in Hq. apply Hfresh. rewrite <- Hq.
        apply list_elem_of_fmap. by exists x.
      - revert Hq. apply Hopen. by apply list_elem_of_further. }
    exists w'. split.
    { cbn [teardown_all]. unfold bind. by rewrite Htd. }
    split; [|repeat split; [auto | | congruence..]].
    + intros x Hx. apply elem_of_cons in Hx as [->|Hx]; [|by apply Hall].
      by apply (torn_down_mono p w1 w').
    + intros q Hq. apply Hcl2. rewrite Hcl1. apply elem_of_union. by right.
Qed.

(** The deferred function of the session: every entry of the registry
    is torn down. *)
Lemma session_exit_tears_down_all w :
  peerLock w = false ->
  (forall from p, a_peers w !! from = Some p -> candidates p ∉ closed_chans w) ->
  (forall from1 from2 p1 p2,
      a_peers w !! from1 = Some p1 -> a_peers w !! from2 = Some p2 ->
      candidates p1 = candidates p2 -> from1 = from2) ->
  let r := session_exit lib w in
  fst r = Returns tt
  /\ forall from p, a_peers w !! from = Some p -> torn_down p (snd r).
Proof.
  intros Hlock Hopen Hinj r.
  set (w0 := set_peerLock true (log (Ev SocketClose true) w)).
  destruct (teardown_all_ok (map_to_list (a_peers w)) w0)
    as (w' & Hrun & Hall & _).
  { apply NoDup_fmap_2_strong; [|apply NoDup_map_to_list].
    intros [from1 p1] [from2 p2] H1%elem_of_map_to_list H2%elem_of_map_to_list Heq.
    cbn in Heq. assert (from1 = from2) as -> by eauto. congruence. }
  { intros [from p] Hx%elem_of_map_to_list. cbn. by eapply Hopen. }
  assert (r = (Returns tt, set_peerLock false w')) as ->.
  { subst r. unfold session_exit. unfold bind at 1.
    unfold must, lib_call, bind at 1. rewrite closes_ok by done.
    unfold ret at 1. unfold bind at 1. unfold Lock.
    change (peerLock (log (Ev SocketClose true) w)) with (peerLock w).
    rewrite Hlock. fold w0. unfold deferred, bind, get.
    change (a_peers w0) with (a_peers w). by rewrite Hrun. }
  split; [done|]. intros from p Hp.
  apply (Hall (from, p)). by apply elem_of_map_to_list.
Qed.

End Teardown.

Local Arguments teardown : simpl never.

Section Supersession.

Variable lib : list event -> call -> option error.
Variable uuid : nat -> string.
Variable description : handle -> string.
Variable a : Adapter.

(** An introduction from a peer that has an entry: if the handler
    returns, the old entry is torn down and the new one, with a fresh
    token and a fresh connection, is in the registry; if it panics or
    blocks, the registry is as it was. *)
Lemma introduction_supersedes id from old w :
  a_peers w !! from = Some old ->
  match handle_introduction lib uuid description a id from w with
  | (Returns _, w') =>
      torn_down old w'
      /\ exists new, a_peers w' !! from = Some new
                     /\ iid new = uuid (next_uuid w)
                     /\ conn new = next_handle w
  | (_, w') => a_peers w' = a_peers w
  end.
Proof.
  intros Hold. unfold handle_introduction.
  unfold bind at 1. unfold NewString at 1.
  unfold bind at 1. unfold fresh_handle at 1.
  cbn [next_handle set_next_uuid].
  repeat
    (unfold bind at 1;
     match goal with
     | |- context [must lib ?c ?w0] =>
         let H := fresh "Hmust" in
         pose proof (must_outcome lib c w0) as H;
         destruct (must lib c w0) as [[[]|?|] ?];
         [destruct H as (_ & _ & ? & ? & ?)
         |destruct H as (_ & _ & ? & _); cbn in *; congruence
         |done]
     | |- context [fresh_handle ?w0] => unfold fresh_handle at 1
     end).
  unfold bind at 1. unfold Lock.
  match goal with |- context [peerLock ?w0] => destruct (peerLock w0) eqn:Hlock end.
  { cbn in *. congruence. }
  unfold bind at 1. unfold bind at 1. unfold get.
  match goal with
  | |- context [a_peers ?w0 !! from] =>
      assert (a_peers w0 = a_peers w) as Hpeers by (cbn in *; congruence)
  end.
  rewrite Hpeers, Hold.
  match goal with
  | |- context [teardown lib old ?w0] =>
      pose proof (teardown_outcome lib old w0) as Hout;
      destruct (teardown lib old w0) as [[[]|?|] wtd]
  end; [| |done].
  2:{ destruct Hout as (_ & _ & Hpe & _). cbn in *. congruence. }
  destruct Hout as (Hdown & _).
  unfold bind, modify, Unlock, go_send_line. cbn.
  destruct (lines_closed wtd); cbn.
  all: split; [exact Hdown|]; eexists; split;
    [apply lookup_insert_eq | by split].
Qed.

(** When no library call fails, the lock is free and the candidates
    channel of an old entry is open, the introduction handler returns. *)
Lemma handle_introduction_returns id from w :
  (forall tr c, lib tr c = None) ->
  peerLock w = false ->
  (forall old, a_peers w !! from = Some old -> candidates old ∉ closed_chans w) ->
  fst (handle_introduction lib uuid description a id from w) = Returns tt.
Proof.
  intros Hlib Hlock Hopen. unfold handle_introduction.
  unfold bind, NewString, fresh_handle, must, lib_call, bind, ret, Lock, get.
  rewrite !Hlib. cbn. rewrite Hlock.
  match goal with
  | |- context [a_peers ?w0 !! from] => change (a_peers w0) with (a_peers w)
  end.
  destruct (a_peers w !! from) as [old|] eqn:Hold.
  - match goal with
    | |- context [teardown lib old ?w0] =>
        pose proof (teardown_returns lib (fun tr c _ => Hlib tr c) old w0
                      (Hopen old eq_refl)) as Hret;
        destruct (teardown lib old w0) as [o wtd]
    end.
    cbn in Hret. subst o. unfold modify, Unlock, go_send_line. cbn.
    by destruct (lines_closed wtd).
  - unfold modify, Unlock, go_send_line. cbn. by destruct (lines_closed w).
Qed.

End Supersession.

(** C3, refuted at the entry of ["B"] with a library whose channel close
    fails: the matching disconnect panics at the first close; the connection
    and the candidates channel are not closed and the entry stays in the
    registry, so the teardown has not run to completion. *)
Lemma teardown_aborted_by_close_error :
  let r := OnConnectionStateChange_introduction channel_close_fails "B" "1"
             PeerConnectionStateDisconnected world_with_B in
  fst r = Panics (PanicErr (ErrLib "channel close failed"))
  /\ trace (snd r) = Ev (ChannelClose 2) false :: trace world_with_B
  /\ closed_chans (snd r) = ∅
  /\ a_peers (snd r) !! "B" = Some entry_of_B
  /\ ~ torn_down entry_of_B (snd r).
Proof.
  assert (closed_chans
            (snd (OnConnectionStateChange_introduction channel_close_fails "B" "1"
                    PeerConnectionStateDisconnected world_with_B)) = ∅) as Hclosed
    by (vm_compute; reflexivity).
  cbv zeta. split; [vm_compute; reflexivity|]. split; [vm_compute; reflexivity|].
  split; [exact Hclosed|]. split; [vm_compute; reflexivity|].
  intros (_ & _ & Hq). rewrite Hclosed in Hq. by apply not_elem_of_empty in Hq.
Qed.

(** C3, amended: the teardown of an entry closes every channel of its
    map, its connection and its candidates channel, or it stops with a panic
    at the first close that returns an error, leaving the candidates channel
    as it was.  Supersession by an introduction tears the old entry
    down before the new one is in the registry, or panics or blocks with the
    registry unchanged.  When no close returns an error, the lock is free and
    the candidates channels of the registry are open and distinct, the
    introduction side's disconnect with the entry's token and the end of the
    session both return with the entries torn down. *)
Theorem teardown_closes_all_unless_a_close_fails
  (lib : list event -> call -> option error) (uuid : nat -> string)
  (description : handle -> string) (a : Adapter)
  (w : World) (from id : string) (p : peer) :
  a_peers w !! from = Some p ->
  (forall tr c, is_close c = true -> lib tr c = None) ->
  peerLock w = false ->
  (forall from' p', a_peers w !! from' = Some p' -> candidates p' ∉ closed_chans w) ->
  (forall from1 from2 p1 p2,
      a_peers w !! from1 = Some p1 -> a_peers w !! from2 = Some p2 ->
      candidates p1 = candidates p2 -> from1 = from2) ->
  (forall lib' p' w0,
      match teardown lib' p' w0 with
      | (Returns _, w') => torn_down p' w'
      | (Panics _, w') => closed_chans w' = closed_chans w0
      | (Blocks, _) => False
      end)
  /\ match handle_introduction lib uuid description a id from w with
     | (Returns _, w') =>
         torn_down p w'
         /\ exists new, a_peers w' !! from = Some new
                        /\ iid new = uuid (next_uuid w)
                        /\ conn new = next_handle w
     | (_, w') => a_peers w' = a_peers w
     end
  /\ fst (teardown lib p w) = Returns tt
  /\ (let r := OnConnectionStateChange_introduction lib from (iid p)
                 PeerConnectionStateDisconnected w in
      fst r = Returns tt
      /\ torn_down p (snd r)
      /\ a_peers (snd r) = delete from (a_peers w))
  /\ (let r := session_exit lib w in
      fst r = Returns tt
      /\ forall from' p', a_peers w !! from' = Some p' -> torn_down p' (snd r)).
Proof.
  intros Hp Hcloses Hlock Hopen Hdistinct. split; [|split; [|split; [|split]]].
  - intros lib' p' w0. pose proof (teardown_outcome lib' p' w0) as Hout.
    destruct (teardown lib' p' w0) as [[[]|pv|] w']; [by destruct Hout| |done].
    by destruct Hout as (_ & Hcl & _).
  - by apply introduction_supersedes.
  - apply teardown_returns; [done|]. by eapply Hopen.
  - apply disconnect_introduction_tears_down; try done. by eapply Hopen.
  - by apply session_exit_tears_down_all.
Qed.

Lemma world_with_B_peers : a_peers world_with_B = {["B" := entry_of_B]}.
Proof. vm_compute. reflexivity. Qed.

Lemma world_with_B_closed_chans : closed_chans world_with_B = ∅.
Proof. vm_compute. reflexivity. Qed.

Lemma teardown_closes_all_unless_a_close_fails_witness :
  torn_down entry_of_B (snd (teardown never_fails entry_of_B world_with_B))
  /\ fst (session_exit never_fails world_with_B) = Returns tt
  /\ a_peers (snd (OnConnectionStateChange_introduction never_fails "B" "1"
                     PeerConnectionStateDisconnected world_with_B))
     = delete "B" (a_peers world_with_B).
Proof.
  destruct (teardown_closes_all_unless_a_close_fails never_fails nth_uuid sdp_of
              example_adapter world_with_B "B" "0" entry_of_B)
    as (Hcore & _ & Hret & Hdisc & Hexit).
  - exact world_with_B_entry.
  - intros tr c _. reflexivity.
  - vm_compute. reflexivity.
  - intros from' p' _. rewrite world_with_B_closed_chans. apply not_elem_of_empty.
  - intros from1 from2 p1 p2. rewrite world_with_B_peers.
    intros [-> _]%lookup_singleton_Some [-> _]%lookup_singleton_Some _. reflexivity.
  - specialize (Hcore never_fails entry_of_B world_with_B).
    destruct (teardown never_fails entry_of_B world_with_B) as [[[]|pv|] w'];
      [|discriminate Hret..].
    split; [exact Hcore|]. split; [exact (proj1 Hexit) | exact (proj2 (proj2 Hdisc))].
Defined.

(** ** Supersession by an offer *)

(** C1, at the registry that holds the entry of ["B"] (created by the
    introduction of ["B"]) when an offer of ["B"] addressed to this client
    arrives: the offer handler returns with a new entry for ["B"] in the
    registry, and it has closed neither the data channel, nor the
    connection, nor the candidates channel of the old entry, which the
    specification requires before the new entry is installed; the
    introduction handler, in the same state, does tear the old entry down. *)
Theorem offer_replaces_entry_without_teardown :
  let r := handle_offer never_fails nth_uuid sdp_of "0" 0 "B" "0" "offer" world_with_B in
  a_peers world_with_B !! "B" = Some entry_of_B
  /\ fst r = Returns tt
  /\ a_peers (snd r) !! "B" = Some (mkPeer 4 5 ∅ "2")
  /\ trace (snd r)
     = ([Ev MarshalJSON true; Ev MarshalJSON true; Ev (SetLocalDescription 4) true;
         Ev (CreateAnswer 4) true; Ev (SetRemoteDescription 4) true;
         Ev (UnmarshalSDP "offer") true; Ev (NewPeerConnection 4) true]
        ++ trace world_with_B)%list
  /\ closed_chans (snd r) = ∅
  /\ ~ torn_down entry_of_B (snd r)
  /\ torn_down entry_of_B
       (snd (handle_introduction never_fails nth_uuid sdp_of example_adapter
               "0" "B" world_with_B)).
Proof.
  assert (closed_chans
            (snd (handle_offer never_fails nth_uuid sdp_of "0" 0 "B" "0" "offer"
                    world_with_B)) = ∅) as Hclosed
    by (vm_compute; reflexivity).
  cbv zeta. split; [exact world_with_B_entry|].
  split; [vm_compute; reflexivity|]. split; [vm_compute; reflexivity|].
  split; [vm_compute; reflexivity|]. split; [exact Hclosed|]. split.
  - intros (_ & _ & Hq). rewrite Hclosed in Hq. by apply not_elem_of_empty in Hq.
  - pose proof (introduction_supersedes never_fails nth_uuid sdp_of example_adapter
                  "0" "B" entry_of_B world_with_B world_with_B_entry) as Hsup.
    assert (fst (handle_introduction never_fails nth_uuid sdp_of example_adapter
                   "0" "B" world_with_B) = Returns tt) as Hret
      by (vm_compute; reflexivity).
    destruct (handle_introduction never_fails nth_uuid sdp_of example_adapter
                "0" "B" world_with_B) as [[[]|pv|] w']; [|discriminate Hret..].
    exact (proj1 Hsup).
Qed.

(** ** A stale disconnect *)

Lemma disconnect_with_other_iid_keeps_entry_witness :
  a_peers (snd (OnConnectionStateChange_introduction never_fails "B" "0"
                  PeerConnectionStateDisconnected world_with_B))
  = a_peers world_with_B
  /\ a_peers (snd (OnConnectionStateChange_offer never_fails "B" "0"
                     PeerConnectionStateDisconnected world_with_B))
     = a_peers world_with_B.
Proof.
  destruct (disconnect_with_other_iid_keeps_entry never_fails world_with_B "B" "0"
              PeerConnectionStateDisconnected) as [(H1 & _) (H2 & _)].
  - intros c Hc. rewrite world_with_B_entry in Hc. injection Hc as <-.
    vm_compute. discriminate.
  - exact (conj H1 H2).
Defined.

(** * Further properties *)

(** ** Splitting on a one-byte separator *)

Lemma string_app_nil (y : string) : "" ++ y = y.
Proof. reflexivity. Qed.

Lemma string_app_cons (c : ascii) (x y : string) : String c x ++ y = String c (x ++ y).
Proof. reflexivity. Qed.

Lemma string_app_assoc (x y z : string) : (x ++ y) ++ z = x ++ (y ++ z).
Proof.
  induction x as [|c x IH]; [done|]. rewrite !string_app_cons. by f_equal.
Qed.

Lemma string_app_empty_r (x : string) : x ++ "" = x.
Proof. induction x as [|c x IH]; [done|]. rewrite string_app_cons. by f_equal. Qed.

Lemma string_rev_app_app (x : string) : forall y z,
  String.rev_app x y ++ z = String.rev_app x (y ++ z).
Proof.
  induction x as [|c x IH]; intros y z; [done|].
  cbn [String.rev_app]. by rewrite IH.
Qed.

Lemma string_rev_cons (c : ascii) (x : string) :
  String.rev (String c x) = String.rev x ++ String c "".
Proof. unfold String.rev. cbn [String.rev_app]. by rewrite string_rev_app_app. Qed.

Lemma HasPrefix_single (c d : ascii) (s : string) :
  GoStrings.HasPrefix (String d s) (String c "") = Ascii.eqb c d.
Proof. cbn. destruct (Ascii.eqb c d); [by destruct s | done]. Qed.

Lemma Contains_single_cons (c d : ascii) (s : string) :
  GoStrings.Contains (String d s) (String c "")
  = Ascii.eqb c d || GoStrings.Contains s (String c "").
Proof.
  change (GoStrings.Contains (String d s) (String c ""))
    with (GoStrings.HasPrefix (String d s) (String c "")
          || GoStrings.Contains s (String c "")).
  by rewrite HasPrefix_single.
Qed.

Lemma Contains_single_app (c : ascii) (x y : string) :
  GoStrings.Contains (x ++ y) (String c "")
  = GoStrings.Contains x (String c "") || GoStrings.Contains y (String c "").
Proof.
  induction x as [|d x IH].
  - rewrite string_app_nil. by destruct y.
  - rewrite string_app_cons, !Contains_single_cons, IH. by rewrite orb_assoc.
Qed.

Lemma split_from_single_step (c d : ascii) (cur s : string) :
  GoStrings.split_from (String c "") 0 cur (String d s)
  = if Ascii.eqb c d
    then String.rev cur :: GoStrings.split_from (String c "") 0 "" s
    else GoStrings.split_from (String c "") 0 (String d cur) s.
Proof.
  cbn [GoStrings.split_from]. rewrite HasPrefix_single.
  by destruct (Ascii.eqb c d).
Qed.

(** A string without the separator is one piece. *)
Lemma split_from_single_absent (c : ascii) (s : string) : forall cur,
  GoStrings.Contains s (String c "") = false ->
  GoStrings.split_from (String c "") 0 cur s = [String.rev cur ++ s].
Proof.
  induction s as [|d s IH]; intros cur Hno.
  - cbn. by rewrite string_app_empty_r.
  - rewrite Contains_single_cons in Hno. apply orb_false_elim in Hno as [Hcd Hno].
    rewrite split_from_single_step, Hcd, (IH _ Hno), string_rev_cons.
    by rewrite string_app_assoc.
Qed.

(** Up to the first separator is the first piece; the splitting goes on
    behind it. *)
Lemma split_from_single_app (c : ascii) (x y : string) : forall cur,
  GoStrings.Contains x (String c "") = false ->
  GoStrings.split_from (String c "") 0 cur (x ++ String c y)
  = (String.rev cur ++ x) :: GoStrings.split_from (String c "") 0 "" y.
Proof.
  induction x as [|d x IH]; intros cur Hno.
  - rewrite string_app_nil, split_from_single_step, Ascii.eqb_refl.
    by rewrite string_app_empty_r.
  - rewrite Contains_single_cons in Hno. apply orb_false_elim in Hno as [Hcd Hno].
    rewrite string_app_cons, split_from_single_step, Hcd, (IH _ Hno), string_rev_cons.
    by rewrite string_app_assoc.
Qed.

Lemma Split_single_absent (c : ascii) (s : string) :
  GoStrings.Contains s (String c "") = false ->
  GoStrings.Split s (String c "") = [s].
Proof. intros Hno. unfold GoStrings.Split. by rewrite split_from_single_absent. Qed.

Lemma Split_single_app (c : ascii) (x y : string) :
  GoStrings.Contains x (String c "") = false ->
  GoStrings.Split (x ++ String c y) (String c "")
  = x :: GoStrings.Split y (String c "").
Proof. intros Hno. unfold GoStrings.Split. by rewrite split_from_single_app. Qed.

Lemma split_from_single_present (c : ascii) (s : string) : forall cur,
  GoStrings.Contains s (String c "") = true ->
  (2 <= length (GoStrings.split_from (String c "") 0 cur s))%nat.
Proof.
  induction s as [|d s IH]; intros cur Hyes; [done|].
  rewrite Contains_single_cons in Hyes. rewrite split_from_single_step.
  destruct (Ascii.eqb c d).
  - cbn [length]. pose proof (split_from_nonempty (String c "") s 0 ""). lia.
  - by apply IH.
Qed.

(** [Split] on one byte returns a single piece exactly when the byte does
    not occur. *)
Lemma Split_single_length (c : ascii) (s : string) :
  (length (GoStrings.Split s (String c "")) < 2)%nat
  <-> GoStrings.Contains s (String c "") = false.
Proof.
  split.
  - intros Hlen. destruct (GoStrings.Contains s (String c "")) eqn:Hc; [|done].
    pose proof (split_from_single_present c s "" Hc). unfold GoStrings.Split in Hlen. lia.
  - intros Hno. rewrite Split_single_absent by done. cbn. lia.
Qed.

(** ** The ICE-server list, further *)

(** X1: the loop of [Open] takes the entries from left to right, and the
    first entry that stops it decides the result: what a list gives is what
    its second part gives from the servers of the first part, or what
    stopped the first part. *)
Theorem Open_iceServers_app (entries1 entries2 : list string) (servers : list ICEServer) :
  Open_iceServers (entries1 ++ entries2)%list servers
  = match Open_iceServers entries1 servers with
    | IceServers servers1 => Open_iceServers entries2 servers1
    | stop => stop
    end.
Proof.
  revert servers. induction entries1 as [|entry rest IH]; intros servers; [done|].
  cbn [app Open_iceServers].
  destruct (Open_ice_entry entry) as [[new|e|pv]|]; by rewrite ?IH.
Qed.

(** X2: when every entry is blank or has ["stun:"] in it, [Open] gets
    past the loop with one URL-only descriptor per entry that is not blank,
    in the order of the entries, the whole entry being the URL. *)
Theorem Open_iceServers_stun (entries : list string) (servers : list ICEServer) :
  Forall (fun entry => GoStrings.TrimSpace entry = ""
                       \/ GoStrings.Contains entry "stun:" = true) entries ->
  Open_iceServers entries servers
  = IceServers (servers
                ++ map stun_server
                     (filter (fun entry => GoStrings.TrimSpace entry <> "") entries))%list.
Proof.
  intros Hall. revert servers.
  induction Hall as [|entry rest Hentry _ IH]; intros servers.
  - cbn. by rewrite app_nil_r.
  - cbn [Open_iceServers]. unfold Open_ice_entry.
    destruct (decide (GoStrings.TrimSpace entry = "")) as [Hblank|Hfull].
    + rewrite IH. by rewrite filter_cons_False by (intros H; by apply H).
    + destruct Hentry as [?|Hstun]; [done|]. rewrite Hstun, IH.
      rewrite filter_cons_True by done. cbn [map].
      by rewrite <- app_assoc.
Qed.

Lemma Open_iceServers_stun_witness :
  Open_iceServers ["  "; "stun:stun.l.google.com:19302"; ""; "x@stun:y"] []
  = IceServers [stun_server "stun:stun.l.google.com:19302"; stun_server "x@stun:y"].
Proof.
  refine (Open_iceServers_stun
            ["  "; "stun:stun.l.google.com:19302"; ""; "x@stun:y"] [] _).
  repeat (apply List.Forall_cons;
          [first [left; vm_compute; reflexivity | right; vm_compute; reflexivity]|]).
  apply List.Forall_nil.
Defined.

(** X3: an entry that is not blank and has no ["stun:"] in it stops the
    loop with [ErrInvalidTURNServerAddr] exactly when it has no [@]. *)
Theorem Open_ice_entry_invalid_addr_iff (entry : string) :
  GoStrings.TrimSpace entry <> "" ->
  GoStrings.Contains entry "stun:" = false ->
  Open_ice_entry entry = Some (IceError ErrInvalidTURNServerAddr)
  <-> GoStrings.Contains entry "@" = false.
Proof.
  intros Hblank Hstun. rewrite <- (Split_single_length "@" entry).
  unfold Open_ice_entry.
  destruct (decide (GoStrings.TrimSpace entry = "")) as [?|_]; [done|].
  rewrite Hstun.
  destruct (Nat.ltb_spec (length (GoStrings.Split entry "@")) 2) as [Hlt|Hge].
  - done.
  - split; [|lia]. intros Hres. exfalso.
    destruct (GoStrings.Split entry "@" !! 1); [|done].
    destruct (GoStrings.Split (nth 0 (GoStrings.Split entry "@") "") ":" !! 0); [|done].
    by destruct (GoStrings.Split (nth 0 (GoStrings.Split entry "@") "") ":" !! 1).
Qed.

Lemma Open_ice_entry_invalid_addr_iff_witness :
  Open_ice_entry "turn.example.com:3478" = Some (IceError ErrInvalidTURNServerAddr).
Proof.
  refine (proj2 (Open_ice_entry_invalid_addr_iff "turn.example.com:3478" _ _) _).
  - vm_compute. discriminate.
  - vm_compute. reflexivity.
  - vm_compute. reflexivity.
Defined.

(** X4: the entry [user:credential@url] gives back its three parts as a
    TURN descriptor with a password credential, when neither [user] nor
    [credential] has a colon or an [@] in it and [url] has no [@] (the entry
    being neither blank nor a STUN entry). *)
Theorem Open_ice_entry_turn_entry (user credential url : string) :
  GoStrings.Contains user ":" = false ->
  GoStrings.Contains user "@" = false ->
  GoStrings.Contains credential ":" = false ->
  GoStrings.Contains credential "@" = false ->
  GoStrings.Contains url "@" = false ->
  GoStrings.TrimSpace (turn_entry user credential url) <> "" ->
  GoStrings.Contains (turn_entry user credential url) "stun:" = false ->
  Open_ice_entry (turn_entry user credential url)
  = Some (IceServers [turn_server url user credential]).
Proof.
  intros Hu1 Hu2 Hc1 Hc2 Hurl Hblank Hstun.
  assert (turn_entry user credential url = (user ++ ":" ++ credential) ++ String "@" url)
    as Hentry.
  { unfold turn_entry. by rewrite !string_app_assoc. }
  assert (GoStrings.Split (turn_entry user credential url) "@"
          = [user ++ ":" ++ credential; url]) as Haddr.
  { rewrite Hentry, Split_single_app, Split_single_absent; [done..|].
    rewrite Contains_single_app, Hu2. cbn [orb].
    change (":" ++ credential) with (String ":" "" ++ credential).
    rewrite Contains_single_app, Hc2. reflexivity. }
  assert (GoStrings.Split (user ++ ":" ++ credential) ":" = [user; credential]) as Hauth.
  { change (":" ++ credential) with (String ":" credential).
    by rewrite Split_single_app, Split_single_absent. }
  apply Open_ice_entry_turn; rewrite ?Haddr; try done; cbn [nth]; by rewrite Hauth.
Qed.

Lemma Open_ice_entry_turn_entry_witness :
  Open_ice_entry "user:secret@turn.example.com:3478"
  = Some (IceServers [turn_server "turn.example.com:3478" "user" "secret"]).
Proof.
  refine (Open_ice_entry_turn_entry "user" "secret" "turn.example.com:3478"
            _ _ _ _ _ _ _);
    vm_compute; first [reflexivity | discriminate].
Defined.

(** ** Frames that the session loop drops *)

Section Dropped.

Variable lib : list event -> call -> option error.
Variable uuid : nat -> string.
Variable description : handle -> string.
Variable a : Adapter.

(** X6: a frame that does not decrypt or parse, a frame of an unknown
    type, and an offer, answer or candidate addressed to another client leave
    the adapter exactly as it was: nothing is called, nothing panics and the
    session goes on. *)
Theorem dropped_input_changes_nothing (w : World) (id : string) (errs : handle)
  (input : inbound) :
  a_phase w = InSession id errs ->
  crashed w = None ->
  dropped id input = true ->
  step lib uuid description a (RecvInput input) w = w.
Proof.
  intros Hphase Hcrashed Hdropped. unfold step. rewrite Hcrashed, Hphase.
  unfold in_loop.
  destruct input as [| | |[from|from to payload|from to payload|from to payload]];
    cbn in Hdropped; try done; cbn [case_input];
    apply negb_true_iff, String.eqb_neq in Hdropped.
  - unfold handle_offer. by destruct (decide (to = id)).
  - unfold handle_answer. by destruct (decide (to = id)).
  - unfold handle_candidate. by destruct (decide (to = id)).
Qed.

(** X7: a candidate or an answer addressed to this client from a peer
    that has no entry in the registry is dropped: the adapter is exactly as
    it was. *)
Theorem unknown_peer_changes_nothing (w : World) (id from payload : string)
  (errs : handle) :
  a_phase w = InSession id errs ->
  crashed w = None ->
  peerLock w = false ->
  a_peers w !! from = None ->
  step lib uuid description a (RecvInput (Envelope (Candidate from id payload))) w = w
  /\ step lib uuid description a (RecvInput (Envelope (Answer from id payload))) w = w.
Proof.
  intros Hphase Hcrashed Hlock Hnone.
  assert (set_peerLock false (set_peerLock true w) = w) as Hsame.
  { destruct w. cbn in *. by subst. }
  unfold step. rewrite Hcrashed, Hphase. unfold in_loop. cbn [case_input].
  unfold handle_candidate, handle_answer.
  destruct (decide (id = id)) as [_|]; [|done].
  unfold bind, Lock, get, Unlock, modify, ret. rewrite Hlock.
  change (a_peers (set_peerLock true w)) with (a_peers w). rewrite Hnone.
  by rewrite Hsame.
Qed.

End Dropped.

Lemma dropped_input_changes_nothing_witness :
  step never_fails nth_uuid sdp_of example_adapter
    (RecvInput (Envelope (Offer "B" "C" "offer"))) world_with_B
  = world_with_B.
Proof.
  refine (dropped_input_changes_nothing never_fails nth_uuid sdp_of example_adapter
            world_with_B "0" 0 (Envelope (Offer "B" "C" "offer")) _ _ _);
    vm_compute; reflexivity.
Defined.

Lemma unknown_peer_changes_nothing_witness :
  step never_fails nth_uuid sdp_of example_adapter
    (RecvInput (Envelope (Candidate "C" "0" "candidate:1"))) world_with_B
  = world_with_B.
Proof.
  refine (proj1 (unknown_peer_changes_nothing never_fails nth_uuid sdp_of example_adapter
                   world_with_B "0" "C" "candidate:1" 0 _ _ _ _));
    vm_compute; reflexivity.
Defined.

(** ** Data channels of an entry *)

Section Channels.

Variable lib : list event -> call -> option error.
Variable uuid : nat -> string.
Variable description : handle -> string.
Variable a : Adapter.

(** X9: the open or the close event of a data channel for a peer that has
    no entry in the registry dereferences nil: the callback panics and
    nothing recovers it.  The open event leaves the registry lock held, the
    close event releases it. *)
Theorem channel_event_without_entry_crashes (w : World) (from : string)
  (dc : DataChannel) :
  a_peers w !! from = None ->
  peerLock w = false ->
  crashed w = None ->
  let opened := step lib uuid description a (ChannelOpened from dc) w in
  let closed := step lib uuid description a (ChannelClosed from dc) w in
  (crashed opened = Some PanicNilDereference /\ peerLock opened = true
   /\ a_peers opened = a_peers w /\ trace opened = trace w)
  /\ (crashed closed = Some PanicNilDereference /\ peerLock closed = false
      /\ a_peers closed = a_peers w /\ trace closed = trace w).
Proof.
  intros Hnone Hlock Hcrashed. unfold step. rewrite Hcrashed.
  assert (in_callback (OnOpen from dc) w
          = set_crashed PanicNilDereference (set_peerLock true w)) as Ho.
  { unfold in_callback, OnOpen, bind, Lock, get, panic. rewrite Hlock.
    change (a_peers (set_peerLock true w)) with (a_peers w). by rewrite Hnone. }
  assert (in_callback (OnClose lib from dc) w
          = set_crashed PanicNilDereference (set_peerLock false (set_peerLock true w)))
    as Hc.
  { unfold in_callback, OnClose, bind, Lock, deferred, get, panic, Unlock, modify.
    rewrite Hlock. change (a_peers (set_peerLock true w)) with (a_peers w).
    by rewrite Hnone. }
  destruct (a_phase w); cbn zeta; rewrite Ho, Hc; done.
Qed.

(** X10: the offer side's disconnect with the token of the stored entry
    closes the entry's connection (twice) and its candidates channel and
    takes the entry out of the registry; it closes none of the entry's data
    channels. *)
Theorem disconnect_offer_side_matching (w : World) (from : string) (c : peer) :
  a_peers w !! from = Some c ->
  peerLock w = false ->
  candidates c ∉ closed_chans w ->
  (forall tr, lib tr (ConnClose (conn c)) = None) ->
  let r := OnConnectionStateChange_offer lib from (iid c)
             PeerConnectionStateDisconnected w in
  fst r = Returns tt
  /\ a_peers (snd r) = delete from (a_peers w)
  /\ closed_chans (snd r) = {[candidates c]} ∪ closed_chans w
  /\ trace (snd r) = Ev (ConnClose (conn c)) true :: Ev (ConnClose (conn c)) true :: trace w
  /\ peerLock (snd r) = false.
Proof.
  intros Hc Hlock Hopen Hclose r. subst r.
  unfold OnConnectionStateChange_offer, bind, Lock, deferred, get. rewrite Hlock.
  change (a_peers (set_peerLock true w)) with (a_peers w). rewrite Hc.
  destruct (decide (iid c = iid c)) as [_|]; [|done].
  unfold teardown_offer_side, bind, must, lib_call, bind, ret, close_chan.
  rewrite !Hclose. cbn.
  by destruct (decide (candidates c ∈ closed_chans w)).
Qed.

(** X11: a local ICE candidate that is found when the outbound channel is
    closed (after [Close]) makes its goroutine send on a closed channel: the
    panic is not recovered. *)
Theorem candidate_found_after_Close_crashes (w : World) (id from candidate : string) :
  lines_closed w = true ->
  crashed w = None ->
  (forall tr, lib tr MarshalJSON = None) ->
  crashed (step lib uuid description a (ICECandidateFound id from candidate) w)
  = Some PanicSendOnClosedChannel.
Proof.
  intros Hclosed Hcrashed Hmarshal. unfold step. rewrite Hcrashed.
  assert (in_callback (OnICECandidate lib id from candidate) w
          = set_crashed PanicSendOnClosedChannel (log (Ev MarshalJSON true) w)) as Hcb.
  { unfold in_callback, OnICECandidate, bind, must, lib_call, bind, ret, go_send_line.
    rewrite Hmarshal. cbn. by rewrite Hclosed. }
  destruct (a_phase w); by rewrite Hcb.
Qed.

End Channels.

Lemma channel_event_without_entry_crashes_witness :
  crashed (step never_fails nth_uuid sdp_of example_adapter
             (ChannelOpened "B" primary_of_B) world_without_B)
  = Some PanicNilDereference.
Proof.
  refine (proj1 (proj1 (channel_event_without_entry_crashes never_fails nth_uuid sdp_of
                          example_adapter world_without_B "B" primary_of_B _ _ _)));
    vm_compute; reflexivity.
Defined.

Lemma disconnect_offer_side_matching_witness :
  a_peers (snd (OnConnectionStateChange_offer never_fails "B" "1"
                  PeerConnectionStateDisconnected world_offered_by_B))
  = delete "B" (a_peers world_offered_by_B).
Proof.
  refine (proj1 (proj2 (disconnect_offer_side_matching never_fails world_offered_by_B
                          "B" offered_entry_of_B _ _ _ _))).
  - vm_compute. reflexivity.
  - vm_compute. reflexivity.
  - apply (proj1 (bool_decide_eq_false _)). vm_compute. reflexivity.
  - reflexivity.
Defined.

Lemma candidate_found_after_Close_crashes_witness :
  crashed (step never_fails nth_uuid sdp_of example_adapter
             (ICECandidateFound "0" "B" "candidate:2") world_closed)
  = Some PanicSendOnClosedChannel.
Proof.
  refine (candidate_found_after_Close_crashes never_fails nth_uuid sdp_of example_adapter
            world_closed "0" "B" "candidate:2" _ _ _).
  - vm_compute. reflexivity.
  - vm_compute. reflexivity.
  - reflexivity.
Defined.

(** ** A close error while an entry is superseded *)

Section Blocking.

Variable lib : list event -> call -> option error.
Variable uuid : nat -> string.
Variable description : handle -> string.
Variable a : Adapter.

Lemma teardown_panics_when_conn_close_fails (p : peer) (w : World) (e : error) :
  (forall tr, lib tr (ConnClose (conn p)) = Some e) ->
  exists pv w', teardown lib p w = (Panics pv, w') /\ only_calls w w'.
Proof.
  intros Hfail. unfold teardown, bind.
  pose proof (close_channels_outcome lib (map_to_list (channels p)) w) as Hch.
  destruct (close_channels lib (map_to_list (channels p)) w) as [[[]|pv|] w1]; [| |done].
  - destruct Hch as (_ & Htr & Hcl & Hpe & Hlk).
    unfold must, lib_call, bind, panic. rewrite Hfail.
    eexists _, _. split; [reflexivity|]. repeat split; try done.
    intros ev Hev. cbn. apply elem_of_cons. right. by apply Htr.
  - by eexists _, _.
Qed.

(** The introduction handler takes the registry lock without deferring
    the unlock: a panic of the teardown leaves the lock held. *)
Lemma handle_introduction_leaves_lock_held (w : World) (id from : string)
  (old : peer) (e : error) :
  a_peers w !! from = Some old ->
  peerLock w = false ->
  (forall tr c, is_close c = false -> lib tr c = None) ->
  (forall tr, lib tr (ConnClose (conn old)) = Some e) ->
  exists pv w',
    handle_introduction lib uuid description a id from w = (Panics pv, w')
    /\ peerLock w' = true
    /\ a_peers w' = a_peers w.
Proof.
  intros Hold Hlock Hok Hfail. unfold handle_introduction.
  unfold bind, NewString, fresh_handle, must, lib_call, bind, ret, Lock, get.
  rewrite !Hok by reflexivity. cbn. rewrite Hlock.
  match goal with
  | |- context [a_peers ?w0 !! from] => change (a_peers w0) with (a_peers w)
  end.
  rewrite Hold.
  match goal with
  | |- context [teardown lib old ?w0] =>
      destruct (teardown_panics_when_conn_close_fails old w0 e Hfail)
        as (pv & w' & Htd & _ & _ & Hpe & Hlk)
  end.
  rewrite Htd. by eexists _, _.
Qed.

(** With the lock held, the deferred functions of the session block. *)
Lemma unwind_blocks_when_lock_held (dialed : bool) (w : World) :
  peerLock w = true ->
  exists w', unwind lib dialed w = set_phase LoopBlocked w'
             /\ a_peers w' = a_peers w /\ peerLock w' = true.
Proof.
  intros Hlk.
  assert (forall w0, peerLock w0 = true -> loop_defer w0 = (Blocks, w0)) as Hdefer.
  { intros w0 Hw0. unfold loop_defer, bind, Lock. by rewrite Hw0. }
  unfold unwind. destruct dialed.
  - unfold session_exit. unfold bind at 1.
    pose proof (must_outcome lib SocketClose w) as Hsock.
    destruct (must lib SocketClose w) as [[[]|pv|] w1]; [| |done].
    + destruct Hsock as (_ & _ & _ & Hpe & Hlk1).
      unfold bind, Lock. rewrite Hlk1, Hlk. exists w1. split; [done|]. split; congruence.
    + destruct Hsock as (_ & _ & Hpe & Hlk1).
      rewrite Hdefer by congruence. exists w1. split; [done|]. split; congruence.
  - unfold ret. rewrite Hdefer by done. exists w. by repeat split.
Qed.

(** X12: when the introduction of a peer that has an entry arrives and
    closing the old entry's connection fails, the panic unwinds the session
    with the registry lock still held; the deferred function of the session
    then waits for that lock for ever: the loop of [Open] is blocked, it
    never reconnects, and the old entry stays in the registry. *)
Theorem close_error_in_introduction_blocks_loop (w : World) (id from : string)
  (errs : handle) (old : peer) (e : error) :
  a_phase w = InSession id errs ->
  crashed w = None ->
  a_peers w !! from = Some old ->
  peerLock w = false ->
  (forall tr c, is_close c = false -> lib tr c = None) ->
  (forall tr, lib tr (ConnClose (conn old)) = Some e) ->
  let w' := step lib uuid description a (RecvInput (Envelope (Introduction from))) w in
  a_phase w' = LoopBlocked
  /\ peerLock w' = true
  /\ a_peers w' !! from = Some old.
Proof.
  intros Hphase Hcrashed Hold Hlock Hok Hfail w'. subst w'.
  unfold step. rewrite Hcrashed, Hphase. unfold in_loop. cbn [case_input].
  destruct (handle_introduction_leaves_lock_held w id from old e Hold Hlock Hok Hfail)
    as (pv & w1 & Hrun & Hlk & Hpe).
  rewrite Hrun.
  destruct (unwind_blocks_when_lock_held true w1 Hlk) as (w2 & Hunwind & Hpe2 & Hlk2).
  rewrite Hunwind. cbn. split; [done|]. split; [done|]. by rewrite Hpe2, Hpe.
Qed.

End Blocking.

Lemma close_error_in_introduction_blocks_loop_witness :
  a_phase (step conn_close_fails nth_uuid sdp_of example_adapter
             (RecvInput (Envelope (Introduction "B"))) world_with_B)
  = LoopBlocked.
Proof.
  refine (proj1 (close_error_in_introduction_blocks_loop conn_close_fails nth_uuid sdp_of
                   example_adapter world_with_B "0" "B" 0 entry_of_B
                   (ErrLib "connection close failed") _ _ _ _ _ _)).
  - vm_compute. reflexivity.
  - vm_compute. reflexivity.
  - exact world_with_B_entry.
  - vm_compute. reflexivity.
  - intros tr c Hc. by destruct c.
  - reflexivity.
Defined.

(** ** Start and end of a session *)

Section Sessions.

Variable lib : list event -> call -> option error.
Variable uuid : nat -> string.
Variable description : handle -> string.
Variable a : Adapter.

(** X13: when the dial and the set-up succeed, the session runs under the
    configured [ID], or under a fresh identifier when that is blank; the
    same identity is handed to the host on [ids] and named in the
    introduction, which is the one line that the set-up leaves to be sent. *)
Theorem session_start_identity (w : World) :
  a_phase w = AtLoopTop ->
  crashed w = None ->
  a_done w = false ->
  ctx_cancelled w = false ->
  lines_closed w = false ->
  (forall tr c, c = Dial \/ c = SetReadDeadline \/ c = MarshalJSON -> lib tr c = None) ->
  let id := if decide (GoStrings.TrimSpace (ID (config a)) = "")
            then uuid (next_uuid w) else ID (config a) in
  let w' := step lib uuid description a LoopTop w in
  a_phase w' = InSession id (next_handle w)
  /\ trace w' = (Ev MarshalJSON true :: Ev (SendID id) true
                 :: Ev SetReadDeadline true :: Ev Dial true :: trace w)
  /\ lines_senders w' = (lines_senders w ++ [Marshalled (Introduction id)])%list
  /\ a_peers w' = a_peers w.
Proof.
  intros Hphase Hcrashed Hdone Hctx Hlines Hok id w'. subst w' id.
  unfold step. rewrite Hcrashed, Hphase. unfold loop_top. rewrite Hdone.
  unfold dial, bind, get, must, lib_call, bind, ret. rewrite Hctx.
  rewrite (Hok _ Dial) by auto. cbn.
  unfold session_setup, bind, must, lib_call, bind, ret, fresh_handle. cbn.
  rewrite (Hok _ SetReadDeadline) by auto. cbn.
  destruct (decide (GoStrings.TrimSpace (ID (config a)) = "")); cbn;
    rewrite (Hok _ MarshalJSON) by auto; cbn;
    unfold go_send_line; cbn; rewrite Hlines; done.
Qed.

(** X14: when the dial fails, because the context is cancelled or the
    dialer returns an error, no session starts: nothing but the dial is
    called (no socket is closed), the registry is reset to empty and the
    loop of [Open] is back at its top. *)
Theorem dial_failure_goes_round (w : World) (e : error) :
  a_phase w = AtLoopTop ->
  crashed w = None ->
  a_done w = false ->
  peerLock w = false ->
  ctx_cancelled w = true \/ (forall tr, lib tr Dial = Some e) ->
  let w' := step lib uuid description a LoopTop w in
  a_phase w' = AtLoopTop
  /\ trace w' = Ev Dial false :: trace w
  /\ a_peers w' = ∅
  /\ peerLock w' = false.
Proof.
  intros Hphase Hcrashed Hdone Hlock Hfail w'. subst w'.
  unfold step. rewrite Hcrashed, Hphase. unfold loop_top. rewrite Hdone.
  assert (exists pv, dial lib w = (Panics pv, log (Ev Dial false) w)) as [pv Hdial].
  { unfold dial, bind, get, modify, panic, must, lib_call, bind.
    destruct (ctx_cancelled w) eqn:Hctx; [by eexists|].
    destruct Hfail as [?|Hfail]; [done|]. rewrite Hfail. by eexists. }
  rewrite Hdial. unfold unwind, ret, loop_defer, bind, Lock, modify, Unlock. cbn.
  by rewrite Hlock.
Qed.

Lemma session_exit_result (w : World) :
  (forall tr c, is_close c = true -> lib tr c = None) ->
  peerLock w = false ->
  (forall from p, a_peers w !! from = Some p -> candidates p ∉ closed_chans w) ->
  (forall from1 from2 p1 p2,
      a_peers w !! from1 = Some p1 -> a_peers w !! from2 = Some p2 ->
      candidates p1 = candidates p2 -> from1 = from2) ->
  exists w',
    session_exit lib w = (Returns tt, w')
    /\ peerLock w' = false
    /\ Ev SocketClose true ∈ trace w'
    /\ forall from p, a_peers w !! from = Some p -> torn_down p w'.
Proof.
  intros Hcloses Hlock Hopen Hinj.
  set (w0 := set_peerLock true (log (Ev SocketClose true) w)).
  destruct (teardown_all_ok lib Hcloses (map_to_list (a_peers w)) w0)
    as (w' & Hrun & Hall & Htr & _).
  { apply NoDup_fmap_2_strong; [|apply NoDup_map_to_list].
    intros [from1 p1] [from2 p2] H1%elem_of_map_to_list H2%elem_of_map_to_list Heq.
    cbn in Heq. assert (from1 = from2) as -> by eauto. congruence. }
  { intros [from p] Hx%elem_of_map_to_list. cbn. by eapply Hopen. }
  exists (set_peerLock false w'). split; [|split; [done|split]].
  - unfold session_exit. unfold bind at 1.
    unfold must, lib_call, bind at 1. rewrite Hcloses by done.
    unfold ret at 1. unfold bind at 1. unfold Lock.
    change (peerLock (log (Ev SocketClose true) w)) with (peerLock w).
    rewrite Hlock. fold w0. unfold deferred, bind, get.
    change (a_peers w0) with (a_peers w). by rewrite Hrun.
  - apply Htr. apply elem_of_cons. by left.
  - intros from p Hp. apply (Hall (from, p)). by apply elem_of_map_to_list.
Qed.

(** X15: a keepalive ping that cannot be written ends the session: the
    socket is closed, every entry of the registry is torn down (no close
    failing, the candidates channels being open and distinct), the registry
    is reset to empty, and the loop of [Open] is back at its top, free to
    dial again. *)
Theorem failed_ping_ends_session (w : World) (id : string) (errs : handle) (e : error) :
  a_phase w = InSession id errs ->
  crashed w = None ->
  peerLock w = false ->
  (forall tr c, is_close c = true -> lib tr c = None) ->
  (forall tr, lib tr SetWriteDeadline = None) ->
  (forall tr, lib tr WritePing = Some e) ->
  (forall from p, a_peers w !! from = Some p -> candidates p ∉ closed_chans w) ->
  (forall from1 from2 p1 p2,
      a_peers w !! from1 = Some p1 -> a_peers w !! from2 = Some p2 ->
      candidates p1 = candidates p2 -> from1 = from2) ->
  let w' := step lib uuid description a Tick w in
  a_phase w' = AtLoopTop
  /\ a_peers w' = ∅
  /\ peerLock w' = false
  /\ Ev SocketClose true ∈ trace w'
  /\ forall from p, a_peers w !! from = Some p -> torn_down p w'.
Proof.
  intros Hphase Hcrashed Hlock Hcloses Hdeadline Hping Hopen Hinj w'. subst w'.
  unfold step. rewrite Hcrashed, Hphase. unfold in_loop.
  set (w1 := log (Ev WritePing false) (log (Ev SetWriteDeadline true) w)).
  assert (case_ping lib w = (Panics (PanicErr e), w1)) as Hcase.
  { unfold case_ping, bind, must, lib_call, bind, ret, panic.
    rewrite Hdeadline. cbn. by rewrite Hping. }
  rewrite Hcase.
  destruct (session_exit_result w1 Hcloses Hlock Hopen Hinj)
    as (w2 & Hexit & Hlk2 & Hsock & Hdown).
  unfold unwind. rewrite Hexit.
  unfold loop_defer, bind, Lock, modify, Unlock. rewrite Hlk2. cbn.
  split; [done|]. split; [done|]. split; [done|]. split; [done|].
  intros from p Hp. exact (Hdown from p Hp).
Qed.

End Sessions.

Lemma session_start_identity_witness :
  a_phase (step never_fails nth_uuid sdp_of example_adapter LoopTop new_world)
  = InSession "0" 0.
Proof.
  refine (proj1 (session_start_identity never_fails nth_uuid sdp_of example_adapter
                   new_world _ _ _ _ _ _)); reflexivity.
Defined.

Lemma dial_failure_goes_round_witness :
  trace (step dial_fails nth_uuid sdp_of example_adapter LoopTop new_world)
  = [Ev Dial false].
Proof.
  refine (proj1 (proj2 (dial_failure_goes_round dial_fails nth_uuid sdp_of example_adapter
                          new_world (ErrLib "dial failed") _ _ _ _ _)));
    first [reflexivity | right; reflexivity].
Defined.

Lemma failed_ping_ends_session_witness :
  a_peers (step ping_fails nth_uuid sdp_of example_adapter Tick world_with_B) = ∅
  /\ torn_down entry_of_B (step ping_fails nth_uuid sdp_of example_adapter Tick world_with_B).
Proof.
  destruct (failed_ping_ends_session ping_fails nth_uuid sdp_of example_adapter
              world_with_B "0" 0 (ErrLib "write failed"))
    as (_ & Hempty & _ & _ & Hdown).
  - vm_compute. reflexivity.
  - vm_compute. reflexivity.
  - vm_compute. reflexivity.
  - intros tr c Hc. by destruct c.
  - reflexivity.
  - reflexivity.
  - intros from p _. rewrite world_with_B_closed_chans. apply not_elem_of_empty.
  - intros from1 from2 p1 p2. rewrite world_with_B_peers.
    intros [-> _]%lookup_singleton_Some [-> _]%lookup_singleton_Some _. reflexivity.
  - split; [exact Hempty|]. exact (Hdown "B" entry_of_B world_with_B_entry).
Defined.

(** ** The registry stays sound *)

Lemma registry_sound_of_grow peers closed next next' ph :
  next <= next' ->
  registry_sound_of peers closed next ph -> registry_sound_of peers closed next' ph.
Proof.
  intros Hle (HA & HB & HD & HE & HF). repeat split; try done.
  - intros q Hq. specialize (HA q Hq). lia.
  - destruct (HB from p H). lia.
  - by destruct (HB from p H).
  - destruct (HE id errs H). lia.
  - by destruct (HE id errs H).
Qed.

Lemma registry_sound_of_blocked peers closed next ph :
  registry_sound_of peers closed next ph -> registry_sound_of peers closed next LoopBlocked.
Proof.
  intros (HA & HB & HD & HE & HF). repeat split; try done.
  - by destruct (HB from p).
  - by destruct (HB from p).
  - by intros [|].
Qed.

Lemma registry_sound_of_cleared closed next :
  (forall q, q ∈ closed -> q < next) ->
  registry_sound_of ∅ closed next AtLoopTop.
Proof. intros HA. repeat split; try done. Qed.

Lemma registry_sound_of_returned peers closed next :
  registry_sound_of peers closed next AtLoopTop ->
  registry_sound_of peers closed next LoopReturned.
Proof.
  intros (HA & HB & HD & HE & HF). repeat split; try done.
  - by destruct (HB from p).
  - by destruct (HB from p).
  - intros _. apply HF. by left.
Qed.

(** An entry is taken out and its candidates channel is closed. *)
Lemma registry_sound_of_delete peers closed next ph from p :
  peers !! from = Some p ->
  registry_sound_of peers closed next ph ->
  registry_sound_of (delete from peers) ({[candidates p]} ∪ closed) next ph.
Proof.
  intros Hp (HA & HB & HD & HE & HF). split; [|split; [|split; [|split]]].
  - intros q [Hq|Hq]%elem_of_union; [|by apply HA].
    apply elem_of_singleton in Hq as ->. by destruct (HB from p).
  - intros from' p' Hp'. apply lookup_delete_Some in Hp' as [Hne Hp'].
    destruct (HB from' p' Hp') as [Hlt Hopen]. split; [done|].
    intros [Hq|Hq]%elem_of_union; [|done].
    apply elem_of_singleton in Hq. apply Hne. symmetry. by eapply HD.
  - intros from1 from2 p1 p2 [_ H1]%lookup_delete_Some [_ H2]%lookup_delete_Some.
    by apply HD.
  - intros id errs Hph. destruct (HE id errs Hph) as [Hlt Hne]. split; [done|].
    intros from' p' [_ Hp']%lookup_delete_Some. by eapply Hne.
  - intros Hph. rewrite (HF Hph) in Hp. by rewrite lookup_empty in Hp.
Qed.

(** An entry with a new candidates channel is put in, in a session; the
    channel of the entry it replaces may have been closed. *)
Lemma registry_sound_of_insert peers closed closed' next next' id errs from p :
  next <= candidates p -> candidates p < next' ->
  (forall q, q ∈ closed' ->
             q ∈ closed \/ exists old, peers !! from = Some old /\ q = candidates old) ->
  registry_sound_of peers closed next (InSession id errs) ->
  registry_sound_of (<[from := p]> peers) closed' next' (InSession id errs).
Proof.
  intros Hfresh Hmade Hclosed (HA & HB & HD & HE & HF).
  assert (forall q, q ∈ closed' -> q < next) as HA'.
  { intros q Hq. destruct (Hclosed q Hq) as [Hq'|(old & Hold & ->)]; [by apply HA|].
    by destruct (HB from old). }
  split; [|split; [|split; [|split]]].
  - intros q Hq. specialize (HA' q Hq). lia.
  - intros from' p' Hp'. apply lookup_insert_Some in Hp' as [[<- <-]|[Hne Hp']].
    + split; [done|]. intros Hq. specialize (HA' _ Hq). lia.
    + destruct (HB from' p' Hp') as [Hlt Hopen]. split; [lia|].
      intros Hq. destruct (Hclosed _ Hq) as [Hq'|(old & Hold & Heq)]; [done|].
      apply Hne. symmetry. by eapply HD.
  - intros from1 from2 p1 p2 H1 H2 Heq.
    apply lookup_insert_Some in H1 as [[<- <-]|[Hne1 H1]];
      apply lookup_insert_Some in H2 as [[<- <-]|[Hne2 H2]]; try done.
    + destruct (HB from2 p2 H2). lia.
    + destruct (HB from1 p1 H1). lia.
    + by eapply HD.
  - intros id' errs' [= <- <-]. destruct (HE id errs eq_refl) as [Hlt Hne].
    split; [lia|]. intros from' p' Hp'.
    apply lookup_insert_Some in Hp' as [[<- <-]|[_ Hp']]; [lia | by eapply Hne].
  - by intros [|].
Qed.

(** An entry is replaced by one with the same candidates channel. *)
Lemma registry_sound_of_update peers closed next ph from p p' :
  peers !! from = Some p ->
  candidates p' = candidates p ->
  registry_sound_of peers closed next ph ->
  registry_sound_of (<[from := p']> peers) closed next ph.
Proof.
  intros Hp Hsame (HA & HB & HD & HE & HF). split; [done|]. split; [|split; [|split]].
  - intros from' q Hq. apply lookup_insert_Some in Hq as [[<- <-]|[_ Hq]];
      [rewrite Hsame|]; by eapply HB.
  - intros from1 from2 p1 p2 H1 H2 Heq.
    apply lookup_insert_Some in H1 as [[<- <-]|[Hne1 H1]];
      apply lookup_insert_Some in H2 as [[<- <-]|[Hne2 H2]]; try done.
    + rewrite Hsame in Heq. by eapply HD.
    + rewrite Hsame in Heq. by eapply HD.
    + by eapply HD.
  - intros id errs Hph. destruct (HE id errs Hph) as [Hlt Hne]. split; [done|].
    intros from' q Hq. apply lookup_insert_Some in Hq as [[<- <-]|[_ Hq]];
      [rewrite Hsame|]; by eapply Hne.
  - intros Hph. rewrite (HF Hph) in Hp. by rewrite lookup_empty in Hp.
Qed.

(** The error channel of the session is closed. *)
Lemma registry_sound_of_close_errs peers closed next id errs :
  registry_sound_of peers closed next (InSession id errs) ->
  registry_sound_of peers ({[errs]} ∪ closed) next (InSession id errs).
Proof.
  intros (HA & HB & HD & HE & HF). destruct (HE id errs eq_refl) as [Hlt Hne].
  split; [|split; [|done]].
  - intros q [Hq|Hq]%elem_of_union; [|by apply HA]. by apply elem_of_singleton in Hq as ->.
  - intros from p Hp. destruct (HB from p Hp) as [Hlt' Hopen]. split; [done|].
    intros [Hq|Hq]%elem_of_union; [|done]. apply elem_of_singleton in Hq.
    by eapply Hne.
Qed.

(** A session starts with a new error channel. *)
Lemma registry_sound_of_session peers closed next next' id errs :
  next <= errs -> errs < next' ->
  registry_sound_of peers closed next AtLoopTop ->
  registry_sound_of peers closed next' (InSession id errs).
Proof.
  intros Hfresh Hmade (HA & HB & HD & HE & HF). split; [|split; [|split; [|split]]].
  - intros q Hq. specialize (HA q Hq). lia.
  - intros from p Hp. destruct (HB from p Hp). split; [lia | done].
  - done.
  - intros id' errs' [= <- <-]. split; [done|]. intros from p Hp.
    destruct (HB from p Hp). lia.
  - by intros [|].
Qed.

Lemma grows_refl w : grows w w.
Proof. by repeat split. Qed.

Lemma grows_trans w1 w2 w3 : grows w1 w2 -> grows w2 w3 -> grows w1 w3.
Proof.
  intros (Hp1 & Hc1 & Hph1 & Hn1) (Hp2 & Hc2 & Hph2 & Hn2).
  repeat split; try congruence. lia.
Qed.

Lemma registry_sound_grows w w' : grows w w' -> registry_sound w -> registry_sound w'.
Proof.
  intros (Hp & Hc & Hph & Hn). unfold registry_sound. rewrite Hp, Hc, Hph.
  by apply registry_sound_of_grow.
Qed.

Lemma keeps_registry_bind {A B} (m : M A) (k : A -> M B) :
  keeps_registry m -> (forall x, keeps_registry (k x)) -> keeps_registry (bind m k).
Proof.
  intros Hm Hk w. specialize (Hm w). unfold bind.
  destruct (m w) as [[x|pv|] w1]; [|done..].
  eapply grows_trans; [exact Hm | apply Hk].
Qed.

Lemma keeps_registry_deferred {A} (m : M A) (d : M unit) :
  keeps_registry m -> keeps_registry d -> keeps_registry (deferred m d).
Proof.
  intros Hm Hd w. specialize (Hm w). unfold deferred.
  destruct (m w) as [[x|pv|] w1]; [| |done].
  - specialize (Hd w1). destruct (d w1) as [[[]|pv|] w2]; by eapply grows_trans.
  - specialize (Hd w1). destruct (d w1) as [[[]|pv'|] w2]; by eapply grows_trans.
Qed.

(** Code whose every result differs from the world it started in by
    fields that the registry's soundness does not look at. *)
Lemma keeps_registry_fields {A} (m : M A) :
  (forall w, a_peers (snd (m w)) = a_peers w
             /\ closed_chans (snd (m w)) = closed_chans w
             /\ a_phase (snd (m w)) = a_phase w
             /\ next_handle w <= next_handle (snd (m w))) ->
  keeps_registry m.
Proof. intros H w. apply H. Qed.

Section KeepsRegistry.

Variable lib : list event -> call -> option error.
Variable uuid : nat -> string.
Variable description : handle -> string.
Variable a : Adapter.

Ltac fields_same :=
  apply keeps_registry_fields; intros w; cbn;
  repeat match goal with
         | |- context [if ?b then _ else _] => destruct b
         | |- context [match ?x with _ => _ end] => destruct x
         end; cbn; repeat split; lia.

Lemma keeps_registry_ret {A} (x : A) : keeps_registry (ret x).
Proof. fields_same. Qed.

Lemma keeps_registry_panic {A} pv : keeps_registry (@panic A pv).
Proof. fields_same. Qed.

Lemma keeps_registry_get : keeps_registry get.
Proof. fields_same. Qed.

Lemma keeps_registry_Lock : keeps_registry Lock.
Proof. apply keeps_registry_fields. intros w. unfold Lock. destruct (peerLock w); by cbn. Qed.

Lemma keeps_registry_Unlock : keeps_registry Unlock.
Proof. fields_same. Qed.

Lemma keeps_registry_fresh_handle : keeps_registry fresh_handle.
Proof. fields_same. Qed.

Lemma keeps_registry_NewString : keeps_registry (NewString uuid).
Proof. fields_same. Qed.

Lemma keeps_registry_hand_over c : keeps_registry (hand_over c).
Proof. fields_same. Qed.

Lemma keeps_registry_lib_call c : keeps_registry (lib_call lib c).
Proof. fields_same. Qed.

Lemma keeps_registry_must c : keeps_registry (must lib c).
Proof.
  apply keeps_registry_bind; [apply keeps_registry_lib_call|].
  intros [e|]; [apply keeps_registry_panic | apply keeps_registry_ret].
Qed.

Lemma keeps_registry_go_send_line l : keeps_registry (go_send_line l).
Proof.
  apply keeps_registry_fields. intros w. unfold go_send_line.
  destruct (lines_closed w); by cbn.
Qed.

Lemma keeps_registry_go_send_candidate q c : keeps_registry (go_send_candidate q c).
Proof.
  apply keeps_registry_fields. intros w. unfold go_send_candidate.
  destruct (decide (q ∈ closed_chans w)); by cbn.
Qed.

Lemma keeps_registry_go_drain q c errs : keeps_registry (go_drain q c errs).
Proof. fields_same. Qed.

Ltac registry_step :=
  lazymatch goal with
  | |- keeps_registry (bind _ _) => apply keeps_registry_bind; [|intros ?]
  | |- keeps_registry (deferred _ _) => apply keeps_registry_deferred
  | |- keeps_registry (ret _) => apply keeps_registry_ret
  | |- keeps_registry (panic _) => apply keeps_registry_panic
  | |- keeps_registry get => apply keeps_registry_get
  | |- keeps_registry Lock => apply keeps_registry_Lock
  | |- keeps_registry Unlock => apply keeps_registry_Unlock
  | |- keeps_registry fresh_handle => apply keeps_registry_fresh_handle
  | |- keeps_registry (NewString _) => apply keeps_registry_NewString
  | |- keeps_registry (hand_over _) => apply keeps_registry_hand_over
  | |- keeps_registry (lib_call _ _) => apply keeps_registry_lib_call
  | |- keeps_registry (must _ _) => apply keeps_registry_must
  | |- keeps_registry (go_send_line _) => apply keeps_registry_go_send_line
  | |- keeps_registry (go_send_candidate _ _) => apply keeps_registry_go_send_candidate
  | |- keeps_registry (go_drain _ _ _) => apply keeps_registry_go_drain
  | |- keeps_registry (match ?x with _ => _ end) => destruct x
  | |- keeps_registry (if ?b then _ else _) => destruct b
  end.

Lemma keeps_registry_close_channels l : keeps_registry (close_channels lib l).
Proof.
  induction l as [|[label channel] rest IH]; cbn [close_channels];
    repeat registry_step. exact IH.
Qed.

Lemma keeps_registry_handle_candidate id from to payload :
  keeps_registry (handle_candidate id from to payload).
Proof. unfold handle_candidate; repeat registry_step. Qed.

Lemma keeps_registry_handle_answer id errs from to payload :
  keeps_registry (handle_answer lib id errs from to payload).
Proof. unfold handle_answer; repeat registry_step. Qed.

Lemma keeps_registry_case_line l : keeps_registry (case_line lib l).
Proof. unfold case_line; repeat registry_step. Qed.

Lemma keeps_registry_case_ping : keeps_registry (case_ping lib).
Proof. unfold case_ping; repeat registry_step. Qed.

Lemma keeps_registry_case_errs e : keeps_registry (case_errs e).
Proof. unfold case_errs; repeat registry_step. Qed.

Lemma keeps_registry_OnICECandidate id from candidate :
  keeps_registry (OnICECandidate lib id from candidate).
Proof. unfold OnICECandidate; repeat registry_step. Qed.

Lemma keeps_registry_dial : keeps_registry (dial lib).
Proof.
  unfold dial; repeat registry_step. apply keeps_registry_fields. by intros w.
Qed.

Lemma keeps_registry_session_setup : keeps_registry (session_setup lib uuid a).
Proof.
  unfold session_setup; repeat registry_step.
  apply keeps_registry_fields. by intros w.
Qed.

Lemma keeps_registry_Close : keeps_registry Close.
Proof.
  unfold Close; repeat registry_step.
  - apply keeps_registry_fields. by intros w.
  - apply keeps_registry_fields. intros w. cbn. by destruct (lines_senders w).
Qed.

End KeepsRegistry.

Lemma registry_sound_keeps {A} (m : M A) (w : World) :
  keeps_registry m -> registry_sound w -> registry_sound (snd (m w)).
Proof. intros Hm. apply registry_sound_grows, Hm. Qed.

Section SoundHandlers.

Variable lib : list event -> call -> option error.
Variable uuid : nat -> string.
Variable description : handle -> string.
Variable a : Adapter.

Lemma teardown_registry p w :
  match teardown lib p w with
  | (Returns _, w') =>
      a_peers w' = a_peers w /\ a_phase w' = a_phase w
      /\ next_handle w <= next_handle w'
      /\ closed_chans w' = {[candidates p]} ∪ closed_chans w
  | (_, w') => grows w w'
  end.
Proof.
  unfold teardown, bind.
  pose proof (keeps_registry_close_channels lib (map_to_list (channels p)) w) as H1.
  destruct (close_channels lib (map_to_list (channels p)) w) as [[[]|pv|] w1]; [|done..].
  pose proof (keeps_registry_must lib (ConnClose (conn p)) w1) as H2.
  destruct (must lib (ConnClose (conn p)) w1) as [[[]|pv|] w2];
    cbn in H1, H2; [|by eapply grows_trans..].
  destruct H1 as (Hp1 & Hc1 & Hph1 & Hn1), H2 as (Hp2 & Hc2 & Hph2 & Hn2).
  unfold close_chan. destruct (decide (candidates p ∈ closed_chans w2)).
  - repeat split; try congruence. lia.
  - cbn. repeat split; try congruence. lia.
Qed.

Lemma teardown_offer_side_registry p w :
  match teardown_offer_side lib p w with
  | (Returns _, w') =>
      a_peers w' = a_peers w /\ a_phase w' = a_phase w
      /\ next_handle w <= next_handle w'
      /\ closed_chans w' = {[candidates p]} ∪ closed_chans w
  | (_, w') => grows w w'
  end.
Proof.
  unfold teardown_offer_side, bind.
  pose proof (keeps_registry_must lib (ConnClose (conn p)) w) as H1.
  destruct (must lib (ConnClose (conn p)) w) as [[[]|pv|] w1]; [|done..].
  pose proof (keeps_registry_must lib (ConnClose (conn p)) w1) as H2.
  destruct (must lib (ConnClose (conn p)) w1) as [[[]|pv|] w2];
    cbn in H1, H2; [|by eapply grows_trans..].
  destruct H1 as (Hp1 & Hc1 & Hph1 & Hn1), H2 as (Hp2 & Hc2 & Hph2 & Hn2).
  unfold close_chan. destruct (decide (candidates p ∈ closed_chans w2)).
  - repeat split; try congruence. lia.
  - cbn. repeat split; try congruence. lia.
Qed.

Lemma teardown_all_registry l : forall w,
  let w' := snd (teardown_all lib l w) in
  a_peers w' = a_peers w /\ a_phase w' = a_phase w
  /\ next_handle w <= next_handle w'
  /\ forall q, q ∈ closed_chans w' ->
               q ∈ closed_chans w \/ exists x, x ∈ l /\ q = candidates (snd x).
Proof.
  induction l as [|[from p] rest IH]; intros w; cbn zeta.
  - cbn. repeat split; try done. by left.
  - cbn [teardown_all]. unfold bind.
    pose proof (teardown_registry p w) as Htd.
    destruct (teardown lib p w) as [[[]|pv|] w1].
    + destruct Htd as (Hp1 & Hph1 & Hn1 & Hc1).
      destruct (IH w1) as (Hp2 & Hph2 & Hn2 & Hc2).
      repeat split; try congruence; [lia|].
      intros q Hq. destruct (Hc2 q Hq) as [Hq'|(x & Hx & ->)].
      * rewrite Hc1 in Hq'. apply elem_of_union in Hq' as [Hq'|Hq']; [|by left].
        apply elem_of_singleton in Hq' as ->. right. exists (from, p).
        split; [apply list_elem_of_here | done].
      * right. exists x. split; [by apply list_elem_of_further | done].
    + destruct Htd as (Hp1 & Hc1 & Hph1 & Hn1). cbn.
      repeat split; try done. intros q Hq. left. congruence.
    + destruct Htd as (Hp1 & Hc1 & Hph1 & Hn1). cbn.
      repeat split; try done. intros q Hq. left. congruence.
Qed.

(** The disconnect callbacks, over the teardown that each of them uses. *)
Lemma registry_sound_disconnect (td : peer -> M unit) (from iid0 : string) (w : World) :
  (forall p w0,
      match td p w0 with
      | (Returns _, w') =>
          a_peers w' = a_peers w0 /\ a_phase w' = a_phase w0
          /\ next_handle w0 <= next_handle w'
          /\ closed_chans w' = {[candidates p]} ∪ closed_chans w0
      | (_, w') => grows w0 w'
      end) ->
  registry_sound w ->
  registry_sound
    (snd ((Lock >>>
           deferred
             (let* w0 := get in
              match a_peers w0 !! from with
              | None => ret tt
              | Some c =>
                  if decide (iid c = iid0) then
                    td c >>> modify (set_peers (delete from))
                  else ret tt
              end)
             Unlock) w)).
Proof.
  intros Htd Hsound. unfold bind at 1. unfold Lock.
  destruct (peerLock w); [exact Hsound|].
  unfold deferred. unfold bind at 1. unfold get.
  change (a_peers (set_peerLock true w)) with (a_peers w).
  destruct (a_peers w !! from) as [c|] eqn:Hc; [|exact Hsound].
  destruct (decide (iid c = iid0)); [|exact Hsound].
  unfold bind. specialize (Htd c (set_peerLock true w)).
  destruct (td c (set_peerLock true w)) as [[[]|pv|] w1].
  - destruct Htd as (Hp & Hph & Hn & Hcl). unfold registry_sound. cbn.
    rewrite Hp, Hph, Hcl. cbn.
    eapply registry_sound_of_grow; [exact Hn|]. by apply registry_sound_of_delete.
  - exact (registry_sound_grows w w1 Htd Hsound).
  - exact (registry_sound_grows w w1 Htd Hsound).
Qed.

Lemma registry_sound_OnConnectionStateChange from iid0 pcs (offer_side : bool) w :
  registry_sound w ->
  registry_sound
    (snd ((if offer_side then OnConnectionStateChange_offer lib from iid0 pcs
           else OnConnectionStateChange_introduction lib from iid0 pcs) w)).
Proof.
  intros Hsound. destruct offer_side, pcs; try exact Hsound.
  - apply (registry_sound_disconnect (teardown_offer_side lib)); [|done].
    apply teardown_offer_side_registry.
  - apply (registry_sound_disconnect (teardown lib)); [|done].
    apply teardown_registry.
Qed.

Lemma registry_sound_OnOpen from dc w :
  registry_sound w -> registry_sound (snd (OnOpen from dc w)).
Proof.
  intros Hsound. unfold OnOpen, bind, Lock. destruct (peerLock w); [exact Hsound|].
  unfold get. change (a_peers (set_peerLock true w)) with (a_peers w).
  destruct (a_peers w !! from) as [p|] eqn:Hp; [|exact Hsound].
  unfold registry_sound. cbn. by eapply registry_sound_of_update.
Qed.

Lemma registry_sound_OnClose from dc w :
  registry_sound w -> registry_sound (snd (OnClose lib from dc w)).
Proof.
  intros Hsound. unfold OnClose, bind, Lock. destruct (peerLock w); [exact Hsound|].
  unfold deferred, bind, get. change (a_peers (set_peerLock true w)) with (a_peers w).
  destruct (a_peers w !! from) as [p|] eqn:Hp; [|exact Hsound].
  destruct (channels p !! dc_label dc) as [channel|]; [|exact Hsound].
  unfold must, lib_call, bind, panic, ret.
  destruct (lib _ _); [exact Hsound|].
  unfold registry_sound. cbn. by eapply registry_sound_of_update.
Qed.

(** Code that keeps the registry, in front of a continuation. *)
Lemma registry_sound_after {A B} (m : M A) (k : A -> M B) (w0 w : World) :
  keeps_registry m -> registry_sound w0 -> grows w0 w ->
  (forall x w1, m w = (Returns x, w1) -> grows w w1 -> registry_sound (snd (k x w1))) ->
  registry_sound (snd (bind m k w)).
Proof.
  intros Hm Hsound Hgrows Hk. unfold bind. specialize (Hm w).
  destruct (m w) as [[x|pv|] w1] eqn:Hrun; cbn in Hm.
  - by apply Hk.
  - eapply registry_sound_grows; [|exact Hsound]. by eapply grows_trans.
  - eapply registry_sound_grows; [|exact Hsound]. by eapply grows_trans.
Qed.

(** The install of a new entry by the offer handler (lines 666-671), with
    what follows it. *)
Lemma registry_sound_install id errs from c iid0 (k : handle -> M unit) (w0 w : World) :
  (forall q, keeps_registry (k q)) ->
  a_phase w0 = InSession id errs -> registry_sound w0 -> grows w0 w ->
  registry_sound
    (snd ((let* candidates := fresh_handle in
           modify (set_peers (<[from := mkPeer c candidates ∅ iid0]>)) >>>
           k candidates) w)).
Proof.
  intros Hk Hphase Hsound (Hp & Hc & Hph & Hn). unfold bind, fresh_handle, modify.
  eapply registry_sound_grows; [apply Hk|].
  unfold registry_sound. cbn. rewrite Hp, Hc, Hph, Hphase.
  eapply registry_sound_of_insert; cbn;
    [exact Hn | lia | by left | rewrite <- Hphase; exact Hsound].
Qed.

(** The upsert of the introduction handler (lines 475-496), with what
    follows it. *)
Lemma registry_sound_upsert id errs from pr l (w0 w : World) :
  a_phase w0 = InSession id errs -> registry_sound w0 -> grows w0 w ->
  next_handle w0 <= candidates pr -> candidates pr < next_handle w ->
  registry_sound
    (snd ((Lock >>>
           (let* w := get in
            match a_peers w !! from with
            | Some old => teardown lib old
            | None => ret tt
            end) >>>
           modify (set_peers (<[from := pr]>)) >>>
           Unlock >>>
           go_send_line l) w)).
Proof.
  intros Hphase Hsound Hgrows Hfresh Hmade.
  pose proof Hgrows as (Hp & Hc & Hph & Hn).
  unfold bind at 1. unfold Lock.
  destruct (peerLock w); [by eapply registry_sound_grows|].
  unfold bind at 1. unfold bind at 1. unfold get.
  change (a_peers (set_peerLock true w)) with (a_peers w).
  destruct (a_peers w !! from) as [old|] eqn:Hold.
  - pose proof (teardown_registry old (set_peerLock true w)) as Htd.
    destruct (teardown lib old (set_peerLock true w)) as [[[]|pv|] w1].
    + destruct Htd as (Hp1 & Hph1 & Hn1 & Hc1). cbn in Hp1, Hph1, Hn1, Hc1.
      unfold bind, modify, Unlock, modify.
      eapply registry_sound_grows; [apply keeps_registry_go_send_line|].
      unfold registry_sound. cbn. rewrite Hp1, Hc1, Hph1, Hp, Hc, Hph, Hphase.
      eapply registry_sound_of_insert; [exact Hfresh | lia | |rewrite <- Hphase; exact Hsound].
      intros q [Hq|Hq]%elem_of_union; [|by left].
      apply elem_of_singleton in Hq as ->. right. exists old. by rewrite <- Hp.
    + eapply registry_sound_grows; [|exact Hsound]. by eapply grows_trans.
    + eapply registry_sound_grows; [|exact Hsound]. by eapply grows_trans.
  - unfold ret, bind, modify, Unlock, modify.
    eapply registry_sound_grows; [apply keeps_registry_go_send_line|].
    unfold registry_sound. cbn. rewrite Hp, Hc, Hph, Hphase.
    eapply registry_sound_of_insert; [exact Hfresh | lia | by left |rewrite <- Hphase; exact Hsound].
Qed.

Ltac sound_after G :=
  eapply registry_sound_after;
  [first [apply keeps_registry_NewString | apply keeps_registry_fresh_handle
         | apply keeps_registry_must | apply keeps_registry_lib_call
         | apply keeps_registry_Lock]
  | eassumption | eassumption | intros ? ? ? G].

Lemma registry_sound_handle_introduction id errs from w :
  a_phase w = InSession id errs ->
  registry_sound w ->
  registry_sound (snd (handle_introduction lib uuid description a id from w)).
Proof.
  intros Hphase Hsound. unfold handle_introduction.
  pose proof (grows_refl w) as G0.
  sound_after G1. pose proof (grows_trans _ _ _ G0 G1) as G01. clear G0 G1.
  sound_after G2. pose proof (grows_trans _ _ _ G01 G2) as G02. clear G01 G2.
  sound_after G3. pose proof (grows_trans _ _ _ G02 G3) as G03. clear G02 G3.
  sound_after G4. pose proof (grows_trans _ _ _ G03 G4) as G04. clear G03 G4.
  sound_after G5. pose proof (grows_trans _ _ _ G04 G5) as G05. clear G04 G5.
  sound_after G6. pose proof (grows_trans _ _ _ G05 G6) as G06.
  match goal with
  | H : fresh_handle ?v = (Returns ?q, ?v') |- _ =>
      assert (next_handle w <= q /\ q < next_handle v') as [Hfresh Hmade]
  end.
  { unfold fresh_handle in *. simplify_eq. cbn. destruct G05 as (_ & _ & _ & Hn). lia. }
  clear G05 G6.
  do 4 (let G := fresh "G" in
        sound_after G;
        match goal with
        | Hacc : grows w ?v, Hm : _ < next_handle ?v |- _ =>
            pose proof (grows_trans _ _ _ Hacc G);
            destruct G as (_ & _ & _ & G); pose proof (Nat.lt_le_trans _ _ _ Hm G);
            clear Hacc Hm G
        end).
  eapply registry_sound_upsert; eauto.
Qed.

Lemma registry_sound_handle_offer id errs from to payload w :
  a_phase w = InSession id errs ->
  registry_sound w ->
  registry_sound (snd (handle_offer lib uuid description id errs from to payload w)).
Proof.
  intros Hphase Hsound. unfold handle_offer.
  destruct (decide (to = id)); [|exact Hsound].
  pose proof (grows_refl w) as G0.
  do 4 (let G := fresh "G" in
        sound_after G;
        match goal with
        | Hacc : grows w ?v |- _ => pose proof (grows_trans _ _ _ Hacc G); clear Hacc G
        end).
  match goal with |- context [match ?x with Some _ => _ | None => _ end] => destruct x end;
    [by eapply registry_sound_grows|].
  do 6 (let G := fresh "G" in
        sound_after G;
        match goal with
        | Hacc : grows w ?v |- _ => pose proof (grows_trans _ _ _ Hacc G); clear Hacc G
        end).
  eapply (registry_sound_install id errs); eauto.
  intros q. apply keeps_registry_bind; [apply keeps_registry_Unlock|intros _].
  apply keeps_registry_bind; [apply keeps_registry_go_drain|intros _].
  apply keeps_registry_go_send_line.
Qed.

Lemma teardown_all_never_blocks l : forall w, fst (teardown_all lib l w) <> Blocks.
Proof.
  induction l as [|[from p] rest IH]; intros w; [done|].
  cbn [teardown_all]. unfold bind.
  pose proof (teardown_outcome lib p w) as Htd.
  destruct (teardown lib p w) as [[[]|pv|] w1]; [apply IH | done | done].
Qed.

(** The session's deferred function either leaves the registry and the
    closed channels as they were, or gives the lock back after closing
    only candidates channels of registry entries. *)
Lemma session_exit_registry w :
  match session_exit lib w with
  | (r, w') =>
      grows w w'
      \/ (r <> Blocks /\ peerLock w' = false
          /\ next_handle w <= next_handle w'
          /\ forall q, q ∈ closed_chans w' ->
                       q ∈ closed_chans w
                       \/ exists from p, a_peers w !! from = Some p /\ q = candidates p)
  end.
Proof.
  unfold session_exit. unfold bind at 1.
  pose proof (keeps_registry_must lib SocketClose w) as G1.
  destruct (must lib SocketClose w) as [[[]|pv|] w1]; cbn in G1; [|by left..].
  unfold bind, Lock. destruct (peerLock w1); [by left|].
  unfold deferred, bind, get, Unlock, modify.
  pose proof (teardown_all_registry (map_to_list (a_peers (set_peerLock true w1)))
                (set_peerLock true w1)) as (Hp & Hph & Hn & Hcl).
  pose proof (teardown_all_never_blocks (map_to_list (a_peers (set_peerLock true w1)))
                (set_peerLock true w1)) as Hnb.
  destruct G1 as (Hp1 & Hc1 & Hph1 & Hn1).
  assert (forall q, q ∈ closed_chans
                      (snd (teardown_all lib (map_to_list (a_peers (set_peerLock true w1)))
                              (set_peerLock true w1))) ->
                    q ∈ closed_chans w
                    \/ exists from p, a_peers w !! from = Some p /\ q = candidates p) as Hcl'.
  { intros q Hq. destruct (Hcl q Hq) as [Hq'|([from p] & Hx & ->)].
    - left. by rewrite <- Hc1.
    - right. exists from, p. split; [|done].
      rewrite <- Hp1. by apply elem_of_map_to_list. }
  destruct (teardown_all lib (map_to_list (a_peers (set_peerLock true w1)))
              (set_peerLock true w1)) as [[[]|pv|] w2]; [| |done];
    right; cbn in *; (repeat split; [done | lia | exact Hcl']).
Qed.

Lemma registry_sound_blocked w : registry_sound w -> registry_sound (set_phase LoopBlocked w).
Proof. apply registry_sound_of_blocked. Qed.

Lemma registry_sound_loop_defer w :
  registry_sound w ->
  registry_sound
    (match loop_defer w with
     | (Blocks, w2) => set_phase LoopBlocked w2
     | (_, w2) => set_phase AtLoopTop (set_errs_senders [] w2)
     end).
Proof.
  intros Hsound. unfold loop_defer, bind, Lock. destruct (peerLock w); cbn.
  - by apply registry_sound_blocked.
  - apply registry_sound_of_cleared. apply Hsound.
Qed.

Lemma registry_sound_unwind dialed w :
  registry_sound w -> registry_sound (unwind lib dialed w).
Proof.
  intros Hsound. unfold unwind. destruct dialed.
  - pose proof (session_exit_registry w) as Hexit.
    destruct (session_exit lib w) as [r1 w1].
    destruct Hexit as [G|(Hnb & Hlock & Hn & Hcl)].
    + pose proof (registry_sound_grows _ _ G Hsound) as Hsound1.
      destruct r1; [by apply registry_sound_loop_defer..|by apply registry_sound_blocked].
    + assert (registry_sound (set_phase AtLoopTop
                (set_errs_senders [] (set_peerLock false
                   (set_peers (fun _ => ∅) (set_peerLock true w1)))))) as Hclear.
      { apply registry_sound_of_cleared. cbn. intros q Hq.
        destruct Hsound as (HA & HB & _).
        destruct (Hcl q Hq) as [Hq'|(from & p & Hp & ->)].
        - specialize (HA q Hq'). lia.
        - destruct (HB from p Hp). lia. }
      unfold loop_defer, bind, Lock. rewrite Hlock. by destruct r1.
  - cbn. by apply registry_sound_loop_defer.
Qed.

Lemma registry_sound_in_loop (m : M unit) w :
  registry_sound (snd (m w)) -> registry_sound (in_loop lib m w).
Proof.
  unfold in_loop. destruct (m w) as [[[]|pv|] w1]; cbn; intros Hsound.
  - done.
  - by apply registry_sound_unwind.
  - by apply registry_sound_blocked.
Qed.

Lemma registry_sound_in_callback {A} (m : M A) w :
  registry_sound (snd (m w)) -> registry_sound (in_callback m w).
Proof. unfold in_callback. by destruct (m w) as [[x|pv|] w1]. Qed.

Lemma registry_sound_case_input id errs input w :
  a_phase w = InSession id errs ->
  registry_sound w ->
  registry_sound (snd (case_input lib uuid description a id errs input w)).
Proof.
  intros Hphase Hsound. destruct input as [| | |[]]; cbn [case_input]; try exact Hsound.
  - by eapply registry_sound_handle_introduction.
  - by eapply registry_sound_handle_offer.
  - by apply registry_sound_keeps; [apply keeps_registry_handle_answer|].
  - by apply registry_sound_keeps; [apply keeps_registry_handle_candidate|].
Qed.

Lemma session_setup_registry w :
  match session_setup lib uuid a w with
  | (Returns (id, errs), w') =>
      a_peers w' = a_peers w /\ closed_chans w' = closed_chans w
      /\ a_phase w' = a_phase w
      /\ next_handle w <= errs /\ errs < next_handle w'
  | (_, w') => grows w w'
  end.
Proof.
  unfold session_setup, must, lib_call, bind, fresh_handle, NewString, hand_over, modify,
    go_send_line, panic, ret.
  destruct (lib (trace w) SetReadDeadline); [by cbn|].
  destruct (decide (GoStrings.TrimSpace (ID (config a)) = "")); cbn;
    destruct (lib _ MarshalJSON); cbn; try destruct (lines_closed w); cbn;
    repeat split; lia.
Qed.

Lemma registry_sound_loop_top w :
  a_phase w = AtLoopTop -> registry_sound w -> registry_sound (loop_top lib uuid a w).
Proof.
  intros Hphase Hsound. unfold loop_top. destruct (a_done w).
  - unfold registry_sound in *. cbn. rewrite Hphase in Hsound.
    by apply registry_sound_of_returned.
  - pose proof (keeps_registry_dial lib w) as G1.
    destruct (dial lib w) as [[[]|pv|] w1]; cbn in G1;
      [|apply registry_sound_unwind; by eapply registry_sound_grows..].
    pose proof (session_setup_registry w1) as Hsetup.
    destruct (session_setup lib uuid a w1) as [[[id errs]|pv|] w2].
    + destruct G1 as (Hp1 & Hc1 & Hph1 & Hn1), Hsetup as (Hp2 & Hc2 & Hph2 & Hn2 & Hn3).
      unfold registry_sound. cbn. rewrite Hp2, Hc2, Hp1, Hc1.
      eapply (registry_sound_of_session _ _ (next_handle w)); [lia | lia |].
      by rewrite <- Hphase.
    + apply registry_sound_unwind. eapply registry_sound_grows; [|exact Hsound].
      by eapply grows_trans.
    + apply registry_sound_blocked. eapply registry_sound_grows; [|exact Hsound].
      by eapply grows_trans.
Qed.

Lemma registry_sound_reader_fails id errs e w :
  a_phase w = InSession id errs -> registry_sound w ->
  registry_sound (reader_fails lib errs e w).
Proof.
  intros Hphase Hsound. unfold reader_fails.
  assert (registry_sound (set_chans ({[errs]} ∪ closed_chans w) (queue_senders w) w)) as Hsound1.
  { unfold registry_sound in *. cbn. rewrite Hphase in *.
    by apply registry_sound_of_close_errs. }
  destruct (errs_senders w); [|exact Hsound1].
  by apply registry_sound_in_loop.
Qed.

Lemma registry_sound_drain_step q c errs w :
  registry_sound w -> registry_sound (drain_step lib q c errs w).
Proof.
  intros Hsound. unfold drain_step.
  destruct (decide ((q, c, errs) ∈ drains w)); [|done].
  destruct (decide (q ∈ closed_chans w)); [done|].
  destruct (queue_senders w !! q) as [[|candidate waiting]|]; [done| |done].
  unfold lib_call. cbn.
  destruct (lib _ _); [|done].
  cbn. destruct (decide (errs ∈ closed_chans w)); [done|].
  destruct (a_phase w) eqn:Hphase; try done.
  destruct (decide (_ = errs)); [|done].
  exact Hsound.
Qed.

Lemma registry_sound_step l w :
  registry_sound w -> registry_sound (step lib uuid description a l w).
Proof.
  intros Hsound. unfold step. destruct (crashed w); [done|].
  destruct l as [|input|e| | | |q c errs|offer_side from iid0 pcs|id from candidate
                |from dc|from dc|].
  - destruct (a_phase w) eqn:Hphase; try done. by apply registry_sound_loop_top.
  - destruct (a_phase w) eqn:Hphase; try done.
    by apply registry_sound_in_loop, registry_sound_case_input.
  - destruct (a_phase w) eqn:Hphase; try done. by eapply registry_sound_reader_fails.
  - destruct (a_phase w) eqn:Hphase; try done.
    destruct (errs_senders w) eqn:Hwait; [done|].
    by apply registry_sound_in_loop.
  - destruct (a_phase w) eqn:Hphase; try done.
    unfold receive_line.
    destruct (lines_senders w); [destruct (lines_closed w); [|done]|];
      apply registry_sound_in_loop;
      (apply registry_sound_keeps; [apply keeps_registry_case_line|done]).
  - destruct (a_phase w) eqn:Hphase; try done.
    apply registry_sound_in_loop.
    by apply registry_sound_keeps; [apply keeps_registry_case_ping|].
  - assert (registry_sound (drain_step lib q c errs w)) as Hdrain
        by by apply registry_sound_drain_step.
    by destruct (a_phase w).
  - assert (registry_sound
              (in_callback
                 (if offer_side then OnConnectionStateChange_offer lib from iid0 pcs
                  else OnConnectionStateChange_introduction lib from iid0 pcs) w)) as Hcb
        by by apply registry_sound_in_callback, registry_sound_OnConnectionStateChange.
    by destruct offer_side, (a_phase w).
  - assert (registry_sound (in_callback (OnICECandidate lib id from candidate) w)) as Hcb.
    { apply registry_sound_in_callback.
      by apply registry_sound_keeps; [apply keeps_registry_OnICECandidate|]. }
    by destruct (a_phase w).
  - assert (registry_sound (in_callback (OnOpen from dc) w)) as Hcb
        by by apply registry_sound_in_callback, registry_sound_OnOpen.
    by destruct (a_phase w).
  - assert (registry_sound (in_callback (OnClose lib from dc) w)) as Hcb
        by by apply registry_sound_in_callback, registry_sound_OnClose.
    by destruct (a_phase w).
  - assert (registry_sound (in_callback Close w)) as Hcb.
    { apply registry_sound_in_callback.
      by apply registry_sound_keeps; [apply keeps_registry_Close|]. }
    by destruct (a_phase w).
Qed.

End SoundHandlers.

Lemma registry_sound_new_world : registry_sound new_world.
Proof.
  unfold registry_sound, registry_sound_of. cbn. repeat split; done.
Qed.

(** Whatever happens, in whatever order, the registry stays sound. *)
Lemma registry_sound_run lib uuid description a ls : forall w,
  registry_sound w -> registry_sound (run lib uuid description a ls w).
Proof.
  unfold run. induction ls as [|l ls IH]; intros w Hsound; [done|].
  cbn. by apply IH, registry_sound_step.
Qed.

(** X16: in every state that the adapter reaches from the one
    [NewAdapter] leaves, no two entries of the registry share a candidates
    channel; and while a session runs (between two events, no handler or
    callback being at work on the registry), the candidates channel of each
    entry is open and is not the error channel of the session.  After a
    session has ended its entries stay, torn down, until the deferred
    function of lines 147-163 empties the registry. *)
Theorem registry_candidates_open_and_distinct
  (lib : list event -> call -> option error) (uuid : nat -> string)
  (description : handle -> string) (a : Adapter) (ls : list label) :
  let w := run lib uuid description a ls new_world in
  (forall from1 from2 p1 p2,
      a_peers w !! from1 = Some p1 -> a_peers w !! from2 = Some p2 ->
      candidates p1 = candidates p2 -> from1 = from2)
  /\ (forall id errs from p,
        a_phase w = InSession id errs -> a_peers w !! from = Some p ->
        (candidates p ∉ closed_chans w) /\ candidates p <> errs).
Proof.
  intros w.
  destruct (registry_sound_run lib uuid description a ls new_world registry_sound_new_world)
    as (_ & HB & HD & HE & _).
  split; [exact HD|].
  intros id errs from p Hphase Hp. split.
  - by destruct (HB from p Hp).
  - destruct (HE id errs Hphase) as [_ Hne]. by eapply Hne.
Qed.

(** X17: whenever the loop of [Open] is at its top or has returned, the
    registry is empty: entries are made only inside a session, and the
    deferred function of lines 147-163 resets the registry when a session
    ends. *)
Theorem registry_empty_between_sessions
  (lib : list event -> call -> option error) (uuid : nat -> string)
  (description : handle -> string) (a : Adapter) (ls : list label) :
  let w := run lib uuid description a ls new_world in
  a_phase w = AtLoopTop \/ a_phase w = LoopReturned ->
  a_peers w = ∅.
Proof.
  intros w.
  destruct (registry_sound_run lib uuid description a ls new_world registry_sound_new_world)
    as (_ & _ & _ & _ & HF).
  exact HF.
Qed.

Lemma registry_empty_between_sessions_witness :
  a_peers (run never_fails nth_uuid sdp_of example_adapter
             (joined_and_introduced ++ [RecvReadError EOF]) new_world) = ∅.
Proof.
  apply (registry_empty_between_sessions never_fails nth_uuid sdp_of example_adapter
           (joined_and_introduced ++ [RecvReadError EOF])).
  left. vm_compute. reflexivity.
Defined.

(** ** The lock *)

Lemma locks_bind {A B} (b1 b2 b3 : bool) (m : M A) (k : A -> M B) :
  locks b1 b2 m -> (forall x, locks b2 b3 (k x)) -> locks b1 b3 (bind m k).
Proof.
  intros Hm Hk w Hw. specialize (Hm w Hw). unfold bind.
  destruct (m w) as [[x|pv|] w1]; [|done..]. by apply Hk.
Qed.

Lemma locks_deferred_Unlock {A} (b1 b2 : bool) (m : M A) :
  locks b1 b2 m -> locks b1 false (deferred m Unlock).
Proof.
  intros Hm w Hw. specialize (Hm w Hw). unfold deferred.
  by destruct (m w) as [[x|pv|] w1].
Qed.

Lemma locks_modify (b : bool) (f : World -> World) :
  (forall w, peerLock (f w) = peerLock w) -> locks b b (modify f).
Proof. intros Hf w Hw. cbn. by rewrite Hf. Qed.

Lemma locks_ret {A} (b : bool) (x : A) : locks b b (ret x).
Proof. by intros w Hw. Qed.

Lemma locks_panic {A} (b1 b2 : bool) pv : locks b1 b2 (@panic A pv).
Proof. by intros w Hw. Qed.

Lemma locks_get (b : bool) : locks b b get.
Proof. by intros w Hw. Qed.

Lemma locks_Lock : locks false true Lock.
Proof. intros w Hw. unfold Lock. by rewrite Hw. Qed.

Lemma locks_Unlock (b : bool) : locks b false Unlock.
Proof. by intros w Hw. Qed.

Lemma locks_fresh_handle (b : bool) : locks b b fresh_handle.
Proof. by intros w Hw. Qed.

Lemma locks_close_chan (b : bool) q : locks b b (close_chan q).
Proof. intros w Hw. unfold close_chan. by destruct (decide (q ∈ closed_chans w)). Qed.

Lemma locks_go_send_line (b : bool) l : locks b b (go_send_line l).
Proof. intros w Hw. unfold go_send_line. by destruct (lines_closed w). Qed.

Lemma locks_go_send_candidate (b : bool) q c : locks b b (go_send_candidate q c).
Proof.
  intros w Hw. unfold go_send_candidate. by destruct (decide (q ∈ closed_chans w)).
Qed.

Lemma locks_go_drain (b : bool) q c errs : locks b b (go_drain q c errs).
Proof. by intros w Hw. Qed.

Section Locks.

Variable lib : list event -> call -> option error.
Variable uuid : nat -> string.
Variable description : handle -> string.
Variable a : Adapter.

Lemma locks_NewString (b : bool) : locks b b (NewString uuid).
Proof. by intros w Hw. Qed.

Lemma locks_lib_call (b : bool) c : locks b b (lib_call lib c).
Proof. by intros w Hw. Qed.

Lemma locks_must (b : bool) c : locks b b (must lib c).
Proof.
  eapply locks_bind; [apply locks_lib_call|].
  intros [e|]; [apply locks_panic | apply locks_ret].
Qed.

Ltac locks_step :=
  lazymatch goal with
  | |- locks _ _ (bind _ _) => eapply locks_bind; [|intros ?]
  | |- locks _ _ (deferred _ Unlock) => eapply locks_deferred_Unlock
  | |- locks _ _ (ret _) => apply locks_ret
  | |- locks _ _ get => apply locks_get
  | |- locks _ _ Lock => apply locks_Lock
  | |- locks _ _ Unlock => apply locks_Unlock
  | |- locks _ _ fresh_handle => apply locks_fresh_handle
  | |- locks _ _ (NewString _) => apply locks_NewString
  | |- locks _ _ (lib_call _ _) => apply locks_lib_call
  | |- locks _ _ (must _ _) => apply locks_must
  | |- locks _ _ (close_chan _) => apply locks_close_chan
  | |- locks _ _ (go_send_line _) => apply locks_go_send_line
  | |- locks _ _ (go_send_candidate _ _) => apply locks_go_send_candidate
  | |- locks _ _ (go_drain _ _ _) => apply locks_go_drain
  | |- locks _ _ (modify (set_peers _)) => apply locks_modify; intros ?; reflexivity
  | |- locks _ _ (match ?x with _ => _ end) => destruct x
  | |- locks _ _ (if ?b then _ else _) => destruct b
  end.

Lemma locks_close_channels (b : bool) l : locks b b (close_channels lib l).
Proof.
  induction l as [|[label channel] rest IH]; cbn [close_channels];
    repeat locks_step. exact IH.
Qed.

Lemma locks_teardown (b : bool) p : locks b b (teardown lib p).
Proof.
  unfold teardown. eapply locks_bind; [apply locks_close_channels|intros _].
  repeat locks_step.
Qed.

Lemma locks_teardown_offer_side (b : bool) p : locks b b (teardown_offer_side lib p).
Proof. unfold teardown_offer_side. repeat locks_step. Qed.

Lemma locks_OnConnectionStateChange_introduction from iid0 pcs :
  locks false false (OnConnectionStateChange_introduction lib from iid0 pcs).
Proof.
  destruct pcs; try apply locks_ret. cbn [OnConnectionStateChange_introduction].
  eapply locks_bind; [apply locks_Lock|intros _].
  apply (locks_deferred_Unlock true true).
  eapply locks_bind; [apply locks_get|intros w0].
  destruct (a_peers w0 !! from) as [c|]; [|apply locks_ret].
  destruct (decide (iid c = iid0)); [|apply locks_ret].
  eapply locks_bind; [apply locks_teardown|intros _]. locks_step.
Qed.

Lemma locks_OnConnectionStateChange_offer from iid0 pcs :
  locks false false (OnConnectionStateChange_offer lib from iid0 pcs).
Proof.
  destruct pcs; try apply locks_ret. cbn [OnConnectionStateChange_offer].
  eapply locks_bind; [apply locks_Lock|intros _].
  apply (locks_deferred_Unlock true true).
  eapply locks_bind; [apply locks_get|intros w0].
  destruct (a_peers w0 !! from) as [c|]; [|apply locks_ret].
  destruct (decide (iid c = iid0)); [|apply locks_ret].
  eapply locks_bind; [apply locks_teardown_offer_side|intros _]. locks_step.
Qed.

Lemma locks_OnClose from dc : locks false false (OnClose lib from dc).
Proof.
  unfold OnClose. eapply locks_bind; [apply locks_Lock|intros _].
  apply (locks_deferred_Unlock true true).
  eapply locks_bind; [apply locks_get|intros w0].
  destruct (a_peers w0 !! from) as [p|]; [|apply locks_panic].
  destruct (channels p !! dc_label dc); repeat locks_step.
Qed.

Lemma locks_handle_introduction id from :
  locks false false (handle_introduction lib uuid description a id from).
Proof.
  unfold handle_introduction.
  do 10 (eapply locks_bind; [locks_step|intros ?]).
  eapply locks_bind; [apply locks_Lock|intros _].
  eapply locks_bind.
  { eapply locks_bind; [apply locks_get|intros w0].
    destruct (a_peers w0 !! from); [apply locks_teardown | apply locks_ret]. }
  intros _. repeat locks_step.
Qed.

Lemma locks_handle_offer id errs from to payload :
  locks false false (handle_offer lib uuid description id errs from to payload).
Proof.
  unfold handle_offer. destruct (decide (to = id)); [|apply locks_ret].
  do 3 (eapply locks_bind; [locks_step|intros ?]).
  eapply locks_bind; [apply locks_lib_call|intros [bad|]]; [apply locks_ret|].
  do 5 (eapply locks_bind; [locks_step|intros ?]).
  eapply locks_bind; [apply locks_Lock|intros _].
  repeat locks_step.
Qed.

Lemma locks_handle_candidate id from to payload :
  locks false false (handle_candidate id from to payload).
Proof.
  unfold handle_candidate. destruct (decide (to = id)); [|apply locks_ret].
  eapply locks_bind; [apply locks_Lock|intros _].
  eapply locks_bind; [apply locks_get|intros w0].
  destruct (a_peers w0 !! from); repeat locks_step.
Qed.

Lemma locks_handle_answer id errs from to payload :
  locks false false (handle_answer lib id errs from to payload).
Proof.
  unfold handle_answer. destruct (decide (to = id)); [|apply locks_ret].
  eapply locks_bind; [apply locks_Lock|intros _].
  eapply locks_bind; [apply locks_get|intros w0].
  eapply locks_bind; [apply locks_Unlock|intros _].
  destruct (a_peers w0 !! from); [|apply locks_ret].
  eapply locks_bind; [apply locks_lib_call|intros [bad|]]; [apply locks_ret|].
  repeat locks_step.
Qed.

Lemma locks_case_input id errs input :
  locks false false (case_input lib uuid description a id errs input).
Proof.
  destruct input as [| | |[]]; cbn [case_input]; try apply locks_ret.
  - apply locks_handle_introduction.
  - apply locks_handle_offer.
  - apply locks_handle_answer.
  - apply locks_handle_candidate.
Qed.

(** X18: a handler of the session loop for an inbound message, the two
    disconnect callbacks and the close callback of a data channel each give
    the lock back: started with the lock free, none of them waits for the
    lock a second time, and when it returns the lock is free again.  (A
    panic inside the introduction handler's locked region is another matter,
    and so is the open callback, which hands a [Peer] to the host with the
    lock held.) *)
Theorem handlers_return_with_lock_free (id : string) (errs : handle) (input : inbound)
  (from iid0 : string) (pcs : PeerConnectionState) (dc : DataChannel) :
  locks false false (case_input lib uuid description a id errs input)
  /\ locks false false (OnConnectionStateChange_introduction lib from iid0 pcs)
  /\ locks false false (OnConnectionStateChange_offer lib from iid0 pcs)
  /\ locks false false (OnClose lib from dc).
Proof.
  split; [apply locks_case_input|].
  split; [apply locks_OnConnectionStateChange_introduction|].
  split; [apply locks_OnConnectionStateChange_offer | apply locks_OnClose].
Qed.

End Locks.

(** X19: in a state that the adapter reaches, in a session, with the
    lock free, no error waiting on the session's error channel and no close
    failing, a read error ends the session with every entry of the registry
    torn down and the registry empty: the close of the error channel and the
    earlier teardowns leave no candidates channel to be closed twice. *)
Theorem read_error_ends_reachable_session
  (lib : list event -> call -> option error) (uuid : nat -> string)
  (description : handle -> string) (a : Adapter) (ls : list label)
  (id : string) (errs : handle) (e : error) :
  let w := run lib uuid description a ls new_world in
  (forall tr c, is_close c = true -> lib tr c = None) ->
  a_phase w = InSession id errs ->
  crashed w = None ->
  peerLock w = false ->
  errs_senders w = [] ->
  let w' := step lib uuid description a (RecvReadError e) w in
  a_phase w' = AtLoopTop
  /\ a_peers w' = ∅
  /\ peerLock w' = false
  /\ Ev SocketClose true ∈ trace w'
  /\ forall from p, a_peers w !! from = Some p -> torn_down p w'.
Proof.
  intros w Hcloses Hphase Hcrashed Hlock Hwait w'. subst w'.
  destruct (registry_sound_run lib uuid description a ls new_world registry_sound_new_world)
    as (_ & HB & HD & HE & _).
  fold w in HB, HD, HE.
  unfold step. rewrite Hcrashed, Hphase. unfold reader_fails. rewrite Hwait.
  unfold in_loop, case_errs, panic.
  set (w1 := set_chans ({[errs]} ∪ closed_chans w) (queue_senders w) w).
  assert (forall from p, a_peers w1 !! from = Some p -> candidates p ∉ closed_chans w1)
    as Hopen.
  { intros from p Hp. cbn in *. destruct (HB from p Hp) as [_ Hnot].
    destruct (HE id errs Hphase) as [_ Hne].
    intros [Hq|Hq]%elem_of_union; [|done].
    apply elem_of_singleton in Hq. by eapply Hne. }
  destruct (session_exit_result lib w1 Hcloses Hlock Hopen HD)
    as (w2 & Hexit & Hlk2 & Hsock & Hdown).
  unfold unwind. rewrite Hexit.
  unfold loop_defer, bind, Lock, modify, Unlock. rewrite Hlk2. cbn.
  split; [done|]. split; [done|]. split; [done|]. split; [done|].
  intros from p Hp. exact (Hdown from p Hp).
Qed.

Lemma read_error_ends_reachable_session_witness :
  a_peers (step never_fails nth_uuid sdp_of example_adapter (RecvReadError EOF)
             world_with_B) = ∅
  /\ torn_down entry_of_B
       (step never_fails nth_uuid sdp_of example_adapter (RecvReadError EOF) world_with_B).
Proof.
  destruct (read_error_ends_reachable_session never_fails nth_uuid sdp_of example_adapter
              joined_and_introduced "0" 0 EOF)
    as (_ & Hempty & _ & _ & Hdown).
  - intros tr c _. reflexivity.
  - vm_compute. reflexivity.
  - vm_compute. reflexivity.
  - vm_compute. reflexivity.
  - vm_compute. reflexivity.
  - unfold world_with_B. split; [exact Hempty|]. apply (Hdown "B" entry_of_B).
    vm_compute. reflexivity.
Defined.

(** ** The ICE-server list: the entry without a colon *)

(** X20: an entry [user@rest] whose part before the first [@] has no
    colon in it (the entry being neither blank nor a STUN entry) makes the
    loop of [Open] panic with an index out of range, whatever follows the
    [@]: line 127 tests the parts around the [@] a second time, not the
    parts around the colon, and line 134 reads the second of these. *)
Theorem Open_ice_entry_without_colon_panics (user rest : string) :
  GoStrings.Contains user ":" = false ->
  GoStrings.Contains user "@" = false ->
  GoStrings.TrimSpace (user ++ String "@" rest) <> "" ->
  GoStrings.Contains (user ++ String "@" rest) "stun:" = false ->
  Open_ice_entry (user ++ String "@" rest) = Some (IcePanic (PanicIndexOutOfRange 1 1)).
Proof.
  intros Hcolon Hat Hblank Hstun. unfold Open_ice_entry.
  destruct (decide (GoStrings.TrimSpace (user ++ String "@" rest) = "")) as [?|_]; [done|].
  rewrite Hstun, Split_single_app by done.
  pose proof (split_from_nonempty "@" rest 0 "") as Hrest.
  fold (GoStrings.Split rest "@") in Hrest.
  destruct (GoStrings.Split rest "@") as [|url more] eqn:Hsplit; [cbn in Hrest; lia|].
  cbn [length nth]. rewrite Split_single_absent by done. reflexivity.
Qed.

Lemma Open_ice_entry_without_colon_panics_witness :
  Open_ice_entry "user@turn.example.com:3478@x" = Some (IcePanic (PanicIndexOutOfRange 1 1)).
Proof.
  refine (Open_ice_entry_without_colon_panics "user" "turn.example.com:3478@x" _ _ _ _);
    vm_compute; first [reflexivity | discriminate].
Defined.

(** ** Candidates that wait are added *)

(** One round of a drain goroutine whose channel is open and has a sender
    waiting: the candidate is received and added on the connection. *)
Lemma drain_step_adds lib q c errs cand waiting w :
  (q, c, errs) ∈ drains w ->
  q ∉ closed_chans w ->
  queue_senders w !! q = Some (cand :: waiting) ->
  lib (trace w) (AddICECandidate c cand) = None ->
  drain_step lib q c errs w
  = log (Ev (AddICECandidate c cand) true)
      (set_chans (closed_chans w) (<[q := waiting]> (queue_senders w)) w).
Proof.
  intros Hin Hopen Hq Hlib. unfold drain_step.
  rewrite decide_True by done. rewrite decide_False by done. rewrite Hq.
  unfold lib_call. cbn. by rewrite Hlib.
Qed.

(** As many rounds as senders wait: every candidate that waits is added. *)
Lemma drain_steps_add lib uuid description a q c errs : forall cands w,
  crashed w = None ->
  (q, c, errs) ∈ drains w ->
  q ∉ closed_chans w ->
  queue_senders w !! q = Some cands ->
  (forall tr cand, cand ∈ cands -> lib tr (AddICECandidate c cand) = None) ->
  let w' := run lib uuid description a (replicate (length cands) (DrainStep q c errs)) w in
  (forall cand, cand ∈ cands -> Ev (AddICECandidate c cand) true ∈ trace w')
  /\ (forall e, e ∈ trace w -> e ∈ trace w')
  /\ queue_senders w' !! q = Some [].
Proof.
  induction cands as [|cand waiting IH]; intros w Hcrashed Hin Hopen Hq Hlib; cbn zeta.
  - cbn. split; [|done]. intros cand Hcand. by apply elem_of_nil in Hcand.
  - cbn [length replicate].
    change (run lib uuid description a
              (DrainStep q c errs :: replicate (length waiting) (DrainStep q c errs)) w)
      with (run lib uuid description a (replicate (length waiting) (DrainStep q c errs))
              (step lib uuid description a (DrainStep q c errs) w)).
    assert (step lib uuid description a (DrainStep q c errs) w
            = log (Ev (AddICECandidate c cand) true)
                (set_chans (closed_chans w) (<[q := waiting]> (queue_senders w)) w))
      as Hstep.
    { unfold step. rewrite Hcrashed.
      rewrite <- (drain_step_adds lib q c errs cand waiting w);
        try done; try (by destruct (a_phase w)).
      apply Hlib, list_elem_of_here. }
    rewrite Hstep.
    destruct (IH (log (Ev (AddICECandidate c cand) true)
                    (set_chans (closed_chans w) (<[q := waiting]> (queue_senders w)) w)))
      as (Hadded & Hkept & Hempty); try done.
    { cbn. by rewrite lookup_insert_eq. }
    { intros tr cand' Hcand'. by apply Hlib, list_elem_of_further. }
    split; [|split; [|done]].
    + intros cand' [->|Hcand']%elem_of_cons.
      * apply Hkept. cbn. apply list_elem_of_here.
      * by apply Hadded.
    + intros e He. apply Hkept. cbn. by apply list_elem_of_further.
Qed.

(** An answer addressed to this client from a peer that has an entry: the
    remote description is set on the entry's connection and the goroutine
    that drains the entry's candidates channel is started. *)
Lemma handle_answer_starts_drain lib id errs from answer c w :
  a_peers w !! from = Some c ->
  peerLock w = false ->
  (forall tr, lib tr (UnmarshalSDP answer) = None) ->
  (forall tr, lib tr (SetRemoteDescription (conn c)) = None) ->
  exists w2,
    handle_answer lib id errs from id answer w = (Returns tt, w2)
    /\ crashed w2 = crashed w
    /\ drains w2 = (candidates c, conn c, errs) :: drains w
    /\ closed_chans w2 = closed_chans w
    /\ queue_senders w2 = queue_senders w
    /\ trace w2
       = Ev (SetRemoteDescription (conn c)) true :: Ev (UnmarshalSDP answer) true :: trace w.
Proof.
  intros Hc Hlock Hparse Hset. unfold handle_answer.
  destruct (decide (id = id)) as [_|]; [|done].
  unfold bind, Lock, get, Unlock, modify. rewrite Hlock. cbn. rewrite Hc.
  unfold lib_call, must, bind, lib_call, ret, go_drain, modify. cbn.
  rewrite Hparse, Hset. cbn. eexists. split; [reflexivity|]. by cbn.
Qed.

(** An offer addressed to this client, no call failing: the remote
    description is set on the new connection, the entry is installed and the
    goroutine that drains its candidates channel is started. *)
Lemma handle_offer_installs lib uuid description id errs from offer w :
  peerLock w = false ->
  (forall tr call, lib tr call = None) ->
  exists w1,
    handle_offer lib uuid description id errs from id offer w = (Returns tt, w1)
    /\ a_peers w1
       = <[from := mkPeer (next_handle w) (S (next_handle w)) ∅ (uuid (next_uuid w))]>
           (a_peers w)
    /\ drains w1 = (S (next_handle w), next_handle w, errs) :: drains w
    /\ Ev (SetRemoteDescription (next_handle w)) true ∈ trace w1.
Proof.
  intros Hlock Hlib. unfold handle_offer.
  destruct (decide (id = id)) as [_|]; [|done].
  unfold bind, NewString, fresh_handle, must, lib_call, bind, ret, Lock, modify, Unlock,
    go_drain, go_send_line, modify.
  cbn. rewrite !Hlib. cbn. rewrite Hlock. cbn.
  destruct (lines_closed w); cbn; (eexists; split; [reflexivity|]); cbn;
    (split; [done|]); (split; [done|]);
    do 4 apply list_elem_of_further; apply list_elem_of_here.
Qed.

(** C6: in a state that the adapter can reach, a candidate from a peer
    that has an entry is put on the entry's candidates channel and no call
    is made for it; in every continuation each [AddICECandidate] on a
    connection comes after a successful [SetRemoteDescription] on that
    connection, every drain goroutine working on a connection whose remote
    description is set; and the candidates that wait are added: by the
    drain goroutine of the entry when there is one, as many rounds as
    candidates wait adding each of them; after the answer of the peer, whose
    handler sets the remote description and starts that goroutine; and on
    the offer side the handler of an offer starts the goroutine of the entry
    that it installs, after it has set the remote description. *)
Theorem candidates_wait_for_remote_description
  (lib : list event -> call -> option error) (uuid : nat -> string)
  (description : handle -> string) (a : Adapter)
  (ls : list label) (id from payload : string) (c : peer) :
  let w := run lib uuid description a ls new_world in
  a_peers w !! from = Some c ->
  peerLock w = false ->
  candidates c ∉ closed_chans w ->
  let w' := snd (handle_candidate id from id payload w) in
  let queued := (default [] (queue_senders w !! candidates c) ++ [payload])%list in
  queue_senders w' !! candidates c = Some queued
  /\ trace w' = trace w
  /\ (forall ls' : list label,
        let w'' := run lib uuid description a ls' w' in
        remote_set_before_add (trace w'')
        /\ Forall (fun d => Ev (SetRemoteDescription (snd (fst d))) true ∈ trace w'')
             (drains w''))
  /\ (forall errs : handle,
        crashed w = None ->
        (candidates c, conn c, errs) ∈ drains w ->
        (forall tr cand, cand ∈ queued -> lib tr (AddICECandidate (conn c) cand) = None) ->
        let w'' := run lib uuid description a
                     (replicate (length queued) (DrainStep (candidates c) (conn c) errs))
                     w' in
        (forall cand, cand ∈ queued -> Ev (AddICECandidate (conn c) cand) true ∈ trace w'')
        /\ queue_senders w'' !! candidates c = Some [])
  /\ (forall (errs : handle) (answer : string),
        a_phase w = InSession id errs ->
        crashed w = None ->
        (forall tr, lib tr (UnmarshalSDP answer) = None) ->
        (forall tr, lib tr (SetRemoteDescription (conn c)) = None) ->
        (forall tr cand, cand ∈ queued -> lib tr (AddICECandidate (conn c) cand) = None) ->
        let w'' := run lib uuid description a
                     (RecvInput (Envelope (Answer from id answer))
                      :: replicate (length queued)
                           (DrainStep (candidates c) (conn c) errs))
                     w' in
        (forall cand, cand ∈ queued -> Ev (AddICECandidate (conn c) cand) true ∈ trace w'')
        /\ Ev (SetRemoteDescription (conn c)) true ∈ trace w''
        /\ queue_senders w'' !! candidates c = Some [])
  /\ (forall (errs : handle) (from' offer : string),
        a_phase w = InSession id errs ->
        crashed w = None ->
        (forall tr call, lib tr call = None) ->
        let w1 := step lib uuid description a
                    (RecvInput (Envelope (Offer from' id offer))) w in
        a_peers w1 !! from'
        = Some (mkPeer (next_handle w) (S (next_handle w)) ∅ (uuid (next_uuid w)))
        /\ drains w1 = (S (next_handle w), next_handle w, errs) :: drains w
        /\ Ev (SetRemoteDescription (next_handle w)) true ∈ trace w1).
Proof.
  intros w Hc Hlock Hopen w' queued. subst w'.
  rewrite (handle_candidate_enqueues id from payload c w Hc Hlock Hopen). cbn [snd].
  fold queued.
  set (w' := set_peerLock false
               (set_chans (closed_chans w)
                  (<[candidates c := queued]> (queue_senders w)) (set_peerLock true w))).
  assert (queue_senders w' !! candidates c = Some queued) as Hqueued
      by (cbn; by rewrite lookup_insert_eq).
  split; [done|]. split; [done|]. split; [|split; [|split]].
  - intros ls'.
    assert (drains_after_remote w) as Hw.
    { apply drains_after_remote_run, drains_after_remote_new_world. }
    assert (drains_after_remote w') as Hw1 by (destruct Hw; by split).
    apply (drains_after_remote_run lib uuid description a ls') in Hw1.
    destruct Hw1 as [Htr Hdr]. split; [done|].
    apply Forall_forall. intros [[q c'] errs] Hin. by eapply Hdr.
  - intros errs Hcrashed Hdrain Hlib.
    destruct (drain_steps_add lib uuid description a (candidates c) (conn c) errs queued w')
      as (Hadded & _ & Hempty); done.
  - intros errs answer Hphase Hcrashed Hparse Hset Hlib.
    change (run lib uuid description a
              (RecvInput (Envelope (Answer from id answer))
               :: replicate (length queued) (DrainStep (candidates c) (conn c) errs)) w')
      with (run lib uuid description a
              (replicate (length queued) (DrainStep (candidates c) (conn c) errs))
              (step lib uuid description a (RecvInput (Envelope (Answer from id answer))) w')).
    destruct (handle_answer_starts_drain lib id errs from answer c w' Hc eq_refl Hparse Hset)
      as (w2 & Hrun & Hcr2 & Hdr2 & Hcl2 & Hq2 & Htr2).
    assert (step lib uuid description a (RecvInput (Envelope (Answer from id answer))) w'
            = w2) as Hstep.
    { unfold step. change (crashed w') with (crashed w). rewrite Hcrashed.
      change (a_phase w') with (a_phase w). rewrite Hphase.
      unfold in_loop. cbn [case_input]. by rewrite Hrun. }
    rewrite Hstep.
    destruct (drain_steps_add lib uuid description a (candidates c) (conn c) errs queued w2)
      as (Hadded & Hkept & Hempty); try done.
    + by rewrite Hcr2.
    + rewrite Hdr2. apply list_elem_of_here.
    + by rewrite Hcl2.
    + by rewrite Hq2.
    + split; [done|]. split; [|done]. apply Hkept. rewrite Htr2. apply list_elem_of_here.
  - intros errs from' offer Hphase Hcrashed Hlib.
    destruct (handle_offer_installs lib uuid description id errs from' offer w Hlock Hlib)
      as (w1 & Hrun & Hp1 & Hdr1 & Hset1).
    assert (step lib uuid description a (RecvInput (Envelope (Offer from' id offer))) w
            = w1) as Hstep.
    { unfold step. rewrite Hcrashed, Hphase. unfold in_loop. cbn [case_input].
      by rewrite Hrun. }
    cbn zeta. rewrite Hstep, Hp1. by rewrite lookup_insert_eq.
Qed.

Lemma candidates_wait_for_remote_description_witness :
  Ev (AddICECandidate 1 "candidate:1") true
    ∈ trace (run never_fails nth_uuid sdp_of example_adapter
               [RecvInput (Envelope (Answer "B" "0" "answer")); DrainStep 3 1 0]
               (snd (handle_candidate "0" "B" "0" "candidate:1" world_with_B)))
  /\ remote_set_before_add
       (trace (run never_fails nth_uuid sdp_of example_adapter
                 [RecvInput (Envelope (Answer "B" "0" "answer")); DrainStep 3 1 0]
                 (snd (handle_candidate "0" "B" "0" "candidate:1" world_with_B)))).
Proof.
  destruct (candidates_wait_for_remote_description never_fails nth_uuid sdp_of
              example_adapter joined_and_introduced "0" "B" "candidate:1" entry_of_B)
    as (_ & _ & Hsafe & _ & Hanswer & _).
  - vm_compute. reflexivity.
  - vm_compute. reflexivity.
  - apply (proj1 (bool_decide_eq_false _)). vm_compute. reflexivity.
  - unfold world_with_B. split.
    + destruct (Hanswer 0 "answer") as (Hadded & _); try reflexivity.
      apply (Hadded "candidate:1"). vm_compute. apply list_elem_of_here.
    + apply (Hsafe [RecvInput (Envelope (Answer "B" "0" "answer")); DrainStep 3 1 0]).
Defined.
